(** * Image puzzle shuffle: a shallow embedding of [puzzle_shuffle.py]

    The development follows the Python module top to bottom: the values
    the code computes with (Python integers, NumPy slices, lists used as
    arrays), the two core functions [shuffle_image_puzzle] and
    [process_all_images], and the interactive [PuzzleShuffleGUI] object
    as a record with one transition function per method.

    Library code the module calls ([random], NumPy's generator, OpenCV,
    Pillow, Python floats, the built-in [hash]) enters through type
    classes that state what the program relies on; concrete instances
    further down make the model executable.  The definitions come first,
    then the lemmas about them, then the properties of the
    specification, each named by its identifier C1 to C10, and further
    properties of the same code, named X1 and up. *)

From Stdlib Require Import QArith Qround.
From stdpp Require Import base numbers list strings pretty gmap.

Local Open Scope Z_scope.

(** ** Python exceptions and the error monad *)

Inductive exn : Set :=
  | ZeroDivisionError
  | IndexError
  | ValueError
  | cv2_error
  | KeyError.

Inductive result (A : Type) : Type :=
  | Ok (a : A)
  | Raise (e : exn).
Arguments Ok {A} a.
Arguments Raise {A} e.

Global Instance result_ret : MRet result := λ A a, Ok a.
Global Instance result_bind : MBind result := λ A B f m,
  match m with Ok a => f a | Raise e => Raise e end.

Global Instance result_fmap : FMap result := λ A B f m,
  match m with Ok a => Ok (f a) | Raise e => Raise e end.

Definition is_Ok {A} (m : result A) : Prop := ∃ a, m = Ok a.

Fixpoint foldM {A B} (f : B → A → result B) (b : B) (l : list A) : result B :=
  match l with
  | [] => Ok b
  | a :: l' => b' ← f b a; foldM f b' l'
  end.

(** ** Python integers and sequences *)

(** [a // b] on [int]: floor division, [ZeroDivisionError] on [b = 0]. *)
Definition floordiv (a b : Z) : result Z :=
  if decide (b = 0) then Raise ZeroDivisionError else Ok (a `div` b).

(** [range(n)]: empty for [n <= 0]. *)
Definition range (n : Z) : list Z := seqZ 0 n.

(** [l[i]] for a non-negative index. *)
Definition getitem {A} (l : list A) (i : nat) : result A :=
  match l !! i with Some a => Ok a | None => Raise IndexError end.

(** [enumerate(l)]. *)
Definition enumerate {A} (l : list A) : list (nat * A) := imap pair l.

(** One bound of a slice [l[start:stop]] resolved against [len(l)]:
    negative bounds count from the end, everything is clipped. *)
Definition slice_index (len : nat) (i : Z) : nat :=
  if decide (i < 0) then Z.to_nat (Z.max 0 (i + Z.of_nat len)) else Z.to_nat (Z.min i (Z.of_nat len)).

Definition slice {A} (start stop : Z) (l : list A) : list A :=
  let a := slice_index (length l) start in
  let b := slice_index (length l) stop in
  take (b - a) (drop a l).

(** [x[i], x[j] = x[j], x[i]]: both reads happen before the writes. *)
Definition swap_items {A} (x : list A) (i j : nat) : result (list A) :=
  xj ← getitem x j;
  xi ← getitem x i;
  Ok (<[j := xi]> (<[i := xj]> x)).

(** ** Images as NumPy arrays of shape (h, w, 3) *)

Definition pixel : Type := Z * Z * Z.
Definition black : pixel := (0, 0, 0).

(** Row-major list of rows. An array with zero rows is [[]]: its width
    is not represented and reads as 0. *)
Abbreviation image := (list (list pixel)).

Definition height (img : image) : nat := length img.
Definition width (img : image) : nat :=
  match img with [] => 0%nat | r :: _ => length r end.

Definition has_shape (h w : nat) (img : image) : Prop :=
  length img = h ∧ Forall (λ r, length r = w) img.

Definition has_shapeb (h w : nat) (img : image) : bool :=
  bool_decide (length img = h) && forallb (λ r, bool_decide (length r = w)) img.

(** Pixel at row [y], column [x]. *)
Definition px (img : image) (y x : nat) : option pixel :=
  img !! y ≫= (.!! x).

(** [img[r0:r1, c0:c1]] *)
Definition crop (img : image) (r0 r1 c0 c1 : Z) : image :=
  slice c0 c1 <$> slice r0 r1 img.

(** [np.zeros_like(img)] and [np.zeros((h, w, 3))] *)
Definition zeros_like (img : image) : image :=
  (λ r : list pixel, (λ _, black) <$> r) <$> img.
Definition zeros (h w : nat) : image := replicate h (replicate w black).

(** [dst[r0:r1, c0:c1] = src]. The target region and [src] have the same
    shape at every call site of this program, so NumPy's broadcasting of
    size-one axes is not modelled: a shape mismatch is [ValueError]. *)
Definition assign_block (dst : image) (r0 r1 c0 c1 : Z) (src : image) : result image :=
  let ra := slice_index (length dst) r0 in
  let rb := slice_index (length dst) r1 in
  let ca := slice_index (width dst) c0 in
  let cb := slice_index (width dst) c1 in
  if has_shapeb (rb - ra) (cb - ca) src
  then Ok (imap (λ y row,
             imap (λ x p,
               if bool_decide ((ra ≤ y < rb)%nat ∧ (ca ≤ x < cb)%nat)
               then default p (px src (y - ra) (x - ca))
               else p) row) dst)
  else Raise ValueError.

(** ** Random number generators

    [random.Random] and NumPy's [Generator] are library objects; the
    program only relies on the documented range of the integers they
    draw. *)

(** [random.Random(seed)] with [_randbelow(n)] in [0, n). *)
Class PyRandom := {
  Random : Type;
  Random_seeded : Z → Random;
  randbelow : Random → nat → nat * Random;
  randbelow_lt : ∀ g n, (0 < n)%nat → ((randbelow g n).1 < n)%nat;
}.

(** [np.random.default_rng()] seeded from OS entropy, with
    [random_interval(max)] in [0, max]. *)
Class NpRandom := {
  Generator : Type;
  random_interval : Generator → nat → nat * Generator;
  random_interval_le : ∀ g m, ((random_interval g m).1 ≤ m)%nat;
}.

(** The loop shared by [random.Random.shuffle] and [Generator.shuffle]
    on a Python list:
      for i in reversed(range(1, len(x))): j = draw(i); x[i], x[j] = x[j], x[i] *)
Fixpoint shuffle_loop {G A} (draw : G → nat → nat * G)
    (idxs : list nat) (g : G) (x : list A) : result (list A * G) :=
  match idxs with
  | [] => Ok (x, g)
  | i :: idxs' =>
      let '(j, g') := draw g i in
      x' ← swap_items x i j;
      shuffle_loop draw idxs' g' x'
  end.

Definition fisher_yates {G A} (draw : G → nat → nat * G) (g : G) (x : list A)
    : result (list A * G) :=
  shuffle_loop draw (reverse (seq 1 (length x - 1))) g x.

Definition Random_shuffle `{PyRandom} {A} (g : Random) (x : list A) :=
  fisher_yates (λ g i, randbelow g (i + 1)) g x.

Definition Generator_shuffle `{NpRandom} {A} (g : Generator) (x : list A) :=
  fisher_yates random_interval g x.

(** ** Core image processing functions *)

Inductive difficulty : Set := easy | medium | hard.

Definition DIFFICULTY_GRID (d : difficulty) : Z * Z :=
  match d with
  | easy => (3, 3)
  | medium => (4, 4)
  | hard => (5, 5)
  end.

(** [[(r, c) for r in range(gh) for c in range(gw)]], also the order of
    the nested [for i in range(gh): for j in range(gw):] loops. *)
Definition grid_cells (gh gw : Z) : list (Z * Z) :=
  r ← range gh; c ← range gw; [(r, c)].

(** The tiling loop: [img[i*th:(i+1)*th, j*tw:(j+1)*tw]] per cell. *)
Definition cut_tiles (img : image) (gh gw th tw : Z) : list image :=
  (λ '(i, j), crop img (i * th) ((i + 1) * th) (j * tw) ((j + 1) * tw))
    <$> grid_cells gh gw.

(** The assembling loop: cell [idx] receives [tiles[order[idx]]]. *)
Definition place_tiles (dst : image) (gh gw th tw : Z)
    (tiles : list image) (order : list nat) : result image :=
  foldM (λ dst '(idx, (i, j)),
           k ← getitem order idx;
           t ← getitem tiles k;
           assign_block dst (i * th) ((i + 1) * th) (j * tw) ((j + 1) * tw) t)
        dst (enumerate (grid_cells gh gw)).

(** Lines 93-94: [order = list(range(len(tiles)))] shuffled by a fresh
    [random.Random(seed)]; the generator is dropped afterwards. *)
Definition seeded_order `{PyRandom} (n : nat) (seed : Z) : result (list nat) :=
  fst <$> Random_shuffle (Random_seeded seed) (seq 0 n).

(** Lines 85-92: tile size and the row-major list of tiles. *)
Definition tile_image (img : image) (grid_size : Z * Z)
    : result (Z * Z * list image) :=
  let h := Z.of_nat (height img) in
  let w := Z.of_nat (width img) in
  let '(gh, gw) := grid_size in
  th ← floordiv h gh;
  tw ← floordiv w gw;
  Ok (th, tw, cut_tiles img gh gw th tw).

Definition shuffle_image_puzzle `{PyRandom} (img : image) (grid_size : Z * Z) (seed : Z)
    : result (image * list nat) :=
  '(th, tw, tiles) ← tile_image img grid_size;
  let '(gh, gw) := grid_size in
  order ← seeded_order (length tiles) seed;
  shuffled ← place_tiles (zeros_like img) gh gw th tw tiles order;
  Ok (shuffled, order).

(** [np.zeros((h, w, 3), ...)]: negative dimensions are a [ValueError]. *)
Definition np_zeros (h w : Z) : result image :=
  if decide (0 ≤ h ∧ 0 ≤ w) then Ok (zeros (Z.to_nat h) (Z.to_nat w))
  else Raise ValueError.

(** The body of [PuzzleShuffleGUI._assemble] once tiles and order are
    known: the tile size is read off [tiles[0]]. *)
Definition assemble_tiles (tiles : list image) (order : list nat)
    (grid_size : Z * Z) : result image :=
  let '(gh, gw) := grid_size in
  t0 ← getitem tiles 0;
  let th := Z.of_nat (height t0) in
  let tw := Z.of_nat (width t0) in
  puzzle ← np_zeros (th * gh) (tw * gw);
  place_tiles puzzle gh gw th tw tiles order.

(** The image cut down to whole tiles: [img[0:gh*th, 0:gw*tw]]. *)
Definition truncated (img : image) (grid_size : Z * Z) : result image :=
  let '(gh, gw) := grid_size in
  th ← floordiv (Z.of_nat (height img)) gh;
  tw ← floordiv (Z.of_nat (width img)) gw;
  Ok (crop img 0 (gh * th) 0 (gw * tw)).

(** What a reader of the solution record does: position of tile [k] in
    [order], and the inverse permutation built from it. *)
Definition index_of (k : nat) (order : list nat) : nat :=
  default 0%nat (fst <$> list_find (λ v, v = k) order).

Definition inverse_permutation (order : list nat) : list nat :=
  (λ k, index_of k order) <$> seq 0 (length order).

(** ** Batch mode *)

(** The built-in [hash()] on [str]: a function of the string and of a
    secret drawn once per interpreter process ([PYTHONHASHSEED]). *)
Class PyHash := {
  hash_secret : Type;
  str_hash : hash_secret → string → Z;
}.

(** [fname.lower()], on ASCII letters. *)
Definition ascii_lower (c : Ascii.ascii) : Ascii.ascii :=
  let n := Ascii.nat_of_ascii c in
  if decide (65 ≤ n ≤ 90)%nat then Ascii.ascii_of_nat (n + 32) else c.

Definition str_lower (s : string) : string :=
  String.string_of_list_ascii (ascii_lower <$> String.list_ascii_of_string s).

(** [s.endswith(suffix)] *)
Definition endswith (s suffix : string) : bool :=
  bool_decide (String.list_ascii_of_string suffix
               `suffix_of` String.list_ascii_of_string s).

(** [fname.lower().endswith((".jpg", ".jpeg", ".png", ".bmp"))] *)
Definition supported_image (fname : string) : bool :=
  let f := str_lower fname in
  endswith f ".jpg" || endswith f ".jpeg" || endswith f ".png" || endswith f ".bmp".

(** [os.path.splitext(fname)[0]] for a name without directory part: cut
    at the last dot unless only dots precede it. *)
Definition splitext_root (fname : string) : string :=
  let cs := String.list_ascii_of_string fname in
  let dot : Ascii.ascii := Ascii.ascii_of_nat 46 in
  match list_find (λ c, c = dot) (reverse cs) with
  | None => fname
  | Some (j, _) =>
      let dotIndex := (length cs - 1 - j)%nat in
      if forallb (λ c, bool_decide (c = dot)) (take dotIndex cs) then fname
      else String.string_of_list_ascii (take dotIndex cs)
  end.

(** [os.path.splitext(fname)], same reading: the root and the
    extension, which starts at the dot. *)
Definition splitext (fname : string) : string * string :=
  let cs := String.list_ascii_of_string fname in
  let dot : Ascii.ascii := Ascii.ascii_of_nat 46 in
  match list_find (λ c, c = dot) (reverse cs) with
  | None => (fname, "")
  | Some (j, _) =>
      let dotIndex := (length cs - 1 - j)%nat in
      if forallb (λ c, bool_decide (c = dot)) (take dotIndex cs) then (fname, "")
      else (String.string_of_list_ascii (take dotIndex cs),
            String.string_of_list_ascii (drop dotIndex cs))
  end.

(** [os.path.join(a, b)] of [posixpath] for two components: an absolute
    [b] replaces [a]; otherwise one separator stands between them. *)
Definition isabs (b : string) : bool :=
  match b with
  | String c _ => bool_decide (c = Ascii.ascii_of_nat 47)
  | EmptyString => false
  end.

Definition path_join (a b : string) : string :=
  if isabs b then b
  else if bool_decide (a = "") || endswith a "/" then a +:+ b
  else a +:+ "/" +:+ b.

(** Line 116: [seed = hash(fname) & 0xFFFFFFFF] *)
Definition file_seed `{PyHash} (secret : hash_secret) (fname : string) : Z :=
  Z.land (str_hash secret fname) 0xFFFFFFFF.

(** What one input file leaves in the output directory: the puzzle image
    (the array before the grid and the numbers are drawn on it) and the
    solution record [{"tile_order": order}]. *)
Record puzzle_files : Type := {
  image_file : string;
  image_array : image;
  solution_file : string;
  solution_tile_order : list nat;
}.

(** [process_all_images]: [listing] is the directory, each name with what
    [cv2.imread] returns for it. *)
Definition process_all_images `{PyHash, PyRandom} (secret : hash_secret)
    (listing : list (string * option image)) (level : difficulty)
    : result (list puzzle_files) :=
  let grid_size := DIFFICULTY_GRID level in
  foldM (λ written '(fname, decoded),
           if negb (supported_image fname) then Ok written
           else match decoded with
                | None => Ok written
                | Some img =>
                    let seed := file_seed secret fname in
                    '(shuffled, order) ← shuffle_image_puzzle img grid_size seed;
                    Ok (written ++
                        [{| image_file := "shuffled_" +:+ fname;
                            image_array := shuffled;
                            solution_file :=
                              "solution_map_" +:+ splitext_root fname +:+ ".json";
                            solution_tile_order := order |}])
                end)
        [] listing.

(** *** CPython's string hash

    SipHash-1-3 over the bytes of the string, keyed by the first sixteen
    bytes of the process secret, as in CPython 3.11 on a 64-bit build;
    strings are ASCII, one byte per character. *)

Definition u64 (x : Z) : Z := x `mod` 2 ^ 64.

Definition rotl64 (x b : Z) : Z :=
  u64 (Z.lor (Z.shiftl x b) (Z.shiftr x (64 - b))).

Definition half_round (a b c d s t : Z) : Z * Z * Z * Z :=
  let a := u64 (a + b) in
  let c := u64 (c + d) in
  let b := Z.lxor (rotl64 b s) a in
  let d := Z.lxor (rotl64 d t) c in
  let a := rotl64 a 32 in
  (a, b, c, d).

Definition single_round (v : Z * Z * Z * Z) : Z * Z * Z * Z :=
  let '(v0, v1, v2, v3) := v in
  let '(v0, v1, v2, v3) := half_round v0 v1 v2 v3 13 16 in
  let '(v2, v1, v0, v3) := half_round v2 v1 v0 v3 17 21 in
  (v0, v1, v2, v3).

(** Little-endian value of at most eight bytes. *)
Definition le_word (bs : list Z) : Z := foldr (λ b acc, b + 256 * acc) 0 bs.

Fixpoint siphash_blocks (fuel : nat) (v : Z * Z * Z * Z) (bs : list Z)
    : (Z * Z * Z * Z) * list Z :=
  match fuel with
  | O => (v, bs)
  | S fuel' =>
      if decide (8 ≤ length bs)%nat then
        let mi := le_word (take 8 bs) in
        let '(v0, v1, v2, v3) := v in
        let '(v0, v1, v2, v3) := single_round (v0, v1, v2, Z.lxor v3 mi) in
        siphash_blocks fuel' (Z.lxor v0 mi, v1, v2, v3) (drop 8 bs)
      else (v, bs)
  end.

Definition siphash13 (k0 k1 : Z) (src : list Z) : Z :=
  let b := u64 (Z.shiftl (Z.of_nat (length src)) 56) in
  let v0 := Z.lxor k0 0x736f6d6570736575 in
  let v1 := Z.lxor k1 0x646f72616e646f6d in
  let v2 := Z.lxor k0 0x6c7967656e657261 in
  let v3 := Z.lxor k1 0x7465646279746573 in
  let '((v0, v1, v2, v3), rest) :=
    siphash_blocks (length src) (v0, v1, v2, v3) src in
  let b := Z.lor b (le_word rest) in
  let v3 := Z.lxor v3 b in
  let '(v0, v1, v2, v3) := single_round (v0, v1, v2, v3) in
  let v0 := Z.lxor v0 b in
  let v2 := Z.lxor v2 0xff in
  let '(v0, v1, v2, v3) :=
    single_round (single_round (single_round (v0, v1, v2, v3))) in
  Z.lxor (Z.lxor v0 v1) (Z.lxor v2 v3).

(** Reading an unsigned 64-bit word as [Py_hash_t]. *)
Definition Py_hash_t (x : Z) : Z := if decide (x < 2 ^ 63) then x else x - 2 ^ 64.

Definition Py_HashBytes (secret : Z * Z) (src : list Z) : Z :=
  if decide (length src = 0%nat) then 0
  else
    let x := Py_hash_t (siphash13 secret.1 secret.2 src) in
    if decide (x = -1) then -2 else x.

Definition str_bytes (s : string) : list Z :=
  (λ c, Z.of_nat (Ascii.nat_of_ascii c)) <$> String.list_ascii_of_string s.

Definition unicode_hash (secret : Z * Z) (s : string) : Z :=
  Py_HashBytes secret (str_bytes s).

(** The secret of a process started with [PYTHONHASHSEED=seed]: zeros for
    0, else the bytes of [lcg_urandom]. Without the variable the secret
    is drawn from the operating system. *)
Fixpoint lcg_urandom (x : Z) (size : nat) : list Z :=
  match size with
  | O => []
  | S size' =>
      let x := (x * 214013 + 2531011) `mod` 2 ^ 32 in
      Z.land (Z.shiftr x 16) 0xff :: lcg_urandom x size'
  end.

Definition PYTHONHASHSEED (seed : Z) : Z * Z :=
  if decide (seed = 0) then (0, 0)
  else
    let buf := lcg_urandom seed 24 in
    (le_word (take 8 buf), le_word (take 8 (drop 8 buf))).

Definition CPython_hash : PyHash :=
  {| hash_secret := Z * Z; str_hash := unicode_hash |}.

(** ** External libraries of the interactive game *)

(** Python [float] arithmetic, as far as the GUI uses it. *)
Class PyFloat := {
  float : Type;
  fdiv : Z → Z → float;          (* [a / b] on ints, [b] non-zero *)
  fmul : Z → float → float;      (* [n * f] *)
  fmin : float → float → float;
  fmax : float → float → float;
  fone : float;                  (* [1.0] *)
  fis_zero : float → bool;
  ffloordiv : Z → float → float; (* [n // f], [f] non-zero *)
  ftrunc : float → Z;            (* [int(f)] *)
}.

(** OpenCV calls. [cv2.resize(src, (nw, nh))] either raises or returns an
    array of the requested, non-empty size; [cv2.line] draws in place and
    keeps the shape. *)
Class OpenCV := {
  cv2_resize : image → Z → Z → result image;
  cv2_resize_shape : ∀ src nw nh out,
    cv2_resize src nw nh = Ok out →
    0 < nw ∧ 0 < nh ∧ has_shape (Z.to_nat nh) (Z.to_nat nw) out;
  cv2_line : image → Z * Z → Z * Z → pixel → Z → image;
  cv2_line_shape : ∀ im p q c t h w,
    has_shape h w im → has_shape h w (cv2_line im p q c t);
}.

(** Pillow/Tk rendering of one frame: [pil.resize((new_w, new_h))] of an
    image of size [(img_w, img_h)] may raise. *)
Class Toolkit := {
  pil_resize : Z → Z → Z → Z → result unit;
}.

(** ** PuzzleShuffleGUI *)

Module PuzzleShuffleGUI.

Inductive status_text : Type :=
  | SelectAnImage
  | FailedToLoad
  | Loaded
  | CouldNotCopy
  | LoadAnImageFirst
  | Difficulty (d : difficulty)
  | Shuffled
  | ResetToOriginal
  | SelectedTile (idx : nat)
  | Solved
  | SwappedTiles (a idx : nat).

(** [_displayed_img_w], [_displayed_img_h], [_displayed_offset_x],
    [_displayed_offset_y] *)
Record display : Type := {
  displayed_img_w : Z;
  displayed_img_h : Z;
  displayed_offset_x : Z;
  displayed_offset_y : Z;
}.

Record gui : Type := {
  img : option image;
  orig_img : option image;
  grid_size : Z * Z;
  difficulty_var : difficulty;        (* [self.difficulty], a StringVar *)
  fill_box : bool;                    (* a BooleanVar *)
  tile_order : option (list nat);
  selected : list nat;
  tiles : option (list image);
  displayed : display;
  status : status_text;
  save_btn : bool;                    (* button enabled *)
  panel : Z * Z;                      (* [winfo_width()], [winfo_height()] of the image panel *)
}.

Definition set_img v st := {| img := v; orig_img := orig_img st; grid_size := grid_size st;
  difficulty_var := difficulty_var st; fill_box := fill_box st; tile_order := tile_order st;
  selected := selected st; tiles := tiles st; displayed := displayed st; status := status st;
  save_btn := save_btn st; panel := panel st |}.
Definition set_orig_img v st := {| img := img st; orig_img := v; grid_size := grid_size st;
  difficulty_var := difficulty_var st; fill_box := fill_box st; tile_order := tile_order st;
  selected := selected st; tiles := tiles st; displayed := displayed st; status := status st;
  save_btn := save_btn st; panel := panel st |}.
Definition set_grid_size v st := {| img := img st; orig_img := orig_img st; grid_size := v;
  difficulty_var := difficulty_var st; fill_box := fill_box st; tile_order := tile_order st;
  selected := selected st; tiles := tiles st; displayed := displayed st; status := status st;
  save_btn := save_btn st; panel := panel st |}.
Definition set_difficulty_var v st := {| img := img st; orig_img := orig_img st; grid_size := grid_size st;
  difficulty_var := v; fill_box := fill_box st; tile_order := tile_order st;
  selected := selected st; tiles := tiles st; displayed := displayed st; status := status st;
  save_btn := save_btn st; panel := panel st |}.
Definition set_fill_box v st := {| img := img st; orig_img := orig_img st; grid_size := grid_size st;
  difficulty_var := difficulty_var st; fill_box := v; tile_order := tile_order st;
  selected := selected st; tiles := tiles st; displayed := displayed st; status := status st;
  save_btn := save_btn st; panel := panel st |}.
Definition set_tile_order v st := {| img := img st; orig_img := orig_img st; grid_size := grid_size st;
  difficulty_var := difficulty_var st; fill_box := fill_box st; tile_order := v;
  selected := selected st; tiles := tiles st; displayed := displayed st; status := status st;
  save_btn := save_btn st; panel := panel st |}.
Definition set_selected v st := {| img := img st; orig_img := orig_img st; grid_size := grid_size st;
  difficulty_var := difficulty_var st; fill_box := fill_box st; tile_order := tile_order st;
  selected := v; tiles := tiles st; displayed := displayed st; status := status st;
  save_btn := save_btn st; panel := panel st |}.
Definition set_tiles v st := {| img := img st; orig_img := orig_img st; grid_size := grid_size st;
  difficulty_var := difficulty_var st; fill_box := fill_box st; tile_order := tile_order st;
  selected := selected st; tiles := v; displayed := displayed st; status := status st;
  save_btn := save_btn st; panel := panel st |}.
Definition set_displayed v st := {| img := img st; orig_img := orig_img st; grid_size := grid_size st;
  difficulty_var := difficulty_var st; fill_box := fill_box st; tile_order := tile_order st;
  selected := selected st; tiles := tiles st; displayed := v; status := status st;
  save_btn := save_btn st; panel := panel st |}.
Definition set_status v st := {| img := img st; orig_img := orig_img st; grid_size := grid_size st;
  difficulty_var := difficulty_var st; fill_box := fill_box st; tile_order := tile_order st;
  selected := selected st; tiles := tiles st; displayed := displayed st; status := v;
  save_btn := save_btn st; panel := panel st |}.
Definition set_save_btn v st := {| img := img st; orig_img := orig_img st; grid_size := grid_size st;
  difficulty_var := difficulty_var st; fill_box := fill_box st; tile_order := tile_order st;
  selected := selected st; tiles := tiles st; displayed := displayed st; status := status st;
  save_btn := v; panel := panel st |}.
Definition set_panel v st := {| img := img st; orig_img := orig_img st; grid_size := grid_size st;
  difficulty_var := difficulty_var st; fill_box := fill_box st; tile_order := tile_order st;
  selected := selected st; tiles := tiles st; displayed := displayed st; status := status st;
  save_btn := save_btn st; panel := v |}.

(** Methods run on the object and may raise: the fields written before
    the exception stay written. *)
Definition M (A : Type) : Type := gui → gui * result A.

Global Instance M_ret : MRet M := λ A a st, (st, Ok a).
Global Instance M_bind : MBind M := λ A B f m st,
  match m st with
  | (st', Ok a) => f a st'
  | (st', Raise e) => (st', Raise e)
  end.
Definition get : M gui := λ st, (st, Ok st).
Definition modify (f : gui → gui) : M unit := λ st, (f st, Ok ()).
Definition lift {A} (r : result A) : M A := λ st, (st, r).
Definition skip : M unit := mret ().

(** [__init__]: the fields the game logic reads. *)
Definition init (panel_size : Z * Z) : gui := {|
  img := None; orig_img := None; grid_size := (3, 3);
  difficulty_var := medium; fill_box := false;
  tile_order := None; selected := []; tiles := None;
  displayed := {| displayed_img_w := 0; displayed_img_h := 0;
                  displayed_offset_x := 0; displayed_offset_y := 0 |};
  status := SelectAnImage; save_btn := false; panel := panel_size |}.

(** [l.pop()] on a non-empty list: the last item and the rest. *)
Definition pop {A} (l : list A) : option (A * list A) :=
  match reverse l with
  | [] => None
  | a :: r => Some (a, reverse r)
  end.

Section methods.
Context `{PyFloat, OpenCV, Toolkit, NpRandom}.

(** [a / b] on ints *)
Definition truediv (a b : Z) : result float :=
  if decide (b = 0) then Raise ZeroDivisionError else Ok (fdiv a b).

(** [n // f] with a float divisor *)
Definition float_floordiv (n : Z) (f : float) : result float :=
  if fis_zero f then Raise ZeroDivisionError else Ok (ffloordiv n f).

(** [cv2.cvtColor] rejects an empty array. *)
Definition cv2_cvtColor (im : image) : result unit :=
  if decide (height im = 0%nat ∨ width im = 0%nat) then Raise cv2_error else Ok ().

Definition _show_cv (img_cv : option image) (force_fit : bool) : M unit :=
  match img_cv with
  | None => skip
  | Some im =>
      st ← get;
      let pw := Z.max (panel st).1 200 in
      let ph := Z.max (panel st).2 200 in
      lift (cv2_cvtColor im);;
      let img_w := Z.of_nat (width im) in
      let img_h := Z.of_nat (height im) in
      if fill_box st && negb force_fit then
        sx ← lift (truediv pw img_w);
        sy ← lift (truediv ph img_h);
        let scale := fmax sx sy in
        let new_w := ftrunc (fmul img_w scale) in
        let new_h := ftrunc (fmul img_h scale) in
        let offset_x := (pw - new_w) `div` 2 in
        let offset_y := (ph - new_h) `div` 2 in
        lift (pil_resize img_w img_h new_w new_h);;
        modify (set_displayed {| displayed_img_w := new_w; displayed_img_h := new_h;
                                 displayed_offset_x := offset_x;
                                 displayed_offset_y := offset_y |})
      else
        sx ← lift (truediv pw img_w);
        sy ← lift (truediv ph img_h);
        let scale := fmin sx sy in
        let new_w := ftrunc (fmul img_w scale) in
        let new_h := ftrunc (fmul img_h scale) in
        let offset_x := (pw - new_w) `div` 2 in
        let offset_y := (ph - new_h) `div` 2 in
        modify (set_displayed {| displayed_img_w := new_w; displayed_img_h := new_h;
                                 displayed_offset_x := offset_x;
                                 displayed_offset_y := offset_y |});;
        lift (pil_resize img_w img_h new_w new_h)
  end.

(** [open_image]: [chosen] is [None] when the dialog is cancelled,
    [Some None] when [cv2.imread] fails; [copied] tells whether the copy
    into the input directory worked. *)
Definition open_image (chosen : option (option image)) (copied : bool) : M unit :=
  match chosen with
  | None => skip
  | Some None => modify (set_status FailedToLoad)
  | Some (Some im) =>
      modify (set_orig_img (Some im));;
      modify (set_img (Some im));;
      modify (set_tiles None);;
      modify (set_tile_order None);;
      modify (set_save_btn false);;
      _show_cv (Some im) false;;
      modify (set_status (if copied then Loaded else CouldNotCopy))
  end.

Definition set_difficulty : M unit :=
  st ← get;
  let d := difficulty_var st in
  modify (set_grid_size (DIFFICULTY_GRID d));;
  modify (set_status (Difficulty d)).

Definition _assemble : M (option image) :=
  st ← get;
  match tiles st, tile_order st with
  | Some ts, Some order =>
      puzzle ← lift (assemble_tiles ts order (grid_size st));
      mret (Some puzzle)
  | _, _ => mret None
  end.

Definition _draw_grid (im : image) : M image :=
  st ← get;
  let out := im in
  let '(gh, gw) := grid_size st in
  let H := Z.of_nat (height out) in
  let W := Z.of_nat (width out) in
  th ← lift (floordiv H gh);
  tw ← lift (floordiv W gw);
  let lc : pixel := (50, 50, 50) in
  let lt := Z.max 1 (Z.min tw th `div` 100 + 1) in
  let out := foldl (λ o k, cv2_line o (k * tw, 0) (k * tw, H) lc lt) out (seqZ 1 (gw - 1)) in
  let out := foldl (λ o k, cv2_line o (0, k * th) (W, k * th) lc lt) out (seqZ 1 (gh - 1)) in
  mret out.

Definition _assemble_and_show : M unit :=
  puzzle ← _assemble;
  match puzzle with
  | None => skip
  | Some p =>
      display ← _draw_grid p;
      _show_cv (Some display) true
  end.

(** Lines 400-431 of [shuffle]: the image the puzzle is cut from, resized
    to a grid-divisible size in either mode. *)
Definition working_image (st : gui) (orig : image) : result image :=
  let '(gh, gw) := grid_size st in
  let h := Z.of_nat (height orig) in
  let w := Z.of_nat (width orig) in
  if fill_box st then
    let pw := Z.max (panel st).1 200 in
    let ph := Z.max (panel st).2 200 in
    sx ← truediv pw w;
    sy ← truediv ph h;
    let scale_fill := fmax sx sy in
    let scaled_w := ftrunc (fmul w scale_fill) in
    let scaled_h := ftrunc (fmul h scale_fill) in
    img_scaled ← cv2_resize orig scaled_w scaled_h;
    let crop_x := Z.max 0 ((scaled_w - pw) `div` 2) in
    let crop_y := Z.max 0 ((scaled_h - ph) `div` 2) in
    let img_cropped := crop img_scaled crop_y (crop_y + ph) crop_x (crop_x + pw) in
    let ch := Z.of_nat (height img_cropped) in
    let cw := Z.of_nat (width img_cropped) in
    qw ← floordiv cw gw;
    let nw := qw * gw in
    qh ← floordiv ch gh;
    let nh := qh * gh in
    cv2_resize img_cropped nw nh
  else
    sx ← truediv 700 w;
    sy ← truediv 650 h;
    let scale := fmin (fmin sx sy) fone in
    qw ← floordiv (ftrunc (fmul w scale)) gw;
    let nw := qw * gw in
    qh ← floordiv (ftrunc (fmul h scale)) gh;
    let nh := qh * gh in
    cv2_resize orig nw nh.

Definition shuffle (g : Generator) (silent : bool) : M unit :=
  st ← get;
  match orig_img st with
  | None => if silent then skip else modify (set_status LoadAnImageFirst)
  | Some orig =>
      set_difficulty;;
      st ← get;
      im ← lift (working_image st orig);
      modify (set_img (Some im));;
      '(th, tw, ts) ← lift (tile_image im (grid_size st));
      modify (set_tiles (Some ts));;
      '(order, _) ← lift (Generator_shuffle g (seq 0 (length ts)));
      modify (set_tile_order (Some order));;
      _assemble_and_show;;
      modify (set_save_btn true);;
      if silent then skip else modify (set_status Shuffled)
  end.

Definition reset : M unit :=
  st ← get;
  match tiles st with
  | None => skip
  | Some ts =>
      modify (set_tile_order (Some (seq 0 (length ts))));;
      _assemble_and_show;;
      modify (set_status ResetToOriginal);;
      modify (set_save_btn false)
  end.

(** Lines 464-473 of [on_click]: the grid cell [(row, col)] under the
    pointer, or [None] when the click misses the displayed image. *)
Definition click_cell (st : gui) (ex ey : Z) : result (option (Z * Z)) :=
  let d := displayed st in
  let x := ex - displayed_offset_x d in
  let y := ey - displayed_offset_y d in
  if decide (x < 0 ∨ y < 0 ∨ x >= displayed_img_w d ∨ y >= displayed_img_h d)
  then Ok None
  else
    let '(gh, gw) := grid_size st in
    cell_w ← truediv (displayed_img_w d) gw;
    c ← float_floordiv x cell_w;
    let col := ftrunc c in
    cell_h ← truediv (displayed_img_h d) gh;
    r ← float_floordiv y cell_h;
    let row := ftrunc r in
    if decide ((0 ≤ col < gw) ∧ (0 ≤ row < gh))
    then Ok (Some (row, col))
    else Ok None.

Definition on_click (ex ey : Z) : M unit :=
  st ← get;
  match tiles st, tile_order st with
  | Some _, Some order =>
      cell ← lift (click_cell st ex ey);
      match cell with
      | None => skip
      | Some (row, col) =>
          let idx := Z.to_nat (row * (grid_size st).2 + col) in
          match pop (selected st) with
          | None =>
              modify (set_selected [idx]);;
              modify (set_status (SelectedTile idx))
          | Some (a, rest) =>
              modify (set_selected rest);;
              if decide (a ≠ idx) then
                order' ← lift (swap_items order a idx);
                modify (set_tile_order (Some order'));;
                _assemble_and_show;;
                if decide (order' = seq 0 (length order')) then
                  modify (set_status Solved);;
                  modify (set_save_btn true)
                else
                  modify (set_status (SwappedTiles a idx))
              else skip
          end
      end
  | _, _ => skip
  end.

(** [_resize_update], run once the window has settled at a new size. *)
Definition _resize_update : M unit :=
  st ← get;
  match tiles st, tile_order st with
  | Some _, Some _ => _assemble_and_show
  | _, _ =>
      match img st with
      | Some im => _show_cv (Some im) false
      | None => skip
      end
  end.

(** [_refresh_display], the command of the "Fill Box" check button. *)
Definition _refresh_display (g : Generator) : M unit :=
  st ← get;
  match tiles st, tile_order st with
  | Some _, Some _ => shuffle g true
  | _, _ =>
      match orig_img st with
      | Some im => _show_cv (Some im) false
      | None => skip
      end
  end.

(** [show_hint]: the solution is put on screen; three seconds later the
    timer calls [_assemble_and_show]. *)
Definition show_hint : M unit :=
  st ← get;
  match orig_img st, tiles st with
  | Some _, Some _ =>
      puzzle ← _assemble;
      match puzzle with
      | None => skip
      | Some p =>
          sol ← lift (match img st with
                      | Some im => cv2_resize im (Z.of_nat (width p)) (Z.of_nat (height p))
                      | None => Raise cv2_error
                      end);
          sol ← _draw_grid sol;
          _show_cv (Some sol) true
      end
  | _, _ => skip
  end.

(** User actions. A callback that raises is reported by Tk and the event
    loop goes on with the object as the callback left it. *)
Inductive event : Type :=
  | OpenImage (chosen : option (option image)) (copied : bool)
  | SelectDifficulty (d : difficulty)
  | ToggleFillBox (g : Generator)
  | Shuffle (g : Generator)
  | Reset
  | Click (x y : Z)
  | Configure (panel_size : Z * Z).

Definition callback (e : event) : M unit :=
  match e with
  | OpenImage chosen copied => open_image chosen copied
  | SelectDifficulty d => modify (set_difficulty_var d);; set_difficulty
  | ToggleFillBox g =>
      st ← get;
      modify (set_fill_box (negb (fill_box st)));;
      _refresh_display g
  | Shuffle g => shuffle g false
  | Reset => reset
  | Click x y => on_click x y
  | Configure p => modify (set_panel p);; _resize_update
  end.

Definition step (st : gui) (e : event) : gui := (callback e st).1.

Definition run (st : gui) (es : list event) : gui := foldl step st es.

End methods.

(** *** File names

    [files] is the set of paths for which [os.path.exists] holds. The
    [while] loops run on [fuel]; one more than the number of files is
    always enough. *)

(** [f"{n}_{i}{e}"] *)
Definition numbered (n : string) (i : nat) (e : string) : string :=
  n +:+ "_" +:+ pretty i +:+ e.

(** The loop of [_unique] in [save_output], entered with [i]. *)
Fixpoint unique_loop (files : gset string) (d n e : string) (fuel i : nat)
    : option string :=
  match fuel with
  | O => None
  | S fuel' =>
      let c := path_join d (numbered n i e) in
      if decide (c ∈ files) then unique_loop files d n e fuel' (S i) else Some c
  end.

Definition _unique (files : gset string) (d b : string) (fuel : nat) : option string :=
  let p := path_join d b in
  if decide (p ∈ files) then
    let '(n, e) := splitext b in
    unique_loop files d n e fuel 1
  else Some p.

(** Lines 313-319 of [open_image]: where the chosen file is copied to,
    [base] being its [os.path.basename]. *)
Fixpoint dest_loop (files : gset string) (input_dir name ext : string)
    (fuel : nat) (dest : string) (i : nat) : option string :=
  match fuel with
  | O => None
  | S fuel' =>
      if decide (dest ∈ files) then
        dest_loop files input_dir name ext fuel'
          (path_join input_dir (numbered name i ext)) (S i)
      else Some dest
  end.

Definition copy_destination (files : gset string) (input_dir base : string)
    (fuel : nat) : option string :=
  let '(name, ext) := splitext base in
  dest_loop files input_dir name ext fuel (path_join input_dir base) 1.

End PuzzleShuffleGUI.

(** ** Vocabulary of the proofs

    Names for the intermediate objects and for the properties that the
    lemmas below are about. *)

Import PuzzleShuffleGUI.

(** The block of cell [n], with the bounds written as the code has them. *)
Definition cell_block (gw th tw : nat) (img : image) (n : nat) : image :=
  crop img (Z.of_nat (n / gw * th)) (Z.of_nat ((n / gw + 1) * th))
           (Z.of_nat (n mod gw * tw)) (Z.of_nat ((n mod gw + 1) * tw)).

(** What cell [(y, x)] of the assembled array shows. *)
Definition tile_px (gw th tw : nat) (tiles : list image) (order : list nat) (y x : nat)
    : option pixel :=
  k ← order !! (y / th * gw + x / tw)%nat;
  t ← tiles !! k;
  px t (y mod th) (x mod tw).

(** One iteration of the assembling loop. *)
Definition place_step (th tw : nat) (tiles : list image) (order : list nat)
    (dst : image) (c : nat * (Z * Z)) : result image :=
  let '(idx, (i, j)) := c in
  k ← getitem order idx;
  t ← getitem tiles k;
  assign_block dst (i * Z.of_nat th) ((i + 1) * Z.of_nat th)
                   (j * Z.of_nat tw) ((j + 1) * Z.of_nat tw) t.

(** The object after [set_difficulty]. *)
Definition with_difficulty (st : gui) : gui :=
  set_status (Difficulty (difficulty_var st))
    (set_grid_size (DIFFICULTY_GRID (difficulty_var st)) st).

(** The object once a new puzzle has been cut and ordered, before it is
    drawn. *)
Definition with_puzzle (st1 : gui) (im : image) (ts : list image)
    (order : list nat) : gui :=
  set_tile_order (Some order) (set_tiles (Some ts) (set_img (Some im) st1)).

(** Number of cells of a grid. *)
Definition cells (grid : Z * Z) : nat := Z.to_nat (grid.1 * grid.2).

(** The only ways in which an action changes [tile_order]: not at all,
    dropped together with the tiles (a new image), replaced by a fresh
    shuffle of newly cut tiles, replaced by the identity over the tiles at
    hand, or two entries exchanged. *)
Inductive order_step (st st' : gui) : Prop :=
  | order_kept :
      tile_order st' = tile_order st → tiles st' = tiles st →
      order_step st st'
  | order_cleared :
      tile_order st' = None → tiles st' = None →
      order_step st st'
  | order_shuffled ts order :
      tiles st' = Some ts → tile_order st' = Some order →
      order ≡ₚ seq 0 (length ts) →
      length ts = cells (grid_size st') →
      grid_size st' = DIFFICULTY_GRID (difficulty_var st') →
      order_step st st'
  | order_reset ts :
      tiles st = Some ts → tiles st' = Some ts →
      tile_order st' = Some (seq 0 (length ts)) →
      order_step st st'
  | order_transposed order a b va vb :
      tiles st' = tiles st → tile_order st = Some order →
      a ≠ b → order !! a = Some va → order !! b = Some vb →
      tile_order st' = Some (<[b := va]> (<[a := vb]> order)) →
      order_step st st'.

(** What else an action may do to the fields the puzzle depends on. *)
Definition grid_step (st st' : gui) : Prop :=
  (grid_size st' = grid_size st
   ∨ grid_size st' = DIFFICULTY_GRID (difficulty_var st'))
  ∧ difficulty_var st' = difficulty_var st.

(** Whenever there is a permutation there are tiles, and it permutes
    their indices. *)
Definition puzzle_inv (st : gui) : Prop :=
  ∀ order, tile_order st = Some order →
    ∃ ts, tiles st = Some ts ∧ order ≡ₚ seq 0 (length ts).

(** The tiles at hand were cut for the grid in force. *)
Definition grid_inv (st : gui) : Prop :=
  ∀ ts, tiles st = Some ts →
    grid_size st = DIFFICULTY_GRID (difficulty_var st)
    ∧ length ts = cells (grid_size st).

(** Every action but a change of difficulty. *)
Definition keeps_difficulty `{NpRandom} (e : event) : Prop :=
  ∀ d, e ≠ SelectDifficulty d.

(** The loop body of [process_all_images]. *)
Definition batch_step `{PyHash, PyRandom} (secret : hash_secret) (level : difficulty)
    (written : list puzzle_files) (entry : string * option image)
    : result (list puzzle_files) :=
  let '(fname, decoded) := entry in
  if negb (supported_image fname) then Ok written
  else match decoded with
       | None => Ok written
       | Some img =>
           let seed := file_seed secret fname in
           '(shuffled, order) ← shuffle_image_puzzle img (DIFFICULTY_GRID level) seed;
           Ok (written ++
               [{| image_file := "shuffled_" +:+ fname;
                   image_array := shuffled;
                   solution_file :=
                     "solution_map_" +:+ splitext_root fname +:+ ".json";
                   solution_tile_order := order |}])
       end.

(** What one directory entry adds to the output of
    [process_all_images]: one loop iteration, started from nothing
    written. *)
Definition file_records `{PyHash, PyRandom} (secret : hash_secret)
    (level : difficulty) (entry : string * option image)
    : result (list puzzle_files) :=
  process_all_images secret [entry] level.

(** The entries of a directory listing the batch works on. *)
Definition processed (entry : string * option image) : bool :=
  supported_image entry.1 && bool_decide (is_Some entry.2).

(** Names and extensions of image files: an extension holds no dot, a
    stem holds a character other than the dot. *)
Definition dotless (s : string) : bool :=
  forallb (λ c, negb (bool_decide (c = Ascii.ascii_of_nat 46)))
          (String.list_ascii_of_string s).

Definition named (s : string) : bool :=
  negb (forallb (λ c, bool_decide (c = Ascii.ascii_of_nat 46))
                (String.list_ascii_of_string s)).

(** What [os.path.join] puts in front of a component. *)
Definition join_prefix (a b : string) : string :=
  if isabs b then ""
  else if bool_decide (a = "") || endswith a "/" then a
  else a +:+ "/".

(** How one user action changes the pictures and the selection: nothing
    but the display and the status; a newly loaded image, which drops the
    puzzle; a complete new puzzle cut from a working image that the
    grid divides; or a click, which arms or consumes the selection. *)
Inductive puzzle_step (st st' : gui) : Prop :=
  | puzzle_kept :
      img st' = img st → orig_img st' = orig_img st →
      tiles st' = tiles st → selected st' = selected st →
      puzzle_step st st'
  | puzzle_loaded im :
      img st' = Some im → orig_img st' = Some im →
      tiles st' = None → tile_order st' = None →
      selected st' = selected st →
      puzzle_step st st'
  | puzzle_cut (n nh nw : nat) im :
      orig_img st' = orig_img st → is_Some (orig_img st) →
      selected st' = selected st →
      grid_size st' = (Z.of_nat n, Z.of_nat n) → (0 < n)%nat →
      img st' = Some im → has_shape nh nw im →
      (0 < nh)%nat → (0 < nw)%nat →
      (nh mod n = 0)%nat → (nw mod n = 0)%nat →
      tiles st' =
        Some (cut_tiles im (Z.of_nat n) (Z.of_nat n)
                (Z.of_nat (nh / n)) (Z.of_nat (nw / n))) →
      puzzle_step st st'
  | puzzle_selected idx :
      img st' = img st → orig_img st' = orig_img st →
      tiles st' = tiles st → is_Some (tiles st) →
      selected st = [] → selected st' = [idx] →
      (idx < cells (grid_size st))%nat →
      puzzle_step st st'
  | puzzle_deselected a rest :
      img st' = img st → orig_img st' = orig_img st →
      tiles st' = tiles st →
      pop (selected st) = Some (a, rest) → selected st' = rest →
      puzzle_step st st'.

(** The working image and its tiles belong together. *)
Definition work_inv (st : gui) : Prop :=
  ∀ ts, tiles st = Some ts →
    ∃ (n nh nw : nat) im,
      grid_size st = (Z.of_nat n, Z.of_nat n) ∧ (0 < n)%nat
      ∧ img st = Some im ∧ has_shape nh nw im
      ∧ (0 < nh)%nat ∧ (0 < nw)%nat
      ∧ (nh mod n = 0)%nat ∧ (nw mod n = 0)%nat
      ∧ ts = cut_tiles im (Z.of_nat n) (Z.of_nat n)
               (Z.of_nat (nh / n)) (Z.of_nat (nw / n))
      ∧ is_Some (orig_img st).

(** Pending positions are positions of the grid of the chosen
    difficulty. *)
Definition selection_inv (st : gui) : Prop :=
  Forall (λ a, a < cells (DIFFICULTY_GRID (difficulty_var st)))%nat (selected st).

(** Every action but a successful load. *)
Definition keeps_image `{NpRandom} (e : event) : Prop :=
  ∀ im copied, e ≠ OpenImage (Some (Some im)) copied.

(** * Concrete libraries, for running the model *)

(** A linear congruential generator standing in for both generators. *)
Definition lcg_next (g : Z) : Z := (g * 1103515245 + 12345) `mod` 2147483648.

Definition lcg_below (g : Z) (n : nat) : nat * Z :=
  let g' := lcg_next g in (Z.to_nat (g' `mod` Z.of_nat n), g').

Lemma lcg_below_lt g n : (0 < n)%nat → ((lcg_below g n).1 < n)%nat.
Proof.
  intros Hn. unfold lcg_below. simpl.
  pose proof (Z.mod_pos_bound (lcg_next g) (Z.of_nat n) ltac:(lia)). lia.
Qed.

Definition lcg_PyRandom : PyRandom :=
  {| Random := Z; Random_seeded := λ seed, seed;
     randbelow := lcg_below; randbelow_lt := lcg_below_lt |}.

Lemma lcg_interval_le g m : ((lcg_below g (m + 1)).1 ≤ m)%nat.
Proof. pose proof (lcg_below_lt g (m + 1)). lia. Qed.

Definition lcg_NpRandom : NpRandom :=
  {| Generator := Z; random_interval := λ g m, lcg_below g (m + 1);
     random_interval_le := lcg_interval_le |}.

(** Floats as exact rationals. *)
Definition Q_trunc (q : Q) : Z :=
  if Qle_bool 0 q then Qfloor q else Qceiling q.

Definition Q_PyFloat : PyFloat :=
  {| float := Q;
     fdiv := λ a b, (inject_Z a / inject_Z b)%Q;
     fmul := λ n f, (inject_Z n * f)%Q;
     fmin := λ a b, if Qle_bool a b then a else b;
     fmax := λ a b, if Qle_bool a b then b else a;
     fone := 1%Q;
     fis_zero := λ f, Qeq_bool f 0;
     ffloordiv := λ n f, inject_Z (Qfloor (inject_Z n / f));
     ftrunc := Q_trunc |}.

(** Nearest-neighbour resizing and one-pixel axis-parallel lines. *)
Definition nn_resize (src : image) (nw nh : Z) : result image :=
  if decide (0 < nw ∧ 0 < nh ∧ (0 < height src)%nat ∧ (0 < width src)%nat) then
    Ok ((λ y : nat,
           (λ x : nat,
              default black
                (px src (y * height src / Z.to_nat nh) (x * width src / Z.to_nat nw)))
             <$> seq 0 (Z.to_nat nw))
          <$> seq 0 (Z.to_nat nh))
  else Raise cv2_error.

Definition thin_line (im : image) (p q : Z * Z) (c : pixel) (t : Z) : image :=
  imap (λ y row,
    imap (λ x old,
      if bool_decide (p.1 ≤ Z.of_nat x ≤ q.1 ∧ p.2 ≤ Z.of_nat y ≤ q.2) then c else old)
      row) im.

Lemma nn_resize_shape src nw nh out :
  nn_resize src nw nh = Ok out →
  0 < nw ∧ 0 < nh ∧ has_shape (Z.to_nat nh) (Z.to_nat nw) out.
Proof.
  unfold nn_resize. case_decide as Hd; [|done]. intros [= <-].
  split; [tauto|]. split; [tauto|]. split.
  - by rewrite length_fmap, length_seq.
  - apply Forall_fmap, Forall_forall. intros y _. simpl.
    by rewrite length_fmap, length_seq.
Qed.

Lemma thin_line_shape im p q c t h w :
  has_shape h w im → has_shape h w (thin_line im p q c t).
Proof.
  intros [Hlen Hall]. unfold thin_line. split; [by rewrite length_imap|].
  apply Forall_lookup_2. intros y row. rewrite list_lookup_imap.
  destruct (im !! y) as [row'|] eqn:Hrow; [|done]. intros [= <-].
  rewrite length_imap. by eapply (Forall_lookup_1 _ _ _ _ Hall).
Qed.

Definition nn_OpenCV : OpenCV :=
  {| cv2_resize := nn_resize; cv2_resize_shape := nn_resize_shape;
     cv2_line := thin_line; cv2_line_shape := thin_line_shape |}.

Definition strict_Toolkit : Toolkit :=
  {| pil_resize := λ _ _ new_w new_h,
       if decide (new_w < 1 ∨ new_h < 1) then Raise ValueError else Ok () |}.

(** A test picture whose pixels are pairwise different. *)
Definition gradient (h w : nat) : image :=
  (λ y : nat, (λ x : nat, (Z.of_nat y, Z.of_nat x, 7)) <$> seq 0 w) <$> seq 0 h.

(** ** A small session, for running the model *)

Definition demo_image : image := gradient 9 10.

Definition demo_run :=
  @PuzzleShuffleGUI.run Q_PyFloat nn_OpenCV strict_Toolkit lcg_NpRandom.

Definition demo_shuffle :=
  @PuzzleShuffleGUI.shuffle Q_PyFloat nn_OpenCV strict_Toolkit lcg_NpRandom.

Definition demo_events : list (@PuzzleShuffleGUI.event lcg_NpRandom) :=
  [ PuzzleShuffleGUI.OpenImage (Some (Some demo_image)) true;
    @PuzzleShuffleGUI.Shuffle lcg_NpRandom 42;
    PuzzleShuffleGUI.Click 100 100;
    PuzzleShuffleGUI.Click 300 200;
    PuzzleShuffleGUI.Reset ].

(** Image loaded, nothing shuffled yet. *)
Definition demo_loaded : PuzzleShuffleGUI.gui :=
  demo_run (PuzzleShuffleGUI.init (400, 300)) (take 1 demo_events).

(** Shuffled, no tile selected. *)
Definition demo_shuffled : PuzzleShuffleGUI.gui :=
  demo_run (PuzzleShuffleGUI.init (400, 300)) (take 2 demo_events).

(** Shuffled, the tile at position 4 selected. *)
Definition demo_pending : PuzzleShuffleGUI.gui :=
  demo_run (PuzzleShuffleGUI.init (400, 300)) (take 3 demo_events).


(** A tile selected on the 5x5 grid, then a shuffle on the 3x3 grid. *)
Definition demo_stale : PuzzleShuffleGUI.gui :=
  demo_run (PuzzleShuffleGUI.init (400, 300))
    [ PuzzleShuffleGUI.OpenImage (Some (Some demo_image)) true;
      PuzzleShuffleGUI.SelectDifficulty hard;
      @PuzzleShuffleGUI.Shuffle lcg_NpRandom 42;
      PuzzleShuffleGUI.Click 399 249;
      PuzzleShuffleGUI.SelectDifficulty easy;
      @PuzzleShuffleGUI.Shuffle lcg_NpRandom 7 ].


(** Nothing loaded, the buttons pressed all the same. *)
Definition demo_idle_events : list (@PuzzleShuffleGUI.event lcg_NpRandom) :=
  [ @PuzzleShuffleGUI.Shuffle lcg_NpRandom 42;
    PuzzleShuffleGUI.Click 100 100;
    PuzzleShuffleGUI.Reset;
    PuzzleShuffleGUI.OpenImage (Some None) false;
    PuzzleShuffleGUI.SelectDifficulty hard;
    @PuzzleShuffleGUI.ToggleFillBox lcg_NpRandom 1;
    PuzzleShuffleGUI.Configure (640, 480) ].

(** * Facts about the Python values *)

Lemma bind_Ok {A B} (m : result A) (f : A → result B) b :
  m ≫= f = Ok b ↔ ∃ a, m = Ok a ∧ f a = Ok b.
Proof.
  destruct m as [a|e]; simpl; split.
  - eauto.
  - by intros (? & [= <-] & ?).
  - done.
  - by intros (? & [=] & ?).
Qed.

Lemma bind_Ok_r {A} (m : result A) : m ≫= (λ a, Ok a) = m.
Proof. by destruct m. Qed.

Lemma fmap_Ok {A B} (m : result A) (f : A → B) b :
  f <$> m = Ok b ↔ ∃ a, m = Ok a ∧ b = f a.
Proof.
  destruct m as [a|e]; simpl; split.
  - intros [= <-]. eauto.
  - by intros (? & [= <-] & ->).
  - done.
  - by intros (? & [=] & ?).
Qed.

Lemma foldM_app {A B} (f : B → A → result B) b l1 l2 :
  foldM f b (l1 ++ l2) = foldM f b l1 ≫= λ b', foldM f b' l2.
Proof.
  revert b. induction l1 as [|a l1 IH]; intros b; simpl; [done|].
  destruct (f b a) as [b'|e]; simpl; [apply IH | done].
Qed.

Lemma slice_index_inrange len (i : nat) :
  (i ≤ len)%nat → slice_index len (Z.of_nat i) = i.
Proof. intros. unfold slice_index. case_decide; lia. Qed.

Lemma slice_nat {A} (l : list A) (a b : nat) :
  (a ≤ b ≤ length l)%nat →
  slice (Z.of_nat a) (Z.of_nat b) l = take (b - a) (drop a l).
Proof. intros. unfold slice. rewrite !slice_index_inrange by lia. done. Qed.

Lemma lookup_slice {A} (l : list A) (a b k : nat) :
  (a ≤ b ≤ length l)%nat →
  slice (Z.of_nat a) (Z.of_nat b) l !! k
  = if decide (k < b - a)%nat then l !! (a + k)%nat else None.
Proof.
  intros. rewrite slice_nat by done. rewrite lookup_take.
  case_decide; [by rewrite lookup_drop | done].
Qed.

Lemma length_slice {A} (l : list A) (a b : nat) :
  (a ≤ b ≤ length l)%nat → length (slice (Z.of_nat a) (Z.of_nat b) l) = (b - a)%nat.
Proof. intros. rewrite slice_nat by done. rewrite length_take, length_drop. lia. Qed.

(** * Facts about images *)

Lemma has_shapeb_spec h w img : has_shapeb h w img = true ↔ has_shape h w img.
Proof.
  unfold has_shapeb, has_shape.
  rewrite andb_true_iff, bool_decide_eq_true, forallb_forall, Forall_forall.
  split; intros [? Hr]; (split; [done|]); intros r Hin.
  - apply list_elem_of_In, Hr in Hin. by apply bool_decide_eq_true in Hin.
  - apply list_elem_of_In, Hr in Hin. by apply bool_decide_eq_true.
Qed.

Lemma has_shape_row h w img y row :
  has_shape h w img → img !! y = Some row → length row = w ∧ (y < h)%nat.
Proof.
  intros [<- Hall] Hy. split.
  - by eapply (Forall_lookup_1 _ _ _ _ Hall).
  - by eapply lookup_lt_Some.
Qed.

Lemma has_shape_width h w img : has_shape h w img → (0 < h)%nat → width img = w.
Proof.
  intros [Hlen Hall] Hh. destruct img as [|r img]; simpl in *; [lia|].
  by inversion Hall.
Qed.

Lemma px_is_Some h w img y x :
  has_shape h w img → (y < h)%nat → (x < w)%nat → is_Some (px img y x).
Proof.
  intros Hs Hy Hx. unfold px.
  destruct (lookup_lt_is_Some_2 img y) as [row Hrow]; [destruct Hs; lia|].
  rewrite Hrow. simpl. apply lookup_lt_is_Some_2.
  destruct (has_shape_row _ _ _ _ _ Hs Hrow). lia.
Qed.

(** Two arrays of one shape with the same pixels are the same array. *)
Lemma image_ext h w (a b : image) :
  has_shape h w a → has_shape h w b →
  (∀ y x, (y < h)%nat → (x < w)%nat → px a y x = px b y x) → a = b.
Proof.
  intros Ha Hb Hpx. apply list_eq. intros y.
  destruct (decide (y < h)%nat) as [Hy|Hy].
  - destruct (lookup_lt_is_Some_2 a y) as [ra Hra]; [destruct Ha; lia|].
    destruct (lookup_lt_is_Some_2 b y) as [rb Hrb]; [destruct Hb; lia|].
    rewrite Hra, Hrb. f_equal. apply list_eq. intros x.
    destruct (has_shape_row _ _ _ _ _ Ha Hra) as [Hla _].
    destruct (has_shape_row _ _ _ _ _ Hb Hrb) as [Hlb _].
    destruct (decide (x < w)%nat) as [Hx|Hx].
    + specialize (Hpx y x Hy Hx). unfold px in Hpx. by rewrite Hra, Hrb in Hpx.
    + rewrite !lookup_ge_None_2 by lia. done.
  - destruct Ha, Hb. rewrite !lookup_ge_None_2 by lia. done.
Qed.

Lemma crop_shape h w img (r0 r1 c0 c1 : nat) :
  has_shape h w img → (r0 ≤ r1 ≤ h)%nat → (c0 ≤ c1 ≤ w)%nat →
  has_shape (r1 - r0) (c1 - c0)
    (crop img (Z.of_nat r0) (Z.of_nat r1) (Z.of_nat c0) (Z.of_nat c1)).
Proof.
  intros Hs Hr Hc. pose proof Hs as [Hlen Hall]. unfold crop. split.
  - rewrite length_fmap, length_slice by lia. done.
  - apply Forall_fmap, Forall_lookup_2. intros k row Hk. simpl.
    rewrite lookup_slice in Hk by lia. case_decide; [|done].
    destruct (has_shape_row _ _ _ _ _ Hs Hk). apply length_slice. lia.
Qed.

Lemma px_crop h w img (r0 r1 c0 c1 y x : nat) :
  has_shape h w img → (r0 ≤ r1 ≤ h)%nat → (c0 ≤ c1 ≤ w)%nat →
  px (crop img (Z.of_nat r0) (Z.of_nat r1) (Z.of_nat c0) (Z.of_nat c1)) y x
  = if decide ((y < r1 - r0)%nat ∧ (x < c1 - c0)%nat)
    then px img (r0 + y) (c0 + x) else None.
Proof.
  intros Hs Hr Hc. pose proof Hs as [Hlen Hall]. unfold px, crop.
  rewrite list_lookup_fmap, lookup_slice by lia.
  destruct (decide (y < r1 - r0)%nat) as [Hy|Hy]; simpl.
  - destruct (img !! (r0 + y)%nat) as [row|] eqn:Hrow; simpl.
    + destruct (has_shape_row _ _ _ _ _ Hs Hrow).
      rewrite lookup_slice by lia. repeat case_decide; (done || lia).
    + by case_decide.
  - case_decide; [lia|done].
Qed.

Lemma zeros_shape h w : has_shape h w (zeros h w).
Proof.
  unfold zeros. split; [by rewrite length_replicate|].
  apply Forall_replicate. by rewrite length_replicate.
Qed.

Lemma zeros_like_shape h w img : has_shape h w img → has_shape h w (zeros_like img).
Proof.
  intros [Hlen Hall]. unfold zeros_like. split; [by rewrite length_fmap|].
  apply Forall_fmap. eapply Forall_impl; [done|]. intros r Hr. simpl.
  by rewrite length_fmap.
Qed.

Lemma assign_block_spec h w dst (r0 r1 c0 c1 : nat) src :
  has_shape h w dst → (r0 ≤ r1 ≤ h)%nat → (c0 ≤ c1 ≤ w)%nat →
  has_shape (r1 - r0) (c1 - c0) src →
  ∃ out,
    assign_block dst (Z.of_nat r0) (Z.of_nat r1) (Z.of_nat c0) (Z.of_nat c1) src = Ok out
    ∧ has_shape h w out
    ∧ ∀ y x, px out y x =
        if decide ((r0 ≤ y < r1)%nat ∧ (c0 ≤ x < c1)%nat)
        then px src (y - r0) (x - c0) else px dst y x.
Proof.
  intros Hs Hr Hc Hsrc. pose proof Hs as [Hlen Hall]. unfold assign_block.
  rewrite Hlen, !slice_index_inrange by lia.
  destruct (decide (h = 0)%nat) as [->|Hh].
  - (* no rows at all: the region and the source are both empty *)
    destruct dst; [|done]. simpl.
    assert (src = []) as -> by (destruct Hsrc as [Hl _]; destruct src; [done|simpl in Hl; lia]).
    assert (has_shapeb (r1 - r0) (slice_index 0 (Z.of_nat c1) - slice_index 0 (Z.of_nat c0)) [] = true) as ->.
    { apply has_shapeb_spec. split; [simpl; lia|constructor]. }
    eexists. split; [done|]. split; [done|]. intros y x.
    case_decide; [lia|done].
  - rewrite (has_shape_width h w) by (done || lia).
    rewrite !slice_index_inrange by lia.
    rewrite (proj2 (has_shapeb_spec _ _ _) Hsrc).
    eexists. split; [done|]. split.
    + split; [by rewrite length_imap|].
      apply Forall_lookup_2. intros y row. rewrite list_lookup_imap.
      destruct (dst !! y) as [row'|] eqn:Hrow; [|done]. intros [= <-].
      rewrite length_imap. by destruct (has_shape_row _ _ _ _ _ Hs Hrow).
    + intros y x. unfold px at 1. rewrite list_lookup_imap.
      destruct (dst !! y) as [row|] eqn:Hrow; simpl.
      * rewrite list_lookup_imap.
        destruct (has_shape_row _ _ _ _ _ Hs Hrow) as [Hlrow Hy].
        destruct (row !! x) as [p|] eqn:Hp; simpl.
        -- apply lookup_lt_Some in Hp as Hx.
           case_bool_decide as Hin; case_decide; try (exfalso; tauto).
           ++ destruct (px_is_Some _ _ src (y - r0) (x - c0) Hsrc) as [q Hq]; [lia..|].
              by rewrite Hq.
           ++ unfold px. by rewrite Hrow.
        -- apply lookup_ge_None_1 in Hp. case_decide; [lia|].
           unfold px. rewrite Hrow. simpl. symmetry. by apply lookup_ge_None_2.
      * apply lookup_ge_None_1 in Hrow. case_decide; [lia|].
        unfold px. by rewrite lookup_ge_None_2.
Qed.

(** * Facts about the grid *)

Lemma range_nat (n : nat) : range (Z.of_nat n) = Z.of_nat <$> seq 0 n.
Proof.
  unfold range, seqZ. rewrite Nat2Z.id. apply list_fmap_ext.
  intros _ i _. lia.
Qed.

Lemma range_nonpos n : n ≤ 0 → range n = [].
Proof. intros. unfold range, seqZ. by replace (Z.to_nat n) with 0%nat by lia. Qed.

Lemma lookup_bind_uniform {A B} (f : A → list B) (l : list A) (m k : nat) :
  (0 < m)%nat → (∀ a, length (f a) = m) →
  (l ≫= f) !! k = l !! (k / m)%nat ≫= λ a, f a !! (k mod m)%nat.
Proof.
  intros Hm Hf. revert k. induction l as [|a l IH]; intros k.
  - done.
  - simpl. destruct (decide (k < m)%nat) as [Hk|Hk].
    + rewrite lookup_app_l by (rewrite Hf; lia).
      rewrite Nat.div_small, Nat.mod_small by lia. done.
    + rewrite lookup_app_r by (rewrite Hf; lia). rewrite Hf, IH.
      assert (k `div` m = S ((k - m) `div` m))%nat as ->.
      { replace k with ((k - m) + 1 * m)%nat at 1 by lia.
        rewrite Nat.div_add by lia. lia. }
      assert (k `mod` m = (k - m) `mod` m)%nat as ->.
      { replace k with ((k - m) + 1 * m)%nat at 1 by lia.
        by rewrite Nat.Div0.mod_add. }
      done.
Qed.

Lemma length_bind_uniform {A B} (f : A → list B) (l : list A) (m : nat) :
  (∀ a, length (f a) = m) → length (l ≫= f) = (length l * m)%nat.
Proof.
  intros Hf. induction l as [|a l IH]; [done|].
  change ((a :: l) ≫= f) with (f a ++ (l ≫= f)).
  rewrite length_app, Hf, IH. simpl. lia.
Qed.

Lemma grid_row_cells (r : Z) (gw : nat) :
  (range (Z.of_nat gw) ≫= λ c, [(r, c)]) = (λ c : nat, (r, Z.of_nat c)) <$> seq 0 gw.
Proof.
  rewrite range_nat. induction (seq 0 gw) as [|c l IH]; [done|].
  rewrite !fmap_cons, <- IH. done.
Qed.

Lemma length_grid_cells (gh gw : nat) :
  length (grid_cells (Z.of_nat gh) (Z.of_nat gw)) = (gh * gw)%nat.
Proof.
  unfold grid_cells. rewrite (length_bind_uniform _ _ gw).
  - by rewrite range_nat, length_fmap, length_seq.
  - intros r. by rewrite grid_row_cells, length_fmap, length_seq.
Qed.

Lemma lookup_grid_cells (gh gw k : nat) :
  (k < gh * gw)%nat →
  grid_cells (Z.of_nat gh) (Z.of_nat gw) !! k
  = Some (Z.of_nat (k / gw), Z.of_nat (k mod gw)).
Proof.
  intros Hk. assert (0 < gw)%nat by lia. unfold grid_cells.
  rewrite (lookup_bind_uniform _ _ gw)
    by (done || intros r; by rewrite grid_row_cells, length_fmap, length_seq).
  assert (k / gw < gh)%nat by (apply Nat.Div0.div_lt_upper_bound; lia).
  assert (k mod gw < gw)%nat by (apply Nat.mod_upper_bound; lia).
  rewrite (range_nat gh), list_lookup_fmap, lookup_seq_lt by done. simpl.
  rewrite grid_row_cells, list_lookup_fmap, lookup_seq_lt by done. done.
Qed.

Lemma grid_cells_nonpos gh gw : gh ≤ 0 ∨ gw ≤ 0 → grid_cells gh gw = [].
Proof.
  intros [Hg|Hg]; unfold grid_cells.
  - by rewrite (range_nonpos gh).
  - rewrite (range_nonpos gw) by done.
    induction (range gh) as [|r l IH]; [done|].
    change ((r :: l) ≫= (λ r0, [] ≫= λ c, [(r0, c)]))
      with (([] ≫= λ c : Z, [(r, c)]) ++ (l ≫= (λ r0, [] ≫= λ c : Z, [(r0, c)]))).
    by rewrite IH.
Qed.

Lemma lookup_enumerate {A} (l : list A) k :
  enumerate l !! k = pair k <$> l !! k.
Proof. unfold enumerate. apply list_lookup_imap. Qed.

(** * The tiling and assembling loops

    The loops are analysed once, for a [gh] x [gw] grid of [th] x [tw]
    blocks that fits into an [h] x [w] array. *)

Lemma cell_region (gh gw th tw n y x : nat) :
  (n < gh * gw)%nat →
  ((n / gw * th ≤ y < (n / gw + 1) * th)%nat
   ∧ (n mod gw * tw ≤ x < (n mod gw + 1) * tw)%nat)
  ↔ ((y < gh * th)%nat ∧ (x < gw * tw)%nat ∧ (y / th * gw + x / tw = n)%nat).
Proof.
  intros Hn. assert (0 < gw)%nat as Hgw by lia.
  pose proof (Nat.div_mod n gw ltac:(lia)) as Hdm.
  pose proof (Nat.mod_upper_bound n gw ltac:(lia)) as Hmod.
  assert (n / gw < gh)%nat as Hdiv by (apply Nat.Div0.div_lt_upper_bound; lia).
  split.
  - intros [Hy Hx].
    assert (0 < th)%nat by (destruct th; lia).
    assert (0 < tw)%nat by (destruct tw; lia).
    assert (y / th = n / gw)%nat as Hyd.
    { symmetry. apply (Nat.div_unique y th (n / gw) (y - n / gw * th)); lia. }
    assert (x / tw = n mod gw)%nat as Hxd.
    { symmetry. apply (Nat.div_unique x tw (n mod gw) (x - n mod gw * tw)); lia. }
    rewrite Hyd, Hxd. split; [nia|]. split; [nia|lia].
  - intros (Hy & Hx & Hc).
    assert (0 < th)%nat by (destruct th; lia).
    assert (0 < tw)%nat by (destruct tw; lia).
    assert (x / tw < gw)%nat by (apply Nat.Div0.div_lt_upper_bound; lia).
    assert (n / gw = y / th)%nat as ->.
    { symmetry. apply (Nat.div_unique n gw (y / th) (x / tw)); lia. }
    assert (n mod gw = x / tw)%nat as ->.
    { symmetry. apply (Nat.mod_unique n gw (y / th) (x / tw)); lia. }
    pose proof (Nat.div_mod y th ltac:(lia)).
    pose proof (Nat.mod_upper_bound y th ltac:(lia)).
    pose proof (Nat.div_mod x tw ltac:(lia)).
    pose proof (Nat.mod_upper_bound x tw ltac:(lia)).
    lia.
Qed.

Lemma cell_offset (th n y : nat) :
  (n * th ≤ y < (n + 1) * th)%nat → (y - n * th = y mod th)%nat.
Proof.
  intros Hy. assert (0 < th)%nat by (destruct th; lia).
  apply (Nat.mod_unique y th n); lia.
Qed.

Lemma lookup_cut_tiles (gh gw th tw : nat) img n :
  (n < gh * gw)%nat →
  cut_tiles img (Z.of_nat gh) (Z.of_nat gw) (Z.of_nat th) (Z.of_nat tw) !! n
  = Some (cell_block gw th tw img n).
Proof.
  intros Hn. unfold cut_tiles, cell_block.
  rewrite list_lookup_fmap, lookup_grid_cells by done. simpl.
  do 2 f_equal; lia.
Qed.

Lemma length_cut_tiles (gh gw th tw : nat) img :
  length (cut_tiles img (Z.of_nat gh) (Z.of_nat gw) (Z.of_nat th) (Z.of_nat tw))
  = (gh * gw)%nat.
Proof. unfold cut_tiles. by rewrite length_fmap, length_grid_cells. Qed.

Lemma cell_of_pixel (gh gw th tw : nat) y x :
  (y < gh * th)%nat → (x < gw * tw)%nat →
  let c := (y / th * gw + x / tw)%nat in
  (c < gh * gw)%nat ∧ (c / gw = y / th)%nat ∧ (c mod gw = x / tw)%nat
  ∧ (y / th * th + y mod th = y)%nat ∧ (x / tw * tw + x mod tw = x)%nat
  ∧ (y mod th < th)%nat ∧ (x mod tw < tw)%nat.
Proof.
  intros Hy Hx c.
  assert (0 < th)%nat by (destruct th; lia).
  assert (0 < tw)%nat by (destruct tw; lia).
  assert (y / th < gh)%nat by (apply Nat.Div0.div_lt_upper_bound; lia).
  assert (x / tw < gw)%nat by (apply Nat.Div0.div_lt_upper_bound; lia).
  pose proof (Nat.div_mod y th ltac:(lia)).
  pose proof (Nat.div_mod x tw ltac:(lia)).
  pose proof (Nat.mod_upper_bound y th ltac:(lia)).
  pose proof (Nat.mod_upper_bound x tw ltac:(lia)).
  repeat split; try lia.
  - unfold c. nia.
  - symmetry. apply (Nat.div_unique c gw (y / th) (x / tw)); unfold c; lia.
  - symmetry. apply (Nat.mod_unique c gw (y / th) (x / tw)); unfold c; lia.
Qed.

Lemma pixel_of_cell (gh gw th tw : nat) n y x :
  (n < gh * gw)%nat → (y < th)%nat → (x < tw)%nat →
  let Y := (n / gw * th + y)%nat in
  let X := (n mod gw * tw + x)%nat in
  (Y < gh * th)%nat ∧ (X < gw * tw)%nat
  ∧ (Y / th * gw + X / tw = n)%nat ∧ (Y mod th = y)%nat ∧ (X mod tw = x)%nat.
Proof.
  intros Hn Hy Hx Y X.
  pose proof (Nat.div_mod n gw ltac:(lia)).
  pose proof (Nat.mod_upper_bound n gw ltac:(lia)).
  assert (n / gw < gh)%nat by (apply Nat.Div0.div_lt_upper_bound; lia).
  assert (Y / th = n / gw)%nat as HY
    by (symmetry; apply (Nat.div_unique Y th (n / gw) y); unfold Y; lia).
  assert (X / tw = n mod gw)%nat as HX
    by (symmetry; apply (Nat.div_unique X tw (n mod gw) x); unfold X; lia).
  repeat split.
  - unfold Y. nia.
  - unfold X. nia.
  - rewrite HY, HX. lia.
  - symmetry. apply (Nat.mod_unique Y th (n / gw) y); unfold Y; lia.
  - symmetry. apply (Nat.mod_unique X tw (n mod gw) x); unfold X; lia.
Qed.

Section tiling.
Context (gh gw th tw h w : nat).
Context (Hfit_h : (gh * th ≤ h)%nat) (Hfit_w : (gw * tw ≤ w)%nat).

Lemma cell_bounds n :
  (n < gh * gw)%nat →
  (n / gw * th ≤ (n / gw + 1) * th ≤ h)%nat
  ∧ (n mod gw * tw ≤ (n mod gw + 1) * tw ≤ w)%nat.
Proof.
  intros Hn.
  pose proof (Nat.mod_upper_bound n gw ltac:(lia)).
  assert (n / gw < gh)%nat by (apply Nat.Div0.div_lt_upper_bound; lia).
  nia.
Qed.

Lemma cell_block_shape img n :
  has_shape h w img → (n < gh * gw)%nat → has_shape th tw (cell_block gw th tw img n).
Proof.
  intros Hs Hn. destruct (cell_bounds n Hn).
  replace th with ((n / gw + 1) * th - n / gw * th)%nat at 1 by lia.
  replace tw with ((n mod gw + 1) * tw - n mod gw * tw)%nat at 1 by lia.
  by apply (crop_shape h w).
Qed.

Lemma px_cell_block img n y x :
  has_shape h w img → (n < gh * gw)%nat →
  px (cell_block gw th tw img n) y x
  = if decide ((y < th)%nat ∧ (x < tw)%nat)
    then px img (n / gw * th + y) (n mod gw * tw + x) else None.
Proof.
  intros Hs Hn. destruct (cell_bounds n Hn). unfold cell_block.
  rewrite (px_crop h w) by done. repeat case_decide; (done || lia).
Qed.

Lemma cut_tiles_shape img :
  has_shape h w img →
  Forall (has_shape th tw)
    (cut_tiles img (Z.of_nat gh) (Z.of_nat gw) (Z.of_nat th) (Z.of_nat tw)).
Proof.
  intros Hs. apply Forall_lookup_2. intros n t Hn.
  assert (n < gh * gw)%nat.
  { apply lookup_lt_Some in Hn. by rewrite (length_cut_tiles gh gw th tw) in Hn. }
  rewrite (lookup_cut_tiles gh gw th tw) in Hn by done. injection Hn as <-.
  by apply cell_block_shape.
Qed.

Lemma place_tiles_prefix tiles order dst n :
  has_shape h w dst →
  Forall (has_shape th tw) tiles →
  length order = (gh * gw)%nat →
  Forall (λ k, k < length tiles)%nat order →
  (n ≤ gh * gw)%nat →
  ∃ out,
    foldM (place_step th tw tiles order) dst
      (take n (enumerate (grid_cells (Z.of_nat gh) (Z.of_nat gw)))) = Ok out
    ∧ has_shape h w out
    ∧ ∀ y x, px out y x =
        if decide ((y < gh * th)%nat ∧ (x < gw * tw)%nat
                   ∧ (y / th * gw + x / tw < n)%nat)
        then tile_px gw th tw tiles order y x else px dst y x.
Proof.
  intros Hdst Htiles Hlen Horder. induction n as [|n IH]; intros Hn.
  - exists dst. split; [done|]. split; [done|]. intros y x.
    case_decide; [lia|done].
  - destruct IH as (out & Hfold & Hout & Hpx); [lia|].
    assert (n < gh * gw)%nat as Hn' by lia.
    destruct (lookup_lt_is_Some_2 order n) as [k Hk]; [lia|].
    assert (k < length tiles)%nat as Hkt
      by (eapply (Forall_lookup_1 _ _ _ _ Horder); done).
    destruct (lookup_lt_is_Some_2 tiles k Hkt) as [t Ht].
    assert (has_shape th tw t) as Hst
      by (eapply (Forall_lookup_1 _ _ _ _ Htiles); done).
    destruct (cell_bounds n Hn') as [Hbh Hbw].
    destruct (assign_block_spec h w out
                (n / gw * th) ((n / gw + 1) * th)
                (n mod gw * tw) ((n mod gw + 1) * tw) t)
      as (out' & Hassign & Hout' & Hpx'); [done|done|done| |].
    { replace ((n / gw + 1) * th - n / gw * th)%nat with th by lia.
      replace ((n mod gw + 1) * tw - n mod gw * tw)%nat with tw by lia. done. }
    exists out'. split; [|split; [done|]].
    + rewrite (take_S_r _ _ (n, (Z.of_nat (n / gw), Z.of_nat (n mod gw)))).
      2:{ by rewrite lookup_enumerate, lookup_grid_cells. }
      rewrite foldM_app, Hfold. simpl.
      unfold getitem. rewrite Hk. simpl. rewrite Ht. simpl.
      rewrite <- Hassign.
      rewrite !Nat2Z.inj_mul, !Nat2Z.inj_add. change (Z.of_nat 1) with 1.
      apply bind_Ok_r.
    + intros y x. rewrite Hpx', Hpx.
      pose proof (cell_region gh gw th tw n y x Hn') as Hreg.
      destruct (decide ((n / gw * th ≤ y < (n / gw + 1) * th)%nat
                 ∧ (n mod gw * tw ≤ x < (n mod gw + 1) * tw)%nat)) as [Hin|Hin].
      * pose proof Hin as [Hy Hx]. apply Hreg in Hin as (? & ? & Hc).
        rewrite decide_True by lia.
        unfold tile_px. rewrite Hc, Hk. simpl. rewrite Ht. simpl.
        by rewrite (cell_offset th _ y Hy), (cell_offset tw _ x Hx).
      * repeat case_decide; try done; exfalso; apply Hin, Hreg; lia.
Qed.

Lemma place_tiles_spec tiles order dst :
  has_shape h w dst →
  Forall (has_shape th tw) tiles →
  length order = (gh * gw)%nat →
  Forall (λ k, k < length tiles)%nat order →
  ∃ out,
    place_tiles dst (Z.of_nat gh) (Z.of_nat gw) (Z.of_nat th) (Z.of_nat tw)
      tiles order = Ok out
    ∧ has_shape h w out
    ∧ ∀ y x, px out y x =
        if decide ((y < gh * th)%nat ∧ (x < gw * tw)%nat)
        then tile_px gw th tw tiles order y x else px dst y x.
Proof.
  intros Hdst Htiles Hlen Horder.
  destruct (place_tiles_prefix tiles order dst (gh * gw))
    as (out & Hfold & Hout & Hpx); [done..|].
  rewrite take_ge in Hfold
    by (unfold enumerate; rewrite length_imap, length_grid_cells; lia).
  exists out. split; [done|]. split; [done|]. intros y x. rewrite Hpx.
  destruct (decide ((y < gh * th)%nat ∧ (x < gw * tw)%nat)) as [[Hy Hx]|Hn].
  - rewrite decide_True; [done|]. split; [done|]. split; [done|].
    assert (0 < th)%nat by (destruct th; lia).
    assert (0 < tw)%nat by (destruct tw; lia).
    assert (y / th < gh)%nat by (apply Nat.Div0.div_lt_upper_bound; lia).
    assert (x / tw < gw)%nat by (apply Nat.Div0.div_lt_upper_bound; lia).
    nia.
  - rewrite decide_False; [done|]. tauto.
Qed.
End tiling.

(** * The shuffle is a permutation *)

Lemma swap_items_perm {A} (x : list A) (i j : nat) :
  (i < length x)%nat → (j < length x)%nat →
  ∃ x', swap_items x i j = Ok x' ∧ x' ≡ₚ x.
Proof.
  intros Hi Hj.
  destruct (lookup_lt_is_Some_2 x i Hi) as [xi Hxi].
  destruct (lookup_lt_is_Some_2 x j Hj) as [xj Hxj].
  unfold swap_items, getitem. rewrite Hxj. simpl. rewrite Hxi. simpl.
  eexists. split; [done|]. by apply Permutation_insert_swap.
Qed.

Lemma shuffle_loop_perm {G A} (draw : G → nat → nat * G) idxs g (x : list A) :
  (∀ g i, ((draw g i).1 ≤ i)%nat) →
  Forall (λ i, i < length x)%nat idxs →
  ∃ x' g', shuffle_loop draw idxs g x = Ok (x', g') ∧ x' ≡ₚ x.
Proof.
  intros Hdraw. revert g x.
  induction idxs as [|i idxs IH]; intros g x Hidx; simpl.
  - by exists x, g.
  - apply Forall_cons in Hidx as [Hi Hidx].
    pose proof (Hdraw g i) as Hj. destruct (draw g i) as [j g']. simpl in Hj.
    destruct (swap_items_perm x i j) as (x1 & -> & Hperm); [lia..|]. simpl.
    destruct (IH g' x1) as (x' & g'' & Hloop & Hperm').
    { apply Permutation_length in Hperm. by rewrite Hperm. }
    exists x', g''. split; [done|]. by etrans.
Qed.

Lemma fisher_yates_perm {G A} (draw : G → nat → nat * G) g (x : list A) :
  (∀ g i, ((draw g i).1 ≤ i)%nat) →
  ∃ x' g', fisher_yates draw g x = Ok (x', g') ∧ x' ≡ₚ x.
Proof.
  intros Hdraw. apply shuffle_loop_perm; [done|].
  apply Forall_forall. intros i Hi.
  apply elem_of_reverse, elem_of_seq in Hi. lia.
Qed.

Lemma Random_shuffle_perm `{PyRandom} {A} g (x : list A) :
  ∃ x' g', Random_shuffle g x = Ok (x', g') ∧ x' ≡ₚ x.
Proof.
  apply fisher_yates_perm. intros g0 i.
  pose proof (randbelow_lt g0 (i + 1)). lia.
Qed.

Lemma Generator_shuffle_perm `{NpRandom} {A} g (x : list A) :
  ∃ x' g', Generator_shuffle g x = Ok (x', g') ∧ x' ≡ₚ x.
Proof. apply fisher_yates_perm, random_interval_le. Qed.

Lemma seeded_order_perm `{PyRandom} n seed :
  ∃ order, seeded_order n seed = Ok order ∧ order ≡ₚ seq 0 n.
Proof.
  unfold seeded_order.
  destruct (Random_shuffle_perm (Random_seeded seed) (seq 0 n))
    as (x' & g' & -> & Hperm).
  by exists x'.
Qed.

(** A permutation of [0..n-1] used as a list of indices. *)
Lemma perm_seq_bounds n (order : list nat) :
  order ≡ₚ seq 0 n →
  length order = n ∧ Forall (λ k, k < n)%nat order.
Proof.
  intros Hp. split.
  - by rewrite Hp, length_seq.
  - rewrite Hp. apply Forall_forall. intros k Hk. apply elem_of_seq in Hk. lia.
Qed.

Lemma lookup_index_of n (order : list nat) k :
  order ≡ₚ seq 0 n → (k < n)%nat → order !! index_of k order = Some k.
Proof.
  intros Hp Hk. unfold index_of.
  assert (k ∈ order) as Hin by (rewrite Hp; apply elem_of_seq; lia).
  destruct (list_find_elem_of (λ v, v = k) order k Hin eq_refl) as [[i v] Hf].
  rewrite Hf. simpl. apply list_find_Some in Hf as (Hi & -> & _). done.
Qed.

Lemma inverse_permutation_bounds n (order : list nat) :
  order ≡ₚ seq 0 n →
  length (inverse_permutation order) = n
  ∧ Forall (λ k, k < n)%nat (inverse_permutation order).
Proof.
  intros Hp. destruct (perm_seq_bounds n order Hp) as [Hlen _].
  unfold inverse_permutation. rewrite Hlen. split.
  - by rewrite length_fmap, length_seq.
  - apply Forall_fmap, Forall_forall. intros k Hk. apply elem_of_seq in Hk.
    simpl. rewrite <- Hlen. eapply lookup_lt_Some.
    apply (lookup_index_of n); [done|lia].
Qed.

Lemma lookup_inverse_permutation n (order : list nat) k :
  order ≡ₚ seq 0 n → (k < n)%nat →
  ∃ q, inverse_permutation order !! k = Some q ∧ order !! q = Some k.
Proof.
  intros Hp Hk. destruct (perm_seq_bounds n order Hp) as [Hlen _].
  exists (index_of k order). split.
  - unfold inverse_permutation.
    rewrite list_lookup_fmap, lookup_seq_lt by lia. done.
  - by apply (lookup_index_of n).
Qed.

(** * Cutting and assembling are inverse to each other *)

Lemma has_shape_canonical h w img :
  has_shape h w img → has_shape (height img) (width img) img.
Proof.
  intros [Hlen Hall]. split; [done|].
  destruct img as [|r img]; [constructor|].
  simpl. inversion Hall as [|?? Hr Hrest]; subst.
  constructor; [done|]. eapply Forall_impl; [done|]. simpl. congruence.
Qed.

Lemma has_shape_empty w w' img : has_shape 0 w img → has_shape 0 w' img.
Proof. intros [Hlen _]. destruct img; [|done]. split; [done|constructor]. Qed.

Section roundtrip.
Context (gh gw th tw h w : nat).
Context (Hfit_h : (gh * th ≤ h)%nat) (Hfit_w : (gw * tw ≤ w)%nat).

(** A pixel of the grid area is found in its home tile. *)
Lemma px_home_tile img y x :
  has_shape h w img → (y < gh * th)%nat → (x < gw * tw)%nat →
  px (cell_block gw th tw img (y / th * gw + x / tw)) (y mod th) (x mod tw)
  = px img y x.
Proof.
  intros Hs Hy Hx.
  destruct (cell_of_pixel gh gw th tw y x Hy Hx) as (Hc & Hcd & Hcm & HY & HX & ? & ?).
  rewrite (px_cell_block gh gw th tw h w) by done.
  rewrite decide_True by done. by rewrite Hcd, Hcm, HY, HX.
Qed.

(** Cutting an assembled array gives back the tiles that were placed. *)
Lemma cell_block_assembled tiles order dst out q k t :
  has_shape h w out →
  (∀ y x, px out y x =
     if decide ((y < gh * th)%nat ∧ (x < gw * tw)%nat)
     then tile_px gw th tw tiles order y x else px dst y x) →
  (q < gh * gw)%nat → order !! q = Some k → tiles !! k = Some t →
  has_shape th tw t →
  cell_block gw th tw out q = t.
Proof.
  intros Hout Hpx Hq Hk Ht Hst.
  apply (image_ext th tw); [by apply (cell_block_shape gh gw th tw h w)|done|].
  intros y x Hy Hx.
  rewrite (px_cell_block gh gw th tw h w) by done.
  rewrite decide_True by done.
  destruct (pixel_of_cell gh gw th tw q y x Hq Hy Hx) as (HY & HX & Hc & Hym & Hxm).
  rewrite Hpx, decide_True by done.
  unfold tile_px. rewrite Hc, Hk. simpl. rewrite Ht. simpl.
  by rewrite Hym, Hxm.
Qed.
End roundtrip.

Lemma tile_image_nat img (gh gw : nat) :
  (0 < gh)%nat → (0 < gw)%nat →
  tile_image img (Z.of_nat gh, Z.of_nat gw)
  = Ok (Z.of_nat (height img / gh), Z.of_nat (width img / gw),
        cut_tiles img (Z.of_nat gh) (Z.of_nat gw)
          (Z.of_nat (height img / gh)) (Z.of_nat (width img / gw))).
Proof.
  intros. unfold tile_image, floordiv. rewrite !decide_False by lia. simpl.
  by rewrite <- !Nat2Z.inj_div.
Qed.

Lemma truncated_nat img (gh gw : nat) :
  (0 < gh)%nat → (0 < gw)%nat →
  truncated img (Z.of_nat gh, Z.of_nat gw)
  = Ok (crop img (Z.of_nat 0) (Z.of_nat (gh * (height img / gh)))
                 (Z.of_nat 0) (Z.of_nat (gw * (width img / gw)))).
Proof.
  intros. unfold truncated, floordiv. rewrite !decide_False by lia. simpl.
  by rewrite <- !Nat2Z.inj_div, <- !Nat2Z.inj_mul.
Qed.

Lemma assemble_tiles_spec (gh gw th tw : nat) tiles order :
  (0 < gh)%nat → (0 < gw)%nat →
  Forall (has_shape th tw) tiles → length tiles = (gh * gw)%nat →
  length order = (gh * gw)%nat → Forall (λ k, k < gh * gw)%nat order →
  ∃ out,
    assemble_tiles tiles order (Z.of_nat gh, Z.of_nat gw) = Ok out
    ∧ has_shape (gh * th) (gw * tw) out
    ∧ ∀ y x, (y < gh * th)%nat → (x < gw * tw)%nat →
        px out y x = tile_px gw th tw tiles order y x.
Proof.
  intros Hgh Hgw Htiles Hlen Holen Horder.
  destruct (lookup_lt_is_Some_2 tiles 0) as [t0 Ht0]; [nia|].
  pose proof (Forall_lookup_1 _ _ _ _ Htiles Ht0) as Hs0.
  unfold assemble_tiles, getitem. rewrite Ht0. simpl.
  unfold np_zeros. rewrite decide_True by lia. simpl.
  assert (height t0 = th) as Hh0 by (by destruct Hs0).
  rewrite Hh0. rewrite <- Hlen in Horder.
  destruct (decide (th = 0)%nat) as [->|Hth].
  - assert (t0 = []) as -> by (destruct t0; [done|simpl in Hh0; lia]). simpl.
    destruct (place_tiles_spec gh gw 0 0 0 0 ltac:(lia) ltac:(lia) tiles order [])
      as (out & Hplace & Hout & _); [done| |done|done|].
    { eapply Forall_impl; [done|]. apply has_shape_empty. }
    exists out. split; [|split].
    + rewrite <- Hplace. by rewrite Z.mul_0_l.
    + rewrite Nat.mul_0_r. by eapply has_shape_empty.
    + intros y x Hy. lia.
  - rewrite (has_shape_width th tw t0) by (done || lia).
    replace (Z.to_nat (Z.of_nat th * Z.of_nat gh)) with (gh * th)%nat by lia.
    replace (Z.to_nat (Z.of_nat tw * Z.of_nat gw)) with (gw * tw)%nat by lia.
    destruct (place_tiles_spec gh gw th tw (gh * th) (gw * tw)
                ltac:(lia) ltac:(lia) tiles order (zeros (gh * th) (gw * tw)))
      as (out & Hplace & Hout & Hpx); [apply zeros_shape|done..|].
    exists out. split; [done|]. split; [done|].
    intros y x Hy Hx. rewrite Hpx. by rewrite decide_True.
Qed.

(** Round trip on any positive grid, under the identity and under the
    inverse of the recorded order. *)
Lemma assemble_cut_tiles_identity (gh gw : nat) h w img :
  has_shape h w img → (0 < gh)%nat → (0 < gw)%nat →
  ∃ th tw tiles,
    tile_image img (Z.of_nat gh, Z.of_nat gw) = Ok (th, tw, tiles)
    ∧ ∃ whole,
        truncated img (Z.of_nat gh, Z.of_nat gw) = Ok whole
        ∧ assemble_tiles tiles (seq 0 (length tiles)) (Z.of_nat gh, Z.of_nat gw)
          = Ok whole.
Proof.
  intros Hs Hgh Hgw. apply has_shape_canonical in Hs.
  set (H := height img) in *. set (W := width img) in *.
  rewrite tile_image_nat, truncated_nat by done. fold H W.
  set (th := (H / gh)%nat). set (tw := (W / gw)%nat).
  assert (gh * th ≤ H)%nat as Hfh by (apply Nat.Div0.mul_div_le).
  assert (gw * tw ≤ W)%nat as Hfw by (apply Nat.Div0.mul_div_le).
  do 3 eexists. split; [done|]. eexists. split; [done|].
  set (tiles := cut_tiles _ _ _ _ _).
  assert (length tiles = (gh * gw)%nat) as Hlen by apply length_cut_tiles.
  rewrite Hlen.
  destruct (assemble_tiles_spec gh gw th tw tiles (seq 0 (gh * gw)))
    as (out & -> & Hout & Hpx); [done|done| |done| | |].
  { by apply (cut_tiles_shape gh gw th tw H W). }
  { by rewrite length_seq. }
  { apply Forall_forall. intros k Hk. apply elem_of_seq in Hk. lia. }
  f_equal. apply (image_ext (gh * th) (gw * tw)); [done| |].
  { replace (gh * th)%nat with (gh * th - 0)%nat at 1 by lia.
    replace (gw * tw)%nat with (gw * tw - 0)%nat at 1 by lia.
    apply (crop_shape H W); (done || lia). }
  intros y x Hy Hx. rewrite Hpx by done.
  rewrite (px_crop H W) by (done || lia).
  rewrite decide_True by lia. simpl.
  destruct (cell_of_pixel gh gw th tw y x Hy Hx) as (Hc & _).
  unfold tile_px. rewrite lookup_seq_lt by done. simpl.
  unfold tiles. rewrite lookup_cut_tiles by done. simpl.
  by apply (px_home_tile gh gw th tw H W).
Qed.

Lemma shuffle_image_puzzle_spec `{PyRandom} (gh gw : nat) h w img seed :
  has_shape h w img → (0 < gh)%nat → (0 < gw)%nat →
  let th := (height img / gh)%nat in
  let tw := (width img / gw)%nat in
  let tiles := cut_tiles img (Z.of_nat gh) (Z.of_nat gw) (Z.of_nat th) (Z.of_nat tw) in
  ∃ shuffled order,
    shuffle_image_puzzle img (Z.of_nat gh, Z.of_nat gw) seed = Ok (shuffled, order)
    ∧ seeded_order (gh * gw) seed = Ok order
    ∧ order ≡ₚ seq 0 (gh * gw)
    ∧ has_shape (height img) (width img) shuffled
    ∧ ∀ y x, px shuffled y x =
        if decide ((y < gh * th)%nat ∧ (x < gw * tw)%nat)
        then tile_px gw th tw tiles order y x else px (zeros_like img) y x.
Proof.
  intros Hs Hgh Hgw th tw tiles. apply has_shape_canonical in Hs.
  unfold shuffle_image_puzzle. rewrite tile_image_nat by done. simpl.
  fold th tw tiles.
  assert (length tiles = (gh * gw)%nat) as Hlen by apply length_cut_tiles.
  rewrite Hlen.
  destruct (seeded_order_perm (gh * gw) seed) as (order & Hord & Hperm).
  rewrite Hord. simpl.
  destruct (perm_seq_bounds _ _ Hperm) as [Holen Hbound].
  destruct (place_tiles_spec gh gw th tw (height img) (width img)
              (Nat.Div0.mul_div_le _ _) (Nat.Div0.mul_div_le _ _)
              tiles order (zeros_like img))
    as (out & -> & Hout & Hpx).
  { by apply zeros_like_shape. }
  { by apply (cut_tiles_shape gh gw th tw (height img) (width img));
      [apply Nat.Div0.mul_div_le..|]. }
  { done. }
  { by rewrite Hlen. }
  simpl. by exists out, order.
Qed.

Lemma has_shape_dims h w img :
  has_shape h w img → height img = h ∧ (width img = w ∨ (h = 0%nat ∧ width img = 0%nat)).
Proof.
  intros Hs. split; [by destruct Hs|].
  destruct (decide (h = 0)%nat) as [->|].
  - right. destruct Hs as [Hl _]. by destruct img.
  - left. apply (has_shape_width h); [done|lia].
Qed.

Lemma assemble_shuffled_inverse `{PyRandom} (gh gw : nat) h w img seed :
  has_shape h w img → (0 < gh)%nat → (0 < gw)%nat →
  ∃ shuffled order,
    shuffle_image_puzzle img (Z.of_nat gh, Z.of_nat gw) seed = Ok (shuffled, order)
    ∧ ∃ th tw tiles whole,
        tile_image shuffled (Z.of_nat gh, Z.of_nat gw) = Ok (th, tw, tiles)
        ∧ truncated img (Z.of_nat gh, Z.of_nat gw) = Ok whole
        ∧ assemble_tiles tiles (inverse_permutation order)
            (Z.of_nat gh, Z.of_nat gw) = Ok whole.
Proof.
  intros Hs Hgh Hgw.
  destruct (shuffle_image_puzzle_spec gh gw h w img seed Hs Hgh Hgw)
    as (shuffled & order & Hsh & _ & Hperm & Hshape & Hpx).
  apply has_shape_canonical in Hs.
  set (H' := height img) in *. set (W := width img) in *.
  set (th := (H' / gh)%nat) in *. set (tw := (W / gw)%nat) in *.
  assert (gh * th ≤ H')%nat as Hfh by (apply Nat.Div0.mul_div_le).
  assert (gw * tw ≤ W)%nat as Hfw by (apply Nat.Div0.mul_div_le).
  exists shuffled, order. split; [done|].
  rewrite tile_image_nat, truncated_nat by done. fold H' W th tw.
  assert (height shuffled = H' ∧ width shuffled = W) as [-> ->].
  { destruct (has_shape_dims _ _ _ Hshape) as [? [?|[Hz Hw0]]]; [done|].
    split; [done|]. rewrite Hw0. unfold W, H' in *.
    destruct img; [done|simpl in Hz; lia]. }
  fold th tw. do 4 eexists. split; [done|]. split; [done|].
  set (tiles := cut_tiles img (Z.of_nat gh) (Z.of_nat gw) (Z.of_nat th) (Z.of_nat tw)) in *.
  set (stiles := cut_tiles shuffled _ _ _ _).
  destruct (inverse_permutation_bounds _ _ Hperm) as [Hilen Hibound].
  destruct (assemble_tiles_spec gh gw th tw stiles (inverse_permutation order))
    as (out & -> & Hout & Hopx); [done|done| | |done|done|].
  { by apply (cut_tiles_shape gh gw th tw H' W). }
  { apply length_cut_tiles. }
  f_equal. apply (image_ext (gh * th) (gw * tw)); [done| |].
  { replace (gh * th)%nat with (gh * th - 0)%nat at 1 by lia.
    replace (gw * tw)%nat with (gw * tw - 0)%nat at 1 by lia.
    apply (crop_shape H' W); (done || lia). }
  intros y x Hy Hx. rewrite Hopx by done.
  rewrite (px_crop H' W) by (done || lia).
  rewrite decide_True by lia. simpl.
  destruct (cell_of_pixel gh gw th tw y x Hy Hx) as (Hc & _).
  destruct (lookup_inverse_permutation _ _ _ Hperm Hc) as (q & Hq & Hoq).
  assert (q < gh * gw)%nat as Hqn.
  { apply lookup_lt_Some in Hoq. by rewrite (proj1 (perm_seq_bounds _ _ Hperm)) in Hoq. }
  unfold tile_px. rewrite Hq. simpl.
  unfold stiles. rewrite lookup_cut_tiles by done. simpl.
  rewrite (cell_block_assembled gh gw th tw H' W Hfh Hfw tiles order
             (zeros_like img) shuffled q _
             (cell_block gw th tw img (y / th * gw + x / tw))
             Hshape Hpx Hqn Hoq).
  - by apply (px_home_tile gh gw th tw H' W).
  - unfold tiles. by rewrite lookup_cut_tiles.
  - by apply (cell_block_shape gh gw th tw H' W).
Qed.

(** * The interactive game *)

(** Case analysis on the next library call that may raise. *)
Ltac case_result :=
  match goal with
  | |- context [match ?r with Ok _ => _ | Raise _ => _ end] =>
      lazymatch r with
      | context [match _ with _ => _ end] => fail
      | _ => destruct r eqn:?; cbn
      end
  end.

(** Unfolding of the object monad. *)
Ltac run_M :=
  unfold mbind, M_bind, get, lift, modify, skip, mret, M_ret in *; cbn.

Lemma set_displayed_id st : set_displayed (displayed st) st = st.
Proof. by destruct st. Qed.

Section gui_facts.
Context `{PyFloat, OpenCV, Toolkit, NpRandom}.

Lemma show_cv_frame im force_fit st :
  ∃ d, (_show_cv im force_fit st).1 = set_displayed d st.
Proof.
  destruct im as [im|]; [|exists (displayed st); by rewrite set_displayed_id].
  unfold _show_cv. run_M.
  case_result; [|exists (displayed st); by rewrite set_displayed_id].
  destruct (fill_box st && negb force_fit); cbn;
    repeat case_result;
    solve [ by eexists | exists (displayed st); by rewrite set_displayed_id ].
Qed.

Lemma draw_grid_state im st : (_draw_grid im st).1 = st.
Proof.
  unfold _draw_grid. run_M. destruct (grid_size st) as [gh gw]. cbn.
  by repeat case_result.
Qed.

Lemma assemble_eq st :
  _assemble st =
  (st, match tiles st, tile_order st with
       | Some ts, Some order => Some <$> assemble_tiles ts order (grid_size st)
       | _, _ => Ok None
       end).
Proof.
  unfold _assemble. run_M.
  destruct (tiles st) as [ts|], (tile_order st) as [order|]; cbn; try done.
  by destruct (assemble_tiles ts order (grid_size st)).
Qed.

Lemma assemble_and_show_frame st :
  ∃ d, (_assemble_and_show st).1 = set_displayed d st.
Proof.
  unfold _assemble_and_show. unfold mbind at 1, M_bind at 1.
  rewrite assemble_eq.
  destruct (match tiles st with Some _ => _ | None => _ end) as [[p|]|];
    try (exists (displayed st); by rewrite set_displayed_id).
  unfold mbind at 1, M_bind at 1.
  pose proof (draw_grid_state p st) as Hd.
  destruct (_draw_grid p st) as [st' [display|e]]; simpl in Hd; subst st'.
  - apply show_cv_frame.
  - exists (displayed st); by rewrite set_displayed_id.
Qed.

(** [on_click] on a loaded puzzle, one case per path through the method. *)
Lemma on_click_eq x y st ts order :
  tiles st = Some ts → tile_order st = Some order →
  on_click x y st =
  match click_cell st x y with
  | Raise e => (st, Raise e)
  | Ok None => (st, Ok ())
  | Ok (Some (row, col)) =>
      let idx := Z.to_nat (row * (grid_size st).2 + col) in
      match pop (selected st) with
      | None => (set_status (SelectedTile idx) (set_selected [idx] st), Ok ())
      | Some (a, rest) =>
          let st1 := set_selected rest st in
          if decide (a ≠ idx) then
            match swap_items order a idx with
            | Raise e => (st1, Raise e)
            | Ok order' =>
                match _assemble_and_show (set_tile_order (Some order') st1) with
                | (st3, Raise e) => (st3, Raise e)
                | (st3, Ok _) =>
                    if decide (order' = seq 0 (length order'))
                    then (set_save_btn true (set_status Solved st3), Ok ())
                    else (set_status (SwappedTiles a idx) st3, Ok ())
                end
            end
          else (st1, Ok ())
      end
  end.
Proof.
  intros Hts Hto. unfold on_click. run_M. rewrite Hts, Hto. cbn.
  destruct (click_cell st x y) as [[[row col]|]|e]; cbn; try done.
  destruct (pop (selected st)) as [[a rest]|]; cbn; [|done].
  destruct (decide (a ≠ Z.to_nat (row * (grid_size st).2 + col))); cbn; [|done].
  destruct (swap_items order a _) as [order'|e]; cbn; [|done].
  destruct (_assemble_and_show _) as [st3 [[]|e]]; cbn; [|done].
  by destruct (decide (order' = seq 0 (length order'))).
Qed.

Lemma on_click_unloaded x y st :
  tiles st = None ∨ tile_order st = None → on_click x y st = (st, Ok ()).
Proof.
  intros Hn. unfold on_click. run_M.
  destruct (tiles st), (tile_order st); try done. by destruct Hn.
Qed.

Lemma reset_eq st :
  reset st =
  match tiles st with
  | None => (st, Ok ())
  | Some ts =>
      match _assemble_and_show (set_tile_order (Some (seq 0 (length ts))) st) with
      | (st2, Raise e) => (st2, Raise e)
      | (st2, Ok _) => (set_save_btn false (set_status ResetToOriginal st2), Ok ())
      end
  end.
Proof.
  unfold reset. run_M. destruct (tiles st) as [ts|]; cbn; [|done].
  by destruct (_assemble_and_show _) as [st2 [[]|e]].
Qed.

(** A click that lands on a cell of the grid addresses a valid position. *)
Lemma click_cell_bounds st x y row col :
  click_cell st x y = Ok (Some (row, col)) →
  0 ≤ row < (grid_size st).1 ∧ 0 ≤ col < (grid_size st).2.
Proof.
  unfold click_cell. case_decide; [done|].
  destruct (grid_size st) as [gh gw]. cbn.
  destruct (truediv _ gw); cbn; [|done].
  destruct (float_floordiv _ _); cbn; [|done].
  destruct (truediv _ gh); cbn; [|done].
  destruct (float_floordiv _ _); cbn; [|done].
  case_decide; [|done]. intros [= <- <-]. tauto.
Qed.

Lemma click_cell_index st x y row col :
  click_cell st x y = Ok (Some (row, col)) →
  (Z.to_nat (row * (grid_size st).2 + col)
   < Z.to_nat ((grid_size st).1 * (grid_size st).2))%nat.
Proof. intros Hc. apply click_cell_bounds in Hc. nia. Qed.

Lemma shuffle_eq g silent st :
  shuffle g silent st =
  match orig_img st with
  | None => (if silent then st else set_status LoadAnImageFirst st, Ok ())
  | Some orig =>
      let st1 := with_difficulty st in
      match working_image st1 orig with
      | Raise e => (st1, Raise e)
      | Ok im =>
          let st2 := set_img (Some im) st1 in
          match tile_image im (grid_size st1) with
          | Raise e => (st2, Raise e)
          | Ok (_, _, ts) =>
              let st3 := set_tiles (Some ts) st2 in
              match Generator_shuffle g (seq 0 (length ts)) with
              | Raise e => (st3, Raise e)
              | Ok (order, _) =>
                  match _assemble_and_show (set_tile_order (Some order) st3) with
                  | (st5, Raise e) => (st5, Raise e)
                  | (st5, Ok _) =>
                      (if silent then set_save_btn true st5
                       else set_status Shuffled (set_save_btn true st5), Ok ())
                  end
              end
          end
      end
  end.
Proof.
  unfold shuffle, set_difficulty. run_M.
  destruct (orig_img st) as [orig|] eqn:Ho; cbn; [|by destruct silent].
  fold (with_difficulty st).
  destruct (working_image _ orig) as [im|e]; cbn; [|done].
  destruct (tile_image im _) as [[[th tw] ts]|e]; cbn; [|done].
  destruct (Generator_shuffle g _) as [[order g']|e]; cbn; [|done].
  destruct (_assemble_and_show _) as [st5 [[]|e]]; cbn; [|done].
  by destruct silent.
Qed.

(** Both branches of [working_image] end in a resize to multiples of the
    grid. *)
Lemma working_image_shape st orig im :
  working_image st orig = Ok im →
  ∃ nh nw : nat,
    (0 < nh)%nat ∧ (0 < nw)%nat ∧ has_shape nh nw im
    ∧ ((grid_size st).1 | Z.of_nat nh) ∧ ((grid_size st).2 | Z.of_nat nw).
Proof.
  unfold working_image. destruct (grid_size st) as [gh gw]. cbn.
  assert (∀ src qw qh, cv2_resize src (qw * gw) (qh * gh) = Ok im →
    ∃ nh nw : nat, (0 < nh)%nat ∧ (0 < nw)%nat ∧ has_shape nh nw im
      ∧ (gh | Z.of_nat nh) ∧ (gw | Z.of_nat nw)) as Hres.
  { intros src qw qh Hr. apply cv2_resize_shape in Hr as (Hw & Hh & Hs).
    exists (Z.to_nat (qh * gh)), (Z.to_nat (qw * gw)).
    split; [lia|]. split; [lia|]. split; [done|].
    rewrite !Z2Nat.id by lia. split; by apply Z.divide_factor_r. }
  intros Hw. destruct (fill_box st);
    repeat (apply bind_Ok in Hw as (? & _ & Hw)); by eapply Hres.
Qed.

Lemma difficulty_grid_nat d :
  ∃ n : nat, (0 < n)%nat ∧ DIFFICULTY_GRID d = (Z.of_nat n, Z.of_nat n).
Proof.
  destruct d; [exists 3%nat|exists 4%nat|exists 5%nat]; (split; [lia|done]).
Qed.

(** [shuffle] on a loaded image either stops in the resize, with the
    puzzle untouched, or installs a complete new puzzle. *)
Lemma shuffle_outcome g silent st orig :
  orig_img st = Some orig →
  let st1 := with_difficulty st in
  (∃ e, working_image st1 orig = Raise e ∧ shuffle g silent st = (st1, Raise e))
  ∨ (∃ im th tw ts order g' d r,
       working_image st1 orig = Ok im
       ∧ tile_image im (grid_size st1) = Ok (th, tw, ts)
       ∧ Generator_shuffle g (seq 0 (length ts)) = Ok (order, g')
       ∧ order ≡ₚ seq 0 (length ts)
       ∧ _assemble_and_show (with_puzzle st1 im ts order)
         = (set_displayed d (with_puzzle st1 im ts order), r)
       ∧ shuffle g silent st =
         match r with
         | Ok _ =>
             (if silent
              then set_save_btn true (set_displayed d (with_puzzle st1 im ts order))
              else set_status Shuffled
                     (set_save_btn true (set_displayed d (with_puzzle st1 im ts order))),
              Ok ())
         | Raise e => (set_displayed d (with_puzzle st1 im ts order), Raise e)
         end).
Proof.
  intros Ho st1. rewrite shuffle_eq, Ho. cbv beta iota zeta. fold st1.
  destruct (working_image st1 orig) as [im|e] eqn:Hw; [right|left; by exists e].
  destruct (difficulty_grid_nat (difficulty_var st)) as (n & Hn & Hgrid).
  assert (grid_size st1 = (Z.of_nat n, Z.of_nat n)) as Hg by done.
  rewrite Hg, tile_image_nat by done.
  set (ts := cut_tiles _ _ _ _ _).
  destruct (Generator_shuffle_perm g (seq 0 (length ts))) as (order & g' & Hsh & Hperm).
  rewrite Hsh.
  destruct (assemble_and_show_frame (with_puzzle st1 im ts order)) as [d Hd].
  fold (with_puzzle st1 im ts order).
  destruct (_assemble_and_show (with_puzzle st1 im ts order)) as [st5 r] eqn:Hshow.
  simpl in Hd. subst st5.
  exists im, (Z.of_nat (height im / n)), (Z.of_nat (width im / n)), ts, order, g', d, r.
  repeat split; try done. by apply tile_image_nat.
Qed.

Lemma click_cell_ext st1 st2 x y :
  displayed st1 = displayed st2 → grid_size st1 = grid_size st2 →
  click_cell st1 x y = click_cell st2 x y.
Proof. intros Hd Hg. unfold click_cell. by rewrite Hd, Hg. Qed.

Lemma pop_nil {A} : pop (@nil A) = None.
Proof. done. Qed.

Lemma swap_items_Ok {A} (l : list A) a b va vb :
  l !! a = Some va → l !! b = Some vb →
  swap_items l a b = Ok (<[b := va]> (<[a := vb]> l)).
Proof.
  intros Ha Hb. unfold swap_items, getitem. rewrite Hb. cbn. by rewrite Ha.
Qed.


(** ** How one user action changes the permutation *)

Local Arguments _show_cv : simpl never.
Local Arguments _assemble_and_show : simpl never.
Local Arguments shuffle : simpl never.

Lemma show_cv_step im force_fit st :
  let st' := (_show_cv im force_fit st).1 in
  order_step st st' ∧ grid_step st st'.
Proof.
  intros st'. destruct (show_cv_frame im force_fit st) as [d Hd].
  unfold st'. rewrite Hd. split; [by apply order_kept|]. split; [by left|done].
Qed.

Lemma assemble_and_show_step st :
  let st' := (_assemble_and_show st).1 in
  order_step st st' ∧ grid_step st st'.
Proof.
  intros st'. destruct (assemble_and_show_frame st) as [d Hd].
  unfold st'. rewrite Hd. split; [by apply order_kept|]. split; [by left|done].
Qed.

Lemma open_image_step chosen copied st :
  let st' := (open_image chosen copied st).1 in
  order_step st st' ∧ grid_step st st'.
Proof.
  intros st'. unfold st', open_image.
  destruct chosen as [[im|]|]; run_M.
  - set (st4 := set_save_btn _ _).
    destruct (show_cv_frame (Some im) false st4) as [d Hd].
    destruct (_show_cv (Some im) false st4) as [st5 [[]|e]]; simpl in Hd; subst st5;
      (split; [by apply order_cleared|]); (split; [by left|done]).
  - split; [by apply order_kept|]. split; [by left|done].
  - split; [by apply order_kept|]. split; [by left|done].
Qed.

Lemma shuffle_step g silent st :
  let st' := (shuffle g silent st).1 in
  order_step st st' ∧ grid_step st st'.
Proof.
  intros st'. unfold st'. destruct (orig_img st) as [orig|] eqn:Ho.
  - destruct (shuffle_outcome g silent st orig Ho)
      as [(e & _ & ->)|(im & th & tw & ts & order & g' & d & r & _ & Hti & _ & Hperm & _ & ->)].
    + split; [by apply order_kept|]. split; [by right|done].
    + destruct (difficulty_grid_nat (difficulty_var st)) as (n & Hn & Hgrid).
      assert (grid_size (with_difficulty st) = (Z.of_nat n, Z.of_nat n)) as Hg by done.
      rewrite Hg, tile_image_nat in Hti by done. injection Hti as _ _ <-.
      assert (length (cut_tiles im (Z.of_nat n) (Z.of_nat n)
                (Z.of_nat (height im / n)) (Z.of_nat (width im / n)))
              = cells (Z.of_nat n, Z.of_nat n)) as Hlen.
      { rewrite length_cut_tiles. unfold cells. simpl. lia. }
      destruct r as [[]|e], silent; simpl;
        (split; [eapply order_shuffled; simpl; by rewrite ?Hgrid|]);
        (split; [by right|done]).
  - rewrite shuffle_eq, Ho.
    destruct silent; simpl; (split; [by apply order_kept|]); (split; [by left|done]).
Qed.

Lemma reset_step st :
  let st' := (reset st).1 in
  order_step st st' ∧ grid_step st st'.
Proof.
  intros st'. unfold st'. rewrite reset_eq.
  destruct (tiles st) as [ts|] eqn:Hts.
  - destruct (assemble_and_show_frame (set_tile_order (Some (seq 0 (length ts))) st))
      as [d Hd].
    destruct (_assemble_and_show _) as [st2 [[]|e]]; simpl in Hd; subst st2; simpl;
      (split; [by eapply order_reset|]); (split; [by left|done]).
  - split; [by apply order_kept|]. split; [by left|done].
Qed.

Lemma on_click_step x y st :
  let st' := (on_click x y st).1 in
  order_step st st' ∧ grid_step st st'.
Proof.
  intros st'. unfold st'.
  destruct (tiles st) as [ts|] eqn:Hts; [|by rewrite on_click_unloaded by (by left);
    split; [by apply order_kept|]; split; [by left|done]].
  destruct (tile_order st) as [order|] eqn:Hto; [|by rewrite on_click_unloaded by (by right);
    split; [by apply order_kept|]; split; [by left|done]].
  rewrite (on_click_eq _ _ _ _ _ Hts Hto).
  destruct (click_cell st x y) as [[[row col]|]|e];
    try (split; [by apply order_kept|]; split; [by left|done]).
  cbv zeta. set (idx := Z.to_nat _).
  destruct (pop (selected st)) as [[a rest]|];
    [|split; [by apply order_kept|]; split; [by left|done]].
  destruct (decide (a ≠ idx)) as [Hne|];
    [|split; [by apply order_kept|]; split; [by left|done]].
  unfold swap_items, getitem.
  destruct (order !! idx) as [vi|] eqn:Hvi; cbn;
    [|split; [by apply order_kept|]; split; [by left|done]].
  destruct (order !! a) as [va|] eqn:Hva; cbn;
    [|split; [by apply order_kept|]; split; [by left|done]].
  set (order' := <[idx := va]> (<[a := vi]> order)).
  destruct (assemble_and_show_frame (set_tile_order (Some order') (set_selected rest st)))
    as [d Hd].
  destruct (_assemble_and_show _) as [st3 [[]|e]]; simpl in Hd; subst st3;
    [destruct (decide (order' = seq 0 (length order')))|]; simpl;
    (split; [by eapply (order_transposed _ _ order a idx va vi)|]);
    (split; [by left|done]).
Qed.

Lemma order_step_trans_kept st st1 st2 :
  tile_order st1 = tile_order st → tiles st1 = tiles st →
  grid_size st1 = grid_size st → difficulty_var st1 = difficulty_var st →
  order_step st1 st2 ∧ grid_step st1 st2 →
  order_step st st2 ∧ grid_step st st2.
Proof.
  intros Hto Hts Hg Hd [Ho [Hgs Hdv]]. split.
  - destruct Ho as [? ?|? ?|ts order ? ? ? ? ?|ts ? ? ?|order a b va vb ? ? ? ? ? ?].
    + apply order_kept; congruence.
    + by apply order_cleared.
    + by eapply order_shuffled.
    + eapply (order_reset _ _ ts); [congruence|done..].
    + eapply (order_transposed _ _ order a b va vb); congruence.
  - split; [|congruence]. destruct Hgs; [left|right]; congruence.
Qed.

Lemma callback_step e st :
  let st' := (callback e st).1 in
  order_step st st'
  ∧ (grid_size st' = grid_size st
     ∨ grid_size st' = DIFFICULTY_GRID (difficulty_var st'))
  ∧ ((∀ d, e ≠ SelectDifficulty d) → difficulty_var st' = difficulty_var st).
Proof.
  intros st'. unfold st'. destruct e as [chosen copied|d|g|g| |x y|p]; simpl.
  - destruct (open_image_step chosen copied st) as (? & ? & ?). done.
  - unfold set_difficulty. run_M.
    split; [by apply order_kept|]. split; [by right|]. intros Hd. by destruct (Hd d).
  - run_M. set (st1 := set_fill_box _ st).
    assert (order_step st (_refresh_display g st1).1
            ∧ grid_step st (_refresh_display g st1).1) as (? & ? & ?); [|done].
    apply (order_step_trans_kept st st1); try done.
    unfold _refresh_display. run_M.
    destruct (tiles st) as [ts|], (tile_order st) as [order|];
      try apply shuffle_step;
      (destruct (orig_img st) as [im|];
       [apply show_cv_step|split; [by apply order_kept|split; [by left|done]]]).
  - destruct (shuffle_step g false st) as (? & ? & ?). done.
  - destruct (reset_step st) as (? & ? & ?). done.
  - destruct (on_click_step x y st) as (? & ? & ?). done.
  - run_M. set (st1 := set_panel p st).
    assert (order_step st (_resize_update st1).1
            ∧ grid_step st (_resize_update st1).1) as (? & ? & ?); [|done].
    apply (order_step_trans_kept st st1); try done.
    unfold _resize_update. run_M.
    destruct (tiles st) as [ts|], (tile_order st) as [order|];
      try apply assemble_and_show_step;
      (destruct (img st) as [im|];
       [apply show_cv_step|split; [by apply order_kept|split; [by left|done]]]).
Qed.

(** ** The invariants of the event loop *)

Lemma order_step_puzzle_inv st st' :
  order_step st st' → puzzle_inv st → puzzle_inv st'.
Proof.
  intros Hstep Hinv order' Ho'.
  destruct Hstep as [Ho Ht|Ho Ht|ts order Ht Ho Hp _ _|ts Ht Ht' Ho
                    |order a b va vb Ht Ho Hne Ha Hb Ho''].
  - rewrite Ho in Ho'. rewrite Ht. by apply Hinv.
  - congruence.
  - exists ts. split; [done|]. congruence.
  - exists ts. split; [done|]. by simplify_eq.
  - destruct (Hinv order Ho) as (ts & Hts & Hp).
    exists ts. split; [congruence|]. simplify_eq. rewrite <- Hp.
    by apply Permutation_insert_swap.
Qed.

Lemma step_puzzle_inv st e : puzzle_inv st → puzzle_inv (step st e).
Proof.
  apply order_step_puzzle_inv. by destruct (callback_step e st) as (? & _).
Qed.

Lemma step_grid_inv st e :
  keeps_difficulty e → grid_inv st → grid_inv (step st e).
Proof.
  intros Hkeep Hinv ts' Hts'.
  destruct (callback_step e st) as (Hstep & Hgrid & Hdiff).
  specialize (Hdiff Hkeep). fold (step st e) in Hstep, Hgrid, Hdiff.
  assert (tiles st = Some ts' →
          grid_size (step st e) = DIFFICULTY_GRID (difficulty_var (step st e))
          ∧ length ts' = cells (grid_size (step st e))) as Hsame.
  { intros Hts. destruct (Hinv ts' Hts) as [Hg Hl].
    assert (grid_size (step st e) = grid_size st) as ->
      by (destruct Hgrid; congruence).
    split; congruence. }
  destruct Hstep as [_ Ht|_ Ht|ts order Ht _ _ Hl Hg|ts Ht Ht' _
                    |order a b va vb Ht _ _ _ _ _].
  - apply Hsame. congruence.
  - congruence.
  - simplify_eq. done.
  - apply Hsame. congruence.
  - apply Hsame. congruence.
Qed.

Lemma init_inv panel_size : puzzle_inv (init panel_size) ∧ grid_inv (init panel_size).
Proof. split; intros ? [=]. Qed.

Lemma run_puzzle_inv st es : puzzle_inv st → puzzle_inv (run st es).
Proof.
  revert st. induction es as [|e es IH]; intros st Hinv; [done|].
  apply IH. by apply step_puzzle_inv.
Qed.

Lemma run_grid_inv st es :
  Forall keeps_difficulty es → grid_inv st → grid_inv (run st es).
Proof.
  revert st. induction es as [|e es IH]; intros st Hall Hinv; [done|].
  apply Forall_cons in Hall as [He Hall]. apply IH; [done|].
  by apply step_grid_inv.
Qed.

End gui_facts.

(** * The claims about the interactive game *)

Section gui_claims.
Context `{PyFloat, OpenCV, Toolkit, NpRandom}.


(** C6. Same-position toggle: on a puzzle with no pending selection, a
    click on a cell followed by a second click on the same cell returns
    both times, leaves the permutation as it was and leaves the selection
    empty; no swap is performed. *)
Theorem same_position_toggle x y x' y' st ts order row col :
  tiles st = Some ts → tile_order st = Some order → selected st = [] →
  click_cell st x y = Ok (Some (row, col)) →
  click_cell st x' y' = Ok (Some (row, col)) →
  let idx := Z.to_nat (row * (grid_size st).2 + col) in
  ∃ st1 st2,
    on_click x y st = (st1, Ok ())
    ∧ selected st1 = [idx] ∧ tile_order st1 = Some order
    ∧ on_click x' y' st1 = (st2, Ok ())
    ∧ tile_order st2 = Some order ∧ selected st2 = []
    ∧ tiles st2 = Some ts
    ∧ st2 = set_status (SelectedTile idx) st.
Proof.
  intros Hts Hto Hsel Hc1 Hc2 idx.
  set (st1 := set_status (SelectedTile idx) (set_selected [idx] st)).
  exists st1, (set_selected [] st1).
  assert (on_click x y st = (st1, Ok ())) as Hfirst.
  { rewrite (on_click_eq _ _ _ _ _ Hts Hto), Hc1, Hsel, pop_nil. done. }
  assert (click_cell st1 x' y' = Ok (Some (row, col))) as Hc2'.
  { by rewrite (click_cell_ext st1 st). }
  split; [done|]. split; [done|]. split; [done|]. split.
  { rewrite (on_click_eq x' y' st1 ts order) by done.
    rewrite Hc2'. cbn -[Z.to_nat Z.mul Z.add]. fold idx.
    by rewrite decide_False by (intros Hn; by apply Hn). }
  split; [done|]. split; [done|]. split; [done|].
  unfold st1. destruct st. simpl in *. by subst.
Qed.


(** C10. A [shuffle] that returns on a loaded image leaves a working
    image whose height is a multiple of the rows and whose width is a
    multiple of the columns of the grid; the [rows*cols] tiles all have
    shape [(H/rows, W/cols)], and the array [_assemble] builds from them
    has the shape of the working image. *)
Theorem shuffle_grid_divisible g silent st orig st' :
  orig_img st = Some orig →
  shuffle g silent st = (st', Ok ()) →
  ∃ (gh gw Hh Ww : nat) im ts puzzle,
    grid_size st' = DIFFICULTY_GRID (difficulty_var st)
    ∧ grid_size st' = (Z.of_nat gh, Z.of_nat gw)
    ∧ img st' = Some im ∧ has_shape Hh Ww im
    ∧ (0 < Hh)%nat ∧ (0 < Ww)%nat
    ∧ (Hh mod gh = 0)%nat ∧ (Ww mod gw = 0)%nat
    ∧ tiles st' = Some ts ∧ length ts = (gh * gw)%nat
    ∧ Forall (has_shape (Hh / gh) (Ww / gw)) ts
    ∧ (_assemble st').2 = Ok (Some puzzle)
    ∧ has_shape Hh Ww puzzle.
Proof.
  intros Ho Hsh.
  destruct (shuffle_outcome g silent st orig Ho)
    as [(e & _ & Heq)|(im & th & tw & ts & order & g' & d & r & Hw & Hti & _ & Hperm & _ & Heq)];
    rewrite Heq in Hsh; [done|].
  destruct r as [[]|e]; [|done].
  destruct (difficulty_grid_nat (difficulty_var st)) as (n & Hn & Hgrid).
  apply working_image_shape in Hw as (nh & nw & Hnh & Hnw & Hshape & Hdh & Hdw).
  assert (grid_size (with_difficulty st) = (Z.of_nat n, Z.of_nat n)) as Hg by done.
  rewrite Hg in Hti, Hdh, Hdw. simpl in Hdh, Hdw.
  rewrite tile_image_nat in Hti by done. injection Hti as _ _ <-.
  destruct (has_shape_dims _ _ _ Hshape) as [Hhe [Hwe|[? _]]]; [|lia].
  rewrite Hhe, Hwe in *.
  assert (nh mod n = 0 ∧ nw mod n = 0)%nat as [Hmh Hmw].
  { destruct Hdh as [qh Hqh], Hdw as [qw Hqw]. split.
    - apply Nat.Lcm0.mod_divide. exists (Z.to_nat qh). nia.
    - apply Nat.Lcm0.mod_divide. exists (Z.to_nat qw). nia. }
  assert (n * (nh / n) = nh ∧ n * (nw / n) = nw)%nat as [Hexh Hexw].
  { split; symmetry; by apply Nat.Div0.div_exact. }
  set (ts := cut_tiles im _ _ _ _) in *.
  assert (length ts = (n * n)%nat) as Hlen by apply length_cut_tiles.
  assert (Forall (has_shape (nh / n) (nw / n)) ts) as Hts.
  { apply (cut_tiles_shape n n (nh / n) (nw / n) nh nw); (done || lia). }
  rewrite Hlen in Hperm. destruct (perm_seq_bounds _ _ Hperm) as [Holen Hobound].
  destruct (assemble_tiles_spec n n (nh / n) (nw / n) ts order)
    as (puzzle & Hasm & Hpshape & _); [done..|].
  rewrite Hexh, Hexw in Hpshape.
  exists n, n, nh, nw, im, ts, puzzle.
  assert (st' = (if silent
     then set_save_btn true (set_displayed d (with_puzzle (with_difficulty st) im ts order))
     else set_status Shuffled
            (set_save_btn true (set_displayed d (with_puzzle (with_difficulty st) im ts order)))))
    as -> by (destruct silent; congruence).
  rewrite assemble_eq.
  destruct silent; simpl; rewrite Hgrid, Hasm; repeat split;
    (done || apply Hshape || apply Hpshape).
Qed.


End gui_claims.

(** * Coordinates under the contain fit, with floats read as exact
    rationals *)

Section coordinates.
Context `{Toolkit}.
Existing Instance Q_PyFloat.

(** C9. Coordinate round trip: a 200x200 image shown with the contain
    fit in a 400x300 panel is displayed 300x300 at offset (50, 0); with
    a 4x4 grid every pointer position inside displayed cell (row 1,
    col 2), and so its centre (237, 112), maps back to cell (1, 2). *)
Theorem contain_fit_click_round_trip st im :
  panel st = (400, 300) → grid_size st = (4, 4) → has_shape 200 200 im →
  let st' := (_show_cv (Some im) true st).1 in
  displayed st' = {| displayed_img_w := 300; displayed_img_h := 300;
                     displayed_offset_x := 50; displayed_offset_y := 0 |}
  ∧ (∀ x y, 200 ≤ x < 275 → 75 ≤ y < 150 →
       click_cell st' x y = Ok (Some (1, 2)))
  ∧ click_cell st' 237 112 = Ok (Some (1, 2)).
Proof.
  intros Hpanel Hgrid Hshape st'.
  assert (height im = 200%nat ∧ width im = 200%nat) as [Hh Hw].
  { destruct (has_shape_dims _ _ _ Hshape) as [? [?|[? _]]]; [done|lia]. }
  assert (displayed st' = {| displayed_img_w := 300; displayed_img_h := 300;
                             displayed_offset_x := 50; displayed_offset_y := 0 |}
          ∧ grid_size st' = (4, 4)) as [Hd Hg].
  { unfold st', _show_cv, cv2_cvtColor. run_M.
    rewrite Hh, Hw, Hpanel, andb_false_r. cbn.
    rewrite decide_False by lia. unfold truediv.
    rewrite !decide_False by lia. cbn. split; [|done].
    by vm_compute. }
  assert (∀ x y, 200 ≤ x < 275 → 75 ≤ y < 150 →
            click_cell st' x y = Ok (Some (1, 2))) as Hcell.
  { intros x y Hx Hy. unfold click_cell. rewrite Hd, Hg. cbn -[Z.sub truediv float_floordiv].
    rewrite decide_False by lia.
    assert (truediv 300 4 = Ok (300 # 4)%Q) as -> by done.
    cbn -[Z.sub float_floordiv].
    assert (float_floordiv (x - 50) (300 # 4)%Q = Ok (inject_Z 2)) as ->.
    { unfold float_floordiv. cbn -[Z.sub Qfloor Qdiv]. do 2 f_equal.
      unfold Qdiv, Qinv, Qmult, Qfloor, inject_Z. cbn -[Z.sub Z.div Z.mul].
      symmetry. apply (Z.div_unique _ _ 2 ((x - 50) * 4 - 600)); lia. }
    cbn -[Z.sub float_floordiv].
    assert (float_floordiv (y - 0) (300 # 4)%Q = Ok (inject_Z 1)) as ->.
    { unfold float_floordiv. cbn -[Z.sub Qfloor Qdiv]. do 2 f_equal.
      unfold Qdiv, Qinv, Qmult, Qfloor, inject_Z. cbn -[Z.sub Z.div Z.mul].
      symmetry. apply (Z.div_unique _ _ 1 ((y - 0) * 4 - 300)); lia. }
    done. }
  split; [done|]. split; [done|]. apply Hcell; lia.
Qed.

End coordinates.

(** * The claims about the core functions *)

(** C1. Round trip: for every rectangular image and each of the three
    grid tiers, cutting the image into row-major tiles of size
    (floor(H/rows), floor(W/cols)) and assembling them in identity order
    gives the image truncated to whole tiles; and cutting the output of
    [shuffle_image_puzzle] into tiles and assembling those under the
    inverse of the returned order gives the same truncated image. *)
Theorem partition_reassemble_round_trip `{PyRandom} h w img level seed :
  has_shape h w img →
  ∃ whole,
    truncated img (DIFFICULTY_GRID level) = Ok whole
    ∧ (∃ th tw tiles,
         tile_image img (DIFFICULTY_GRID level) = Ok (th, tw, tiles)
         ∧ th = Z.of_nat (height img) `div` (DIFFICULTY_GRID level).1
         ∧ tw = Z.of_nat (width img) `div` (DIFFICULTY_GRID level).2
         ∧ length tiles = cells (DIFFICULTY_GRID level)
         ∧ Forall (has_shape (Z.to_nat th) (Z.to_nat tw)) tiles
         ∧ assemble_tiles tiles (seq 0 (length tiles)) (DIFFICULTY_GRID level)
           = Ok whole)
    ∧ (∃ shuffled order th tw tiles,
         shuffle_image_puzzle img (DIFFICULTY_GRID level) seed = Ok (shuffled, order)
         ∧ tile_image shuffled (DIFFICULTY_GRID level) = Ok (th, tw, tiles)
         ∧ assemble_tiles tiles (inverse_permutation order) (DIFFICULTY_GRID level)
           = Ok whole).
Proof.
  intros Hs.
  destruct (difficulty_grid_nat level) as (n & Hn & Hgrid). rewrite Hgrid.
  destruct (assemble_cut_tiles_identity n n h w img Hs Hn Hn)
    as (th & tw & tiles & Hti & whole & Htr & Hasm).
  destruct (assemble_shuffled_inverse n n h w img seed Hs Hn Hn)
    as (shuffled & order & Hsh & th' & tw' & stiles & whole' & Hti' & Htr' & Hasm').
  assert (whole' = whole) as -> by congruence.
  exists whole. split; [done|]. split.
  - exists th, tw, tiles. split; [done|].
    rewrite tile_image_nat in Hti by done. injection Hti as <- <- <-.
    simpl. rewrite !Nat2Z.inj_div. split; [done|]. split; [done|].
    rewrite <- !Nat2Z.inj_div, !Nat2Z.id. split; [|split; [|done]].
    + rewrite length_cut_tiles. unfold cells. simpl. lia.
    + apply has_shape_canonical in Hs.
      apply (cut_tiles_shape n n _ _ (height img) (width img));
        [apply Nat.Div0.mul_div_le..|done].
  - by exists shuffled, order, th', tw', stiles.
Qed.

(** C2. Seeded shuffle: for every [n] and [seed] the order generated at
    lines 93-94 exists, is the shuffle of [0..n-1] by a generator built
    from the seed alone, and is a permutation of [0..n-1]; every call of
    [shuffle_image_puzzle] on a grid of [n] cells with that seed returns
    exactly this order, whatever the image and whatever was shuffled
    before. *)
Theorem seeded_order_deterministic_bijective `{PyRandom} (n : nat) (seed : Z) :
  ∃ order,
    seeded_order n seed = Ok order
    ∧ (∃ g', Random_shuffle (Random_seeded seed) (seq 0 n) = Ok (order, g'))
    ∧ order ≡ₚ seq 0 n
    ∧ ∀ img grid_size shuffled order',
        length (grid_cells grid_size.1 grid_size.2) = n →
        shuffle_image_puzzle img grid_size seed = Ok (shuffled, order') →
        order' = order.
Proof.
  destruct (seeded_order_perm n seed) as (order & Hord & Hperm).
  exists order. split; [done|]. split; [|split; [done|]].
  - unfold seeded_order in Hord. apply fmap_Ok in Hord as ([o g'] & Hsh & ->).
    by exists g'.
  - intros img [gh gw] shuffled order' Hn Hsh. simpl in Hn.
    unfold shuffle_image_puzzle, tile_image in Hsh.
    apply bind_Ok in Hsh as ([[th tw] tiles] & Hti & Hsh).
    apply bind_Ok in Hti as (th' & _ & Hti).
    apply bind_Ok in Hti as (tw' & _ & [= <- <- <-]).
    apply bind_Ok in Hsh as (o & Ho & Hsh).
    apply bind_Ok in Hsh as (out & _ & [= ? <-]).
    unfold cut_tiles in Ho. rewrite length_fmap, Hn in Ho. congruence.
Qed.

(** What the repository's own test checks, for any generator: on a
    90x90 image and a 3x3 grid the result has the shape of the input and
    an order of nine entries. *)
Lemma test_shuffle_image_puzzle `{PyRandom} img seed :
  has_shape 90 90 img →
  ∃ shuffled order,
    shuffle_image_puzzle img (3, 3) seed = Ok (shuffled, order)
    ∧ has_shape 90 90 shuffled ∧ length order = 9%nat.
Proof.
  intros Hs.
  destruct (shuffle_image_puzzle_spec 3 3 90 90 img seed Hs ltac:(lia) ltac:(lia))
    as (shuffled & order & Hsh & _ & Hperm & Hshape & _).
  exists shuffled, order. split; [done|].
  destruct (has_shape_dims _ _ _ Hs) as [Hh [Hw|[? _]]]; [|lia].
  rewrite Hh, Hw in Hshape. split; [done|].
  by rewrite Hperm, length_seq.
Qed.

(** C8, as the code has it. The tiling performs no validation of the
    grid: a zero row or column count raises [ZeroDivisionError], a
    negative one yields no tiles at all, and every positive grid yields
    exactly [rows*cols] tiles of shape (floor(H/rows), floor(W/cols)),
    tile [k] holding the pixels of block [(k / cols, k mod cols)]; the
    tiles are empty when the image is smaller than the grid. *)
Theorem tile_image_no_validation h w img (gh gw : Z) :
  has_shape h w img →
  (gh = 0 ∨ gw = 0 → tile_image img (gh, gw) = Raise ZeroDivisionError)
  ∧ (gh ≠ 0 → gw ≠ 0 → gh < 0 ∨ gw < 0 →
     ∃ th tw, tile_image img (gh, gw) = Ok (th, tw, []))
  ∧ (0 < gh → 0 < gw →
     let th := (height img / Z.to_nat gh)%nat in
     let tw := (width img / Z.to_nat gw)%nat in
     ∃ tiles,
       tile_image img (gh, gw) = Ok (Z.of_nat th, Z.of_nat tw, tiles)
       ∧ length tiles = Z.to_nat (gh * gw)
       ∧ Forall (has_shape th tw) tiles
       ∧ ∀ k t y x, tiles !! k = Some t → (y < th)%nat → (x < tw)%nat →
           px t y x = px img (k / Z.to_nat gw * th + y) (k mod Z.to_nat gw * tw + x)).
Proof.
  intros Hs. apply has_shape_canonical in Hs. split; [|split].
  - intros Hz. unfold tile_image, floordiv.
    destruct (decide (gh = 0)) as [->|Hgh]; [done|].
    destruct Hz as [? | ->]; [done|]. cbn. done.
  - intros Hgh Hgw Hneg. unfold tile_image, floordiv.
    rewrite !decide_False by done. cbn. do 2 eexists.
    unfold cut_tiles. rewrite grid_cells_nonpos by lia. done.
  - intros Hgh Hgw th tw.
    set (ngh := Z.to_nat gh). set (ngw := Z.to_nat gw).
    replace gh with (Z.of_nat ngh) by lia. replace gw with (Z.of_nat ngw) by lia.
    assert (0 < ngh)%nat by lia. assert (0 < ngw)%nat by lia.
    rewrite tile_image_nat by done. fold th tw.
    assert (ngh * th ≤ height img)%nat as Hfh by apply Nat.Div0.mul_div_le.
    assert (ngw * tw ≤ width img)%nat as Hfw by apply Nat.Div0.mul_div_le.
    eexists. split; [done|]. split; [|split].
    + rewrite length_cut_tiles. lia.
    + by apply (cut_tiles_shape ngh ngw th tw (height img) (width img)).
    + intros k t y x Hk Hy Hx.
      assert (k < ngh * ngw)%nat as Hkn.
      { apply lookup_lt_Some in Hk. by rewrite length_cut_tiles in Hk. }
      rewrite lookup_cut_tiles in Hk by done. injection Hk as <-.
      rewrite (px_cell_block ngh ngw th tw (height img) (width img)) by done.
      by rewrite decide_True.
Qed.

(** * The claims at concrete inputs *)

Lemma gradient_shape h w : has_shape h w (gradient h w).
Proof.
  unfold gradient. split; [by rewrite length_fmap, length_seq|].
  apply Forall_fmap, Forall_forall. intros y _. simpl.
  by rewrite length_fmap, length_seq.
Qed.

Lemma partition_reassemble_round_trip_witness :
  has_shape 7 8 (gradient 7 8)
  ∧ ∃ whole,
      truncated (gradient 7 8) (DIFFICULTY_GRID easy) = Ok whole
      ∧ ∃ shuffled order th tw tiles,
          @shuffle_image_puzzle lcg_PyRandom (gradient 7 8) (DIFFICULTY_GRID easy) 42
          = Ok (shuffled, order)
          ∧ tile_image shuffled (DIFFICULTY_GRID easy) = Ok (th, tw, tiles)
          ∧ assemble_tiles tiles (inverse_permutation order) (DIFFICULTY_GRID easy)
            = Ok whole.
Proof.
  split; [apply gradient_shape|].
  destruct (@partition_reassemble_round_trip lcg_PyRandom 7 8 (gradient 7 8) easy 42
              (gradient_shape 7 8)) as (whole & Htr & _ & Hinv).
  exists whole. split; [exact Htr | exact Hinv].
Defined.

Lemma tile_image_no_validation_witness :
  has_shape 7 8 (gradient 7 8)
  ∧ ∃ tiles,
      tile_image (gradient 7 8) (3, 3) = Ok (2, 2, tiles)
      ∧ length tiles = 9%nat
      ∧ Forall (has_shape 2 2) tiles.
Proof.
  split; [apply gradient_shape|].
  destruct (tile_image_no_validation 7 8 (gradient 7 8) 3 3 (gradient_shape 7 8))
    as (_ & _ & Hpos).
  destruct (Hpos ltac:(lia) ltac:(lia)) as (tiles & Hti & Hlen & Hshape & _).
  exists tiles. split; [exact Hti|]. split; [exact Hlen | exact Hshape].
Defined.

(** C8, the claim as stated fails: a 2x2 image is tiled on a 3x3 grid
    without any error, into nine empty tiles, and on a grid with a
    negative row count into no tiles; [shuffle_image_puzzle] returns
    normally on both. *)
Lemma tile_image_accepts_degenerate_grids :
  tile_image (gradient 2 2) (3, 3) = Ok (0, 0, replicate 9 [])
  ∧ tile_image (gradient 2 2) (-1, 3) = Ok (-2, 0, [])
  ∧ is_Ok (@shuffle_image_puzzle lcg_PyRandom (gradient 2 2) (3, 3) 42)
  ∧ @shuffle_image_puzzle lcg_PyRandom (gradient 2 2) (-1, 3) 42
    = Ok (zeros 2 2, []).
Proof.
  split; [by vm_compute|]. split; [by vm_compute|]. split; [|by vm_compute].
  eexists. vm_compute. reflexivity.
Qed.

(** C3, the code at a concrete file name: [hash("a.png") & 0xFFFFFFFF]
    is 1351452187 in a process started with [PYTHONHASHSEED=0] and
    2911832773 in one started with [PYTHONHASHSEED=1], so two runs of the
    batch over the same directory do not shuffle with the same seed (and
    with the stand-in generator [lcg_PyRandom] they record different
    orders). *)
Theorem batch_seed_varies_between_runs :
  @file_seed CPython_hash (PYTHONHASHSEED 0) "a.png" = 1351452187
  ∧ @file_seed CPython_hash (PYTHONHASHSEED 1) "a.png" = 2911832773
  ∧ @file_seed CPython_hash (PYTHONHASHSEED 0) "a.png"
    ≠ @file_seed CPython_hash (PYTHONHASHSEED 1) "a.png"
  ∧ (fmap (M := list) solution_tile_order
       <$> @process_all_images CPython_hash lcg_PyRandom (PYTHONHASHSEED 0)
             [("a.png"%string, Some (gradient 6 6))] easy)
    ≠ (fmap (M := list) solution_tile_order
       <$> @process_all_images CPython_hash lcg_PyRandom (PYTHONHASHSEED 1)
             [("a.png"%string, Some (gradient 6 6))] easy).
Proof.
  split; [by vm_compute|]. split; [by vm_compute|]. split; by vm_compute.
Qed.

(** Hypotheses about the demo session are settled by evaluation. *)
Ltac by_evaluation :=
  first [ vm_compute; reflexivity | vm_compute; lia | by vm_compute ].

Section demo_session.
Existing Instance Q_PyFloat.
Existing Instance nn_OpenCV.
Existing Instance strict_Toolkit.
Existing Instance lcg_NpRandom.



Lemma same_position_toggle_witness :
  selected demo_shuffled = []
  ∧ ∃ st1 st2,
      on_click 100 100 demo_shuffled = (st1, Ok ())
      ∧ selected st1 = [4%nat]
      ∧ on_click 100 100 st1 = (st2, Ok ())
      ∧ tile_order st2 = tile_order demo_shuffled
      ∧ selected st2 = [].
Proof.
  split; [by vm_compute|].
  edestruct (same_position_toggle 100 100 100 100 demo_shuffled)
    as (st1 & st2 & H1 & Hsel1 & _ & H2 & Hto2 & Hsel2 & _);
    [by_evaluation..|].
  exists st1, st2. split; [exact H1|]. split; [exact Hsel1|]. split; [exact H2|].
  split; [|exact Hsel2]. rewrite Hto2. by vm_compute.
Defined.

Lemma contain_fit_click_round_trip_witness :
  panel demo_shuffled = (400, 300) ∧ grid_size demo_shuffled = (4, 4)
  ∧ has_shape 200 200 (gradient 200 200)
  ∧ click_cell (_show_cv (Some (gradient 200 200)) true demo_shuffled).1 237 112
    = Ok (Some (1, 2)).
Proof.
  split; [by vm_compute|]. split; [by vm_compute|].
  split; [apply gradient_shape|].
  apply (contain_fit_click_round_trip demo_shuffled (gradient 200 200));
    [by vm_compute|by vm_compute|apply gradient_shape].
Defined.

Lemma shuffle_grid_divisible_witness :
  orig_img demo_loaded = Some demo_image
  ∧ ∃ st' (gh gw Hh Ww : nat) im ts,
      demo_shuffle 42 false demo_loaded = (st', Ok ())
      ∧ grid_size st' = (Z.of_nat gh, Z.of_nat gw)
      ∧ img st' = Some im ∧ has_shape Hh Ww im
      ∧ (Hh mod gh = 0)%nat ∧ (Ww mod gw = 0)%nat
      ∧ tiles st' = Some ts ∧ length ts = (gh * gw)%nat
      ∧ Forall (has_shape (Hh / gh) (Ww / gw)) ts.
Proof.
  split; [by vm_compute|].
  edestruct (@shuffle_grid_divisible Q_PyFloat nn_OpenCV strict_Toolkit lcg_NpRandom
               42 false demo_loaded demo_image)
    as (gh & gw & Hh & Ww & im & ts & puzzle & _ & Hg & Him & Hs & _ & _
        & Hmh & Hmw & Hts & Hlen & Hshape & _);
    [by_evaluation..|].
  eexists _, gh, gw, Hh, Ww, im, ts. split; [by vm_compute|].
  repeat split; try done; apply Hs.
Defined.



End demo_session.

(** * Further properties of the core functions *)

Lemma px_zeros_like h w img y x :
  has_shape h w img → (y < h)%nat → (x < w)%nat →
  px (zeros_like img) y x = Some black.
Proof.
  intros Hs Hy Hx. unfold px, zeros_like. rewrite list_lookup_fmap.
  destruct (lookup_lt_is_Some_2 img y) as [row Hrow]; [destruct Hs; lia|].
  rewrite Hrow. simpl. rewrite list_lookup_fmap.
  destruct (has_shape_row _ _ _ _ _ Hs Hrow) as [Hl _].
  destruct (lookup_lt_is_Some_2 row x) as [p Hp]; [lia|]. by rewrite Hp.
Qed.

(** X1. What [shuffle_image_puzzle] writes, pixel by pixel: the result
    has the shape of the input; inside the grid area the pixel at
    [(y, x)] is the pixel at the same offset inside block [order[cell]]
    of the input, where [cell] is the cell [(y, x)] lies in; the strip of
    remainder pixels right of and below the grid area is black. *)
Theorem shuffle_image_puzzle_pixels `{PyRandom} (gh gw h w : nat) img seed :
  has_shape h w img → (0 < gh)%nat → (0 < gw)%nat →
  let th := (h / gh)%nat in
  let tw := (w / gw)%nat in
  ∃ shuffled order,
    shuffle_image_puzzle img (Z.of_nat gh, Z.of_nat gw) seed = Ok (shuffled, order)
    ∧ has_shape h w shuffled
    ∧ ∀ y x, (y < h)%nat → (x < w)%nat →
        px shuffled y x =
        if decide ((y < gh * th)%nat ∧ (x < gw * tw)%nat)
        then k ← order !! (y / th * gw + x / tw)%nat;
             px img (k / gw * th + y mod th) (k mod gw * tw + x mod tw)
        else Some black.
Proof.
  intros Hs Hgh Hgw th tw.
  destruct (shuffle_image_puzzle_spec gh gw h w img seed Hs Hgh Hgw)
    as (shuffled & order & Hsh & _ & Hperm & Hshape & Hpx).
  exists shuffled, order. split; [done|].
  destruct (decide (h = 0)%nat) as [->|Hh].
  { split; [|intros; lia]. destruct Hs as [Hl _]. destruct img; [|done].
    simpl in Hshape. by eapply has_shape_empty. }
  destruct (has_shape_dims _ _ _ Hs) as [Hhe [Hwe|[? _]]]; [|lia].
  rewrite Hhe, Hwe in Hshape, Hpx. fold th tw in Hpx.
  split; [done|]. intros y x Hy Hx. rewrite Hpx.
  assert (gh * th ≤ h)%nat as Hfh by apply Nat.Div0.mul_div_le.
  assert (gw * tw ≤ w)%nat as Hfw by apply Nat.Div0.mul_div_le.
  destruct (decide ((y < gh * th)%nat ∧ (x < gw * tw)%nat)) as [[Hyg Hxg]|_];
    [|by apply (px_zeros_like h w)].
  destruct (perm_seq_bounds _ _ Hperm) as [Holen Hobound].
  destruct (cell_of_pixel gh gw th tw y x Hyg Hxg) as (Hc & _ & _ & _ & _ & Hym & Hxm).
  unfold tile_px.
  destruct (lookup_lt_is_Some_2 order (y / th * gw + x / tw)) as [k Hk]; [lia|].
  rewrite Hk. simpl.
  assert (k < gh * gw)%nat as Hkn by (by eapply (Forall_lookup_1 _ _ _ _ Hobound)).
  rewrite lookup_cut_tiles by done. simpl.
  rewrite (px_cell_block gh gw th tw h w) by done.
  by rewrite decide_True.
Qed.

(** X2. The shuffled image is made of the tiles of the input: cutting the
    output on the same grid gives, at position [p], the input tile
    [order[p]]; so the output tiles are a permutation of the input
    tiles. *)
Theorem shuffle_image_puzzle_tiles `{PyRandom} (gh gw h w : nat) img seed :
  has_shape h w img → (0 < gh)%nat → (0 < gw)%nat →
  ∃ shuffled order th tw tiles stiles,
    shuffle_image_puzzle img (Z.of_nat gh, Z.of_nat gw) seed = Ok (shuffled, order)
    ∧ tile_image img (Z.of_nat gh, Z.of_nat gw) = Ok (th, tw, tiles)
    ∧ tile_image shuffled (Z.of_nat gh, Z.of_nat gw) = Ok (th, tw, stiles)
    ∧ (∀ p k, order !! p = Some k → stiles !! p = tiles !! k)
    ∧ stiles ≡ₚ tiles.
Proof.
  intros Hs Hgh Hgw.
  destruct (shuffle_image_puzzle_spec gh gw h w img seed Hs Hgh Hgw)
    as (shuffled & order & Hsh & _ & Hperm & Hshape & Hpx).
  apply has_shape_canonical in Hs.
  set (H' := height img) in *. set (W := width img) in *.
  set (th := (H' / gh)%nat) in *. set (tw := (W / gw)%nat) in *.
  assert (gh * th ≤ H')%nat as Hfh by (apply Nat.Div0.mul_div_le).
  assert (gw * tw ≤ W)%nat as Hfw by (apply Nat.Div0.mul_div_le).
  assert (height shuffled = H' ∧ width shuffled = W) as [Hh Hw].
  { destruct (has_shape_dims _ _ _ Hshape) as [? [?|[Hz Hw0]]]; [done|].
    split; [done|]. rewrite Hw0. unfold W, H' in *.
    destruct img; [done|simpl in Hz; lia]. }
  set (tiles := cut_tiles img (Z.of_nat gh) (Z.of_nat gw) (Z.of_nat th) (Z.of_nat tw)) in *.
  set (stiles := cut_tiles shuffled (Z.of_nat gh) (Z.of_nat gw) (Z.of_nat th) (Z.of_nat tw)).
  exists shuffled, order, (Z.of_nat th), (Z.of_nat tw), tiles, stiles.
  split; [done|]. split; [by rewrite tile_image_nat|].
  split; [by rewrite tile_image_nat, Hh, Hw|].
  destruct (perm_seq_bounds _ _ Hperm) as [Holen Hobound].
  assert (∀ p k, order !! p = Some k → stiles !! p = tiles !! k) as Hlookup.
  { intros p k Hk.
    assert (p < gh * gw)%nat as Hp by (apply lookup_lt_Some in Hk; lia).
    assert (k < gh * gw)%nat as Hkn by (by eapply (Forall_lookup_1 _ _ _ _ Hobound)).
    unfold stiles, tiles. rewrite !lookup_cut_tiles by done. f_equal.
    apply (cell_block_assembled gh gw th tw H' W Hfh Hfw tiles order
             (zeros_like img) shuffled p k); try done.
    - unfold tiles. by rewrite lookup_cut_tiles.
    - by apply (cell_block_shape gh gw th tw H' W). }
  split; [done|].
  assert (length tiles = (gh * gw)%nat) as Htl by apply length_cut_tiles.
  assert (length stiles = (gh * gw)%nat) as Hsl by apply length_cut_tiles.
  assert (stiles = (λ k, default [] (tiles !! k)) <$> order) as ->.
  { apply list_eq. intros p. rewrite list_lookup_fmap.
    destruct (order !! p) as [k|] eqn:Hk; simpl.
    - rewrite (Hlookup p k Hk).
      assert (k < gh * gw)%nat as Hkn by (by eapply (Forall_lookup_1 _ _ _ _ Hobound)).
      destruct (lookup_lt_is_Some_2 tiles k) as [t Ht]; [lia|]. by rewrite Ht.
    - apply lookup_ge_None_2. apply lookup_ge_None_1 in Hk. lia. }
  rewrite Hperm.
  assert (tiles = (λ k, default [] (tiles !! k)) <$> seq 0 (gh * gw)) as Heq; [|by rewrite <- Heq].
  apply list_eq. intros k. rewrite list_lookup_fmap.
  destruct (decide (k < gh * gw)%nat) as [Hk|Hk].
  - rewrite lookup_seq_lt by done. simpl.
    destruct (lookup_lt_is_Some_2 tiles k) as [t Ht]; [lia|]. by rewrite Ht.
  - rewrite lookup_seq_ge by lia. apply lookup_ge_None_2. lia.
Qed.

(** X3. Errors and degenerate grids of [shuffle_image_puzzle]: a zero
    row or column count raises [ZeroDivisionError]; otherwise a negative
    count gives an all-black copy of the input and an empty order,
    without any error; and on a positive grid the call always returns,
    with an order of [rows*cols] entries. *)
Theorem shuffle_image_puzzle_outcomes `{PyRandom} h w img (gh gw seed : Z) :
  has_shape h w img →
  (gh = 0 ∨ gw = 0 →
   shuffle_image_puzzle img (gh, gw) seed = Raise ZeroDivisionError)
  ∧ (gh ≠ 0 → gw ≠ 0 → gh < 0 ∨ gw < 0 →
     shuffle_image_puzzle img (gh, gw) seed = Ok (zeros_like img, []))
  ∧ (0 < gh → 0 < gw →
     ∃ shuffled order,
       shuffle_image_puzzle img (gh, gw) seed = Ok (shuffled, order)
       ∧ length order = Z.to_nat (gh * gw)).
Proof.
  intros Hs. split; [|split].
  - intros Hz. unfold shuffle_image_puzzle, tile_image, floordiv.
    destruct (decide (gh = 0)) as [->|Hgh]; [done|].
    destruct Hz as [? | ->]; [done|]. by cbn.
  - intros Hgh Hgw Hneg. unfold shuffle_image_puzzle, tile_image, floordiv.
    rewrite !decide_False by done. cbn.
    unfold cut_tiles, place_tiles. rewrite grid_cells_nonpos by lia. by cbn.
  - intros Hgh Hgw.
    destruct (shuffle_image_puzzle_spec (Z.to_nat gh) (Z.to_nat gw) h w img seed Hs)
      as (shuffled & order & Hsh & _ & Hperm & _); [lia..|].
    rewrite !Z2Nat.id in Hsh by lia.
    exists shuffled, order. split; [done|].
    rewrite Hperm, length_seq. lia.
Qed.

(** * Further properties of the batch mode *)

Section batch_facts.
Context `{PyHash, PyRandom}.

Lemma process_all_images_fold secret listing level :
  process_all_images secret listing level
  = foldM (batch_step secret level) [] listing.
Proof. unfold process_all_images. f_equal. Qed.

Lemma batch_step_acc secret level written entry :
  batch_step secret level written entry
  = (written ++.) <$> batch_step secret level [] entry.
Proof.
  destruct entry as [fname decoded]. unfold batch_step.
  destruct (negb (supported_image fname)); simpl; [by rewrite app_nil_r|].
  destruct decoded as [img|]; simpl; [|by rewrite app_nil_r].
  by destruct (shuffle_image_puzzle img _ _) as [[shuffled order]|e].
Qed.

Lemma batch_fold_acc secret level written listing :
  foldM (batch_step secret level) written listing
  = (written ++.) <$> foldM (batch_step secret level) [] listing.
Proof.
  revert written. induction listing as [|entry listing IH]; intros written.
  - simpl. by rewrite app_nil_r.
  - simpl. rewrite (batch_step_acc _ _ written).
    destruct (batch_step secret level [] entry) as [r|e]; simpl; [|done].
    rewrite (IH (written ++ r)), (IH r).
    destruct (foldM _ [] listing) as [rs|e]; simpl; [|done].
    by rewrite app_assoc.
Qed.

Lemma process_all_images_cons secret entry listing level :
  process_all_images secret (entry :: listing) level
  = r1 ← file_records secret level entry;
    r2 ← process_all_images secret listing level;
    Ok (r1 ++ r2).
Proof.
  unfold file_records. rewrite !process_all_images_fold. simpl.
  destruct (batch_step secret level [] entry) as [r1|e]; simpl; [|done].
  rewrite batch_fold_acc.
  by destruct (foldM (batch_step secret level) [] listing).
Qed.

(** X4. The batch works file by file: the records written for a listing
    [l1 ++ l2] are those written for [l1] followed by those written for
    [l2], each file being shuffled as if it were alone (an error in [l1]
    stops the batch before [l2]). *)
Theorem process_all_images_app secret l1 l2 level :
  process_all_images secret (l1 ++ l2) level
  = r1 ← process_all_images secret l1 level;
    r2 ← process_all_images secret l2 level;
    Ok (r1 ++ r2).
Proof.
  rewrite !process_all_images_fold, foldM_app.
  destruct (foldM (batch_step secret level) [] l1) as [r1|e]; simpl; [|done].
  rewrite batch_fold_acc.
  by destruct (foldM (batch_step secret level) [] l2).
Qed.

Lemma file_records_skipped secret level entry :
  processed entry = false → file_records secret level entry = Ok [].
Proof.
  destruct entry as [fname decoded]. unfold processed, file_records. simpl.
  intros Hp. unfold process_all_images. simpl.
  destruct (supported_image fname); simpl in *; [|done].
  by destruct decoded.
Qed.

Lemma file_records_processed secret level fname img h w :
  supported_image fname = true → has_shape h w img →
  ∃ shuffled order,
    shuffle_image_puzzle img (DIFFICULTY_GRID level) (file_seed secret fname)
    = Ok (shuffled, order)
    ∧ order ≡ₚ seq 0 (cells (DIFFICULTY_GRID level))
    ∧ has_shape h w shuffled
    ∧ file_records secret level (fname, Some img)
      = Ok [{| image_file := "shuffled_" +:+ fname;
               image_array := shuffled;
               solution_file := "solution_map_" +:+ splitext_root fname +:+ ".json";
               solution_tile_order := order |}].
Proof.
  intros Hsup Hs.
  destruct (difficulty_grid_nat level) as (n & Hn & Hgrid).
  destruct (shuffle_image_puzzle_spec n n h w img (file_seed secret fname) Hs Hn Hn)
    as (shuffled & order & Hsh & _ & Hperm & Hshape & _).
  exists shuffled, order. rewrite Hgrid. split; [done|]. split; [|split].
  - unfold cells. simpl. by replace (Z.to_nat (Z.of_nat n * Z.of_nat n)) with (n * n)%nat by lia.
  - destruct (decide (h = 0)%nat) as [->|Hh].
    + destruct Hs as [Hl _]. destruct img; [|done]. simpl in Hshape.
      by eapply has_shape_empty.
    + destruct (has_shape_dims _ _ _ Hs) as [Hhe [Hwe|[? _]]]; [|lia].
      by rewrite Hhe, Hwe in Hshape.
  - unfold file_records, process_all_images. simpl. rewrite Hsup. simpl.
    rewrite Hgrid, Hsh. done.
Qed.

(** X5. On a directory whose decodable images are rectangular arrays the
    batch never raises. It writes one puzzle image and one solution
    record per entry that has a supported extension and decodes, in
    directory order and under the names [shuffled_<name>]; every recorded
    [tile_order] is a permutation of [0 .. rows*cols - 1] and every
    puzzle image has the shape of its input. *)
Theorem process_all_images_records secret listing level :
  Forall (λ entry, ∀ img, entry.2 = Some img → ∃ h w, has_shape h w img) listing →
  ∃ records,
    process_all_images secret listing level = Ok records
    ∧ image_file <$> records
      = (λ entry, "shuffled_" +:+ entry.1) <$> filter (λ e, processed e = true) listing
    ∧ Forall (λ r, solution_tile_order r ≡ₚ seq 0 (cells (DIFFICULTY_GRID level)))
        records
    ∧ Forall2 (λ r entry, ∃ img h w, entry.2 = Some img ∧ has_shape h w img
                  ∧ has_shape h w (image_array r))
        records (filter (λ e, processed e = true) listing).
Proof.
  induction listing as [|entry listing IH]; intros Hall.
  - exists []. split; [done|]. split; [done|]. split; constructor.
  - apply Forall_cons in Hall as [Hentry Hall].
    destruct (IH Hall) as (records & Hrec & Hnames & Hperms & Hshapes).
    rewrite process_all_images_cons, Hrec.
    destruct (processed entry) eqn:Hproc.
    + destruct entry as [fname [img|]]; unfold processed in Hproc; simpl in Hproc;
        [|by rewrite andb_false_r in Hproc].
      apply andb_true_iff in Hproc as [Hsup _].
      destruct (Hentry img eq_refl) as (h & w & Hs).
      destruct (file_records_processed secret level fname img h w Hsup Hs)
        as (shuffled & order & _ & Hperm & Hshape & ->).
      simpl. eexists. split; [done|].
      rewrite filter_cons_True by (unfold processed; simpl; by rewrite Hsup).
      split; [by rewrite !fmap_cons, Hnames|]. split.
      * by constructor.
      * constructor; [|done]. by exists img, h, w.
    + rewrite file_records_skipped by done. simpl.
      exists records. split; [done|].
      rewrite filter_cons_False by (by rewrite Hproc).
      done.
Qed.

(** X6. The seed handed to the shuffle always fits in 32 bits and is
    never negative, whatever (possibly negative) value [hash] returns. *)
Theorem file_seed_range secret fname :
  0 ≤ file_seed secret fname < 2 ^ 32.
Proof.
  unfold file_seed. change 0xFFFFFFFF with (Z.ones 32).
  rewrite Z.land_ones by lia. apply Z.mod_pos_bound. lia.
Qed.

End batch_facts.

(** * Further properties of the interactive game *)

Section gui_more.
Context `{PyFloat, OpenCV, Toolkit, NpRandom}.

Local Arguments _show_cv : simpl never.
Local Arguments _assemble_and_show : simpl never.
Local Arguments shuffle : simpl never.

Lemma pop_length {A} (l : list A) a rest :
  pop l = Some (a, rest) → length l = S (length rest).
Proof.
  unfold pop. destruct (reverse l) as [|b r] eqn:Hr; [done|]. intros [= <- <-].
  rewrite <- (reverse_involutive l), Hr, !length_reverse. done.
Qed.

Lemma pop_None {A} (l : list A) : pop l = None → l = [].
Proof.
  unfold pop. destruct (reverse l) as [|b r] eqn:Hr; [|done]. intros _.
  by rewrite <- (reverse_involutive l), Hr.
Qed.

Lemma pop_elem_of {A} (l : list A) a rest x :
  pop l = Some (a, rest) → x ∈ rest → x ∈ l.
Proof.
  unfold pop. destruct (reverse l) as [|b r] eqn:Hr; [done|]. intros [= <- <-] Hx.
  rewrite <- (reverse_involutive l), Hr. apply elem_of_reverse.
  rewrite elem_of_reverse in Hx. apply elem_of_cons; by right.
Qed.

Lemma shuffle_puzzle_step g silent st :
  puzzle_step st (shuffle g silent st).1
  ∧ orig_img (shuffle g silent st).1 = orig_img st.
Proof.
  destruct (orig_img st) as [orig|] eqn:Ho.
  - destruct (shuffle_outcome g silent st orig Ho)
      as [(e & _ & ->)|(im & th & tw & ts & order & g' & d & r & Hw & Hti & _ & _ & _ & ->)].
    + split; [by apply puzzle_kept|done].
    + destruct (difficulty_grid_nat (difficulty_var st)) as (n & Hn & Hgrid).
      assert (grid_size (with_difficulty st) = (Z.of_nat n, Z.of_nat n)) as Hg by done.
      apply working_image_shape in Hw as (nh & nw & Hnh & Hnw & Hshape & Hdh & Hdw).
      rewrite Hg in Hti, Hdh, Hdw. simpl in Hdh, Hdw.
      rewrite tile_image_nat in Hti by done. injection Hti as _ _ <-.
      destruct (has_shape_dims _ _ _ Hshape) as [Hhe [Hwe|[? _]]]; [|lia].
      rewrite Hhe, Hwe.
      assert (nh mod n = 0 ∧ nw mod n = 0)%nat as [Hmh Hmw].
      { destruct Hdh as [qh Hqh], Hdw as [qw Hqw]. split.
        - apply Nat.Lcm0.mod_divide. exists (Z.to_nat qh). nia.
        - apply Nat.Lcm0.mod_divide. exists (Z.to_nat qw). nia. }
      destruct r as [[]|e], silent; simpl;
        (split; [|done]);
        (eapply (puzzle_cut _ _ n nh nw im); simpl; rewrite ?Ho; try done; by eexists).
  - rewrite shuffle_eq, Ho. destruct silent; (split; [by apply puzzle_kept|done]).
Qed.

Lemma on_click_puzzle_step x y st :
  puzzle_step st (on_click x y st).1
  ∧ orig_img (on_click x y st).1 = orig_img st.
Proof.
  destruct (tiles st) as [ts|] eqn:Hts;
    [|rewrite on_click_unloaded by (by left); split; [by apply puzzle_kept|done]].
  destruct (tile_order st) as [order|] eqn:Hto;
    [|rewrite on_click_unloaded by (by right); split; [by apply puzzle_kept|done]].
  rewrite (on_click_eq _ _ _ _ _ Hts Hto).
  destruct (click_cell st x y) as [[[row col]|]|e] eqn:Hcell;
    try (split; [by apply puzzle_kept|done]).
  cbv zeta. pose proof (click_cell_index _ _ _ _ _ Hcell) as Hidx.
  set (idx := Z.to_nat _) in *.
  destruct (pop (selected st)) as [[a rest]|] eqn:Hpop.
  - destruct (decide (a ≠ idx)) as [Hne|];
      [|split; [by eapply (puzzle_deselected _ _ a rest)|done]].
    destruct (swap_items order a idx) as [order'|e];
      [|split; [by eapply (puzzle_deselected _ _ a rest)|done]].
    destruct (assemble_and_show_frame (set_tile_order (Some order') (set_selected rest st)))
      as [d Hd].
    destruct (_assemble_and_show _) as [st3 [[]|e]]; simpl in Hd; subst st3;
      [destruct (decide (order' = seq 0 (length order')))|];
      (split; [by eapply (puzzle_deselected _ _ a rest)|done]).
  - apply pop_None in Hpop. split; [|done].
    eapply (puzzle_selected _ _ idx); simpl; rewrite ?Hts; done.
Qed.

Lemma puzzle_step_trans_kept st st1 st2 :
  img st1 = img st → orig_img st1 = orig_img st → tiles st1 = tiles st →
  selected st1 = selected st → grid_size st1 = grid_size st →
  puzzle_step st1 st2 → puzzle_step st st2.
Proof.
  intros Hi Ho Ht Hs Hg Hstep.
  destruct Hstep as [? ? ? ?|im ? ? ? ? ?|n nh nw im ? ? ? ? ? ? ? ? ? ? ? ?
                    |idx ? ? ? ? ? ? ?|a rest ? ? ? ? ?].
  - apply puzzle_kept; congruence.
  - eapply (puzzle_loaded _ _ im); congruence.
  - eapply (puzzle_cut _ _ n nh nw im); congruence.
  - eapply (puzzle_selected _ _ idx); congruence.
  - eapply (puzzle_deselected _ _ a rest); congruence.
Qed.

(** One action, seen from the pictures and the selection. *)
Lemma callback_puzzle_step e st :
  puzzle_step st (step st e)
  ∧ (keeps_image e → orig_img (step st e) = orig_img st).
Proof.
  unfold step. destruct e as [chosen copied|d|g|g| |x y|p]; simpl.
  - unfold open_image. destruct chosen as [[im|]|]; run_M.
    + set (st4 := set_save_btn _ _).
      destruct (show_cv_frame (Some im) false st4) as [d Hd].
      split; [|intros Hk; by destruct (Hk im copied)].
      destruct (_show_cv (Some im) false st4) as [st5 [[]|e]]; simpl in Hd; subst st5;
        by eapply (puzzle_loaded _ _ im).
    + split; [by apply puzzle_kept|done].
    + split; [by apply puzzle_kept|done].
  - unfold set_difficulty. run_M. split; [by apply puzzle_kept|done].
  - run_M. set (st1 := set_fill_box _ st).
    enough (∀ s, puzzle_step s (_refresh_display g s).1
                 ∧ orig_img (_refresh_display g s).1 = orig_img s) as Hs.
    { destruct (Hs st1) as [Hstep Ho].
      split; [|done]. by apply (puzzle_step_trans_kept st st1). }
    clear st st1. intros s. unfold _refresh_display. run_M.
    destruct (tiles s) as [ts|], (tile_order s) as [order|];
      try apply shuffle_puzzle_step;
      (destruct (orig_img s) as [im|] eqn:Hoi; [|split; [by apply puzzle_kept|done]];
       destruct (show_cv_frame (Some im) false s) as [d ->];
       split; [by apply puzzle_kept|done]).
  - split; [|intros _]; apply shuffle_puzzle_step.
  - rewrite reset_eq. destruct (tiles st) as [ts|] eqn:Hts.
    + destruct (assemble_and_show_frame (set_tile_order (Some (seq 0 (length ts))) st))
        as [d Hd].
      destruct (_assemble_and_show _) as [st2 [[]|e]]; simpl in Hd; subst st2; simpl;
        (split; [by apply puzzle_kept|done]).
    + split; [by apply puzzle_kept|done].
  - split; [|intros _]; apply on_click_puzzle_step.
  - run_M. set (st1 := set_panel p st).
    enough (∀ s, puzzle_step s (_resize_update s).1
                 ∧ orig_img (_resize_update s).1 = orig_img s) as Hs.
    { destruct (Hs st1) as [Hstep Ho].
      split; [|done]. by apply (puzzle_step_trans_kept st st1). }
    clear st st1. intros s. unfold _resize_update. run_M.
    destruct (tiles s) as [ts|], (tile_order s) as [order|];
      try (destruct (assemble_and_show_frame s) as [d ->];
           split; [by apply puzzle_kept|done]);
      (destruct (img s) as [im|] eqn:Hi; [|split; [by apply puzzle_kept|done]];
       destruct (show_cv_frame (Some im) false s) as [d ->];
       split; [by apply puzzle_kept|done]).
Qed.

Lemma step_selected_length st e :
  (length (selected st) ≤ 1)%nat → (length (selected (step st e)) ≤ 1)%nat.
Proof.
  intros Hlen.
  destruct (callback_puzzle_step e st) as [Hstep _].
  destruct Hstep as [_ _ _ Hs|im _ _ _ _ Hs|n nh nw im _ _ Hs _ _ _ _ _ _ _ _ _
                    |idx _ _ _ _ _ Hs _|a rest _ _ _ Hpop Hs]; rewrite Hs; try done.
  apply pop_length in Hpop. lia.
Qed.

(** X7. At most one tile is ever selected, whatever the user does. *)
Theorem selection_at_most_one panel_size (es : list event) :
  (length (selected (run (init panel_size) es)) ≤ 1)%nat.
Proof.
  assert (∀ st, (length (selected st) ≤ 1)%nat →
                (length (selected (run st es)) ≤ 1)%nat) as Hrun.
  { induction es as [|e es IH]; intros st Hlen; [done|].
    apply IH. by apply step_selected_length. }
  apply Hrun. simpl. lia.
Qed.

Lemma step_selection_inv st e :
  keeps_difficulty e → grid_inv st → selection_inv st → selection_inv (step st e).
Proof.
  intros Hkeep Hgrid Hsel. unfold selection_inv.
  destruct (callback_step e st) as (_ & _ & Hdiff). specialize (Hdiff Hkeep).
  fold (step st e) in Hdiff. rewrite Hdiff.
  destruct (callback_puzzle_step e st) as [Hstep _].
  destruct Hstep as [_ _ _ Hs|im _ _ _ _ Hs|n nh nw im _ _ Hs _ _ _ _ _ _ _ _ _
                    |idx _ _ _ [ts Hts] _ Hs Hidx|a rest _ _ _ Hpop Hs];
    rewrite Hs; try done.
  - destruct (Hgrid ts Hts) as [Hg _]. rewrite <- Hg. by repeat constructor.
  - apply Forall_forall. intros x Hx.
    apply (proj1 (Forall_forall _ _) Hsel). by eapply pop_elem_of.
Qed.

Lemma run_selection_inv st es :
  Forall keeps_difficulty es → grid_inv st → selection_inv st →
  selection_inv (run st es).
Proof.
  revert st. induction es as [|e es IH]; intros st Hall Hgrid Hsel; [done|].
  apply Forall_cons in Hall as [He Hall]. apply IH; [done|..].
  - by apply step_grid_inv.
  - by apply step_selection_inv.
Qed.

Lemma swap_order_after_click x y st ts order row col a rest va vi :
  tiles st = Some ts → tile_order st = Some order →
  click_cell st x y = Ok (Some (row, col)) →
  pop (selected st) = Some (a, rest) →
  let idx := Z.to_nat (row * (grid_size st).2 + col) in
  a ≠ idx → order !! a = Some va → order !! idx = Some vi →
  let st' := (on_click x y st).1 in
  tile_order st' = Some (<[idx := va]> (<[a := vi]> order))
  ∧ selected st' = rest ∧ tiles st' = Some ts ∧ grid_size st' = grid_size st
  ∧ img st' = img st.
Proof.
  intros Hts Hto Hcell Hpop idx Hne Ha Hi st'. unfold st'.
  rewrite (on_click_eq _ _ _ _ _ Hts Hto), Hcell. cbv zeta. rewrite Hpop.
  fold idx. rewrite decide_True by done.
  rewrite (swap_items_Ok _ _ _ _ _ Ha Hi).
  set (order' := <[idx := va]> (<[a := vi]> order)).
  destruct (assemble_and_show_frame (set_tile_order (Some order') (set_selected rest st)))
    as [d Hd].
  destruct (_assemble_and_show _) as [st3 [[]|e]]; simpl in Hd; subst st3;
    [destruct (decide (order' = seq 0 (length order')))|]; done.
Qed.

(** X8. In a session without a change of difficulty a pending selection is
    always a position of the current permutation, whose length is the
    number of cells: the click that completes a swap finds both entries
    and leaves the permutation with exactly these two exchanged. *)
Theorem pending_selection_in_range panel_size (es : list event) order :
  Forall keeps_difficulty es →
  let st := run (init panel_size) es in
  tile_order st = Some order →
  length order = cells (grid_size st)
  ∧ Forall (λ a, a < length order)%nat (selected st)
  ∧ ∀ x y row col a rest,
      click_cell st x y = Ok (Some (row, col)) →
      pop (selected st) = Some (a, rest) →
      let idx := Z.to_nat (row * (grid_size st).2 + col) in
      a ≠ idx →
      ∃ va vi,
        order !! a = Some va ∧ order !! idx = Some vi
        ∧ tile_order (on_click x y st).1
          = Some (<[idx := va]> (<[a := vi]> order)).
Proof.
  intros Hkeep st Hto.
  destruct (init_inv panel_size) as [Hp0 Hg0].
  pose proof (run_puzzle_inv _ es Hp0) as Hpuz.
  pose proof (run_grid_inv _ es Hkeep Hg0) as Hgrid.
  assert (selection_inv (init panel_size)) as Hs0 by constructor.
  pose proof (run_selection_inv _ es Hkeep Hg0 Hs0) as Hsel.
  fold st in Hpuz, Hgrid, Hsel.
  destruct (Hpuz order Hto) as (ts & Hts & Hperm).
  destruct (Hgrid ts Hts) as [Hg Hlen].
  destruct (perm_seq_bounds _ _ Hperm) as [Holen _].
  assert (length order = cells (grid_size st)) as Hcells by congruence.
  assert (Forall (λ a, a < length order)%nat (selected st)) as Hrange.
  { unfold selection_inv in Hsel. by rewrite Hcells, Hg. }
  split; [done|]. split; [done|].
  intros x y row col a rest Hcell Hpop idx Hne.
  assert (a < length order)%nat as Ha.
  { apply (proj1 (Forall_forall _ _) Hrange).
    unfold pop in Hpop. destruct (reverse (selected st)) as [|b r] eqn:Hr; [done|].
    injection Hpop as -> _.
    rewrite <- (reverse_involutive (selected st)), Hr.
    apply elem_of_reverse, elem_of_cons. by left. }
  assert (idx < length order)%nat as Hi.
  { rewrite Hcells. apply (click_cell_index _ _ _ _ _ Hcell). }
  destruct (lookup_lt_is_Some_2 _ _ Ha) as [va Hva].
  destruct (lookup_lt_is_Some_2 _ _ Hi) as [vi Hvi].
  exists va, vi. split; [done|]. split; [done|].
  by destruct (swap_order_after_click x y st ts order row col a rest va vi)
    as (? & _).
Qed.

(** X9. A selection that outlived its puzzle: when the pending position
    lies beyond the current permutation (a tile selected on a finer grid,
    then a shuffle on a coarser one) the next click on the picture raises
    [IndexError]; the selection is consumed and nothing else changes. *)
Theorem stale_selection_raises x y st ts order row col a rest :
  tiles st = Some ts → tile_order st = Some order →
  length order = cells (grid_size st) →
  click_cell st x y = Ok (Some (row, col)) →
  pop (selected st) = Some (a, rest) →
  (length order ≤ a)%nat →
  on_click x y st = (set_selected rest st, Raise IndexError).
Proof.
  intros Hts Hto Hlen Hcell Hpop Ha.
  pose proof (click_cell_index _ _ _ _ _ Hcell) as Hidx.
  fold (cells (grid_size st)) in Hidx. rewrite <- Hlen in Hidx.
  rewrite (on_click_eq _ _ _ _ _ Hts Hto), Hcell. cbv zeta. rewrite Hpop.
  set (idx := Z.to_nat _) in *.
  rewrite decide_True by lia.
  unfold swap_items, getitem.
  destruct (lookup_lt_is_Some_2 _ _ Hidx) as [vi ->]. simpl.
  by rewrite lookup_ge_None_2.
Qed.

(** X10. A click beside the displayed picture (in the padding of the
    panel) is ignored, with or without a puzzle. *)
Theorem click_outside_picture_ignored x y st :
  let d := displayed st in
  x < displayed_offset_x d ∨ y < displayed_offset_y d
  ∨ displayed_offset_x d + displayed_img_w d ≤ x
  ∨ displayed_offset_y d + displayed_img_h d ≤ y →
  on_click x y st = (st, Ok ()).
Proof.
  intros d Hout.
  destruct (tiles st) as [ts|] eqn:Hts; [|by apply on_click_unloaded; left].
  destruct (tile_order st) as [order|] eqn:Hto; [|by apply on_click_unloaded; right].
  rewrite (on_click_eq _ _ _ _ _ Hts Hto).
  unfold click_cell. fold d. rewrite decide_True; [done|]. lia.
Qed.

Lemma step_unloaded st e :
  keeps_image e →
  orig_img st = None ∧ img st = None ∧ tiles st = None ∧ selected st = [] →
  let st' := step st e in
  orig_img st' = None ∧ img st' = None ∧ tiles st' = None ∧ selected st' = [].
Proof.
  intros Hkeep (Ho & Hi & Ht & Hs) st'.
  destruct (callback_puzzle_step e st) as [Hstep Horig]. specialize (Horig Hkeep).
  fold st' in Hstep, Horig.
  destruct Hstep as [? ? ? ?|im _ ? _ _ _|n nh nw im _ [orig ?] _ _ _ _ _ _ _ _ _ _
                    |idx _ _ _ [ts ?] _ _ _|a rest _ _ _ Hpop _];
    try congruence.
  - repeat split; congruence.
  - rewrite Hs in Hpop. done.
Qed.

(** X11. Until an image has been loaded nothing the user does creates a
    puzzle: after any actions other than a successful load the object has
    no image, no tiles, no permutation and no selection. *)
Theorem no_puzzle_before_load panel_size (es : list event) :
  Forall keeps_image es →
  let st := run (init panel_size) es in
  orig_img st = None ∧ img st = None ∧ tiles st = None
  ∧ tile_order st = None ∧ selected st = [].
Proof.
  intros Hkeep st.
  assert (∀ s, orig_img s = None ∧ img s = None ∧ tiles s = None ∧ selected s = [] →
               let s' := run s es in
               orig_img s' = None ∧ img s' = None ∧ tiles s' = None
               ∧ selected s' = []) as Hrun.
  { clear st. induction es as [|e es IH]; intros s Hs; [done|].
    apply Forall_cons in Hkeep as [He Hkeep]. simpl. apply (IH Hkeep).
    by apply step_unloaded. }
  destruct (Hrun (init panel_size)) as (Ho & Hi & Ht & Hs); [done|].
  fold st in Ho, Hi, Ht, Hs.
  repeat (split; [done|]). split; [|done].
  destruct (init_inv panel_size) as [Hp0 _].
  pose proof (run_puzzle_inv _ es Hp0) as Hpuz. fold st in Hpuz.
  destruct (tile_order st) as [order|] eqn:Hto; [|done].
  destruct (Hpuz order Hto) as (ts & Hts & _). congruence.
Qed.

Lemma crop_whole h w (im : image) :
  has_shape h w im →
  crop im (Z.of_nat 0) (Z.of_nat h) (Z.of_nat 0) (Z.of_nat w) = im.
Proof.
  intros Hs. apply (image_ext h w); [|done|].
  - pose proof (crop_shape h w im 0 h 0 w Hs) as Hc.
    rewrite !Nat.sub_0_r in Hc. apply Hc; lia.
  - intros y x Hy Hx. rewrite (px_crop h w) by (done || lia).
    rewrite decide_True by lia. done.
Qed.

Lemma step_work_inv st e :
  keeps_difficulty e → grid_inv st → work_inv st → work_inv (step st e).
Proof.
  intros Hkeep Hgrid Hwork ts' Hts'.
  destruct (callback_step e st) as (_ & Hg & Hdiff). specialize (Hdiff Hkeep).
  fold (step st e) in Hg, Hdiff.
  assert (tiles (step st e) = tiles st → img (step st e) = img st →
          ∃ (n nh nw : nat) im,
            grid_size (step st e) = (Z.of_nat n, Z.of_nat n) ∧ (0 < n)%nat
            ∧ img (step st e) = Some im ∧ has_shape nh nw im
            ∧ (0 < nh)%nat ∧ (0 < nw)%nat
            ∧ (nh mod n = 0)%nat ∧ (nw mod n = 0)%nat
            ∧ ts' = cut_tiles im (Z.of_nat n) (Z.of_nat n)
                      (Z.of_nat (nh / n)) (Z.of_nat (nw / n))
            ∧ is_Some (orig_img st)) as Hsame.
  { intros Ht Hi. rewrite Ht in Hts'.
    destruct (Hwork ts' Hts') as (n & nh & nw & im & Hgs & ? & Him & ?).
    destruct (Hgrid ts' Hts') as [Hgd _].
    exists n, nh, nw, im.
    assert (grid_size (step st e) = grid_size st) as ->
      by (destruct Hg; congruence).
    split; [done|]. split; [done|]. split; [congruence|done]. }
  destruct (callback_puzzle_step e st) as [Hstep _].
  destruct Hstep as [? Ho ? _|im _ _ ? _ _|n nh nw im Ho Hsome _ ? ? ? ? ? ? ? ? Ht
                    |idx ? Ho ? _ _ _ _|a rest ? Ho ? _ _];
    try (destruct Hsame as (n & nh & nw & im & ? & ? & ? & ? & ? & ? & ? & ? & ? & ?);
           [done..|]; exists n, nh, nw, im; rewrite Ho; done).
  - congruence.
  - exists n, nh, nw, im. rewrite Ht in Hts'. injection Hts' as <-.
    rewrite Ho. done.
Qed.

Lemma run_work_inv st es :
  Forall keeps_difficulty es → grid_inv st → work_inv st → work_inv (run st es).
Proof.
  revert st. induction es as [|e es IH]; intros st Hall Hgrid Hwork; [done|].
  apply Forall_cons in Hall as [He Hall]. apply IH; [done|..].
  - by apply step_grid_inv.
  - by apply step_work_inv.
Qed.

(** What [_assemble] returns for the tiles of a working image. *)
Lemma assemble_work st (n nh nw : nat) im order :
  grid_size st = (Z.of_nat n, Z.of_nat n) → (0 < n)%nat →
  has_shape nh nw im → (nh mod n = 0)%nat → (nw mod n = 0)%nat →
  tiles st = Some (cut_tiles im (Z.of_nat n) (Z.of_nat n)
                     (Z.of_nat (nh / n)) (Z.of_nat (nw / n))) →
  tile_order st = Some order → order ≡ₚ seq 0 (n * n) →
  ∃ pic,
    _assemble st = (st, Ok (Some pic)) ∧ has_shape nh nw pic
    ∧ (∀ y x, (y < nh)%nat → (x < nw)%nat →
         px pic y x =
         k ← order !! (y / (nh / n) * n + x / (nw / n))%nat;
         px im (k / n * (nh / n) + y mod (nh / n))
               (k mod n * (nw / n) + x mod (nw / n)))
    ∧ (order = seq 0 (length order) → pic = im).
Proof.
  intros Hg Hn Hs Hmh Hmw Hts Hto Hperm.
  set (th := (nh / n)%nat) in *. set (tw := (nw / n)%nat) in *.
  assert (n * th = nh)%nat as Hnh
    by (unfold th; symmetry; apply Nat.Div0.div_exact; done).
  assert (n * tw = nw)%nat as Hnw
    by (unfold tw; symmetry; apply Nat.Div0.div_exact; done).
  set (ts := cut_tiles im (Z.of_nat n) (Z.of_nat n) (Z.of_nat th) (Z.of_nat tw)) in *.
  destruct (perm_seq_bounds _ _ Hperm) as [Holen Hobound].
  destruct (assemble_tiles_spec n n th tw ts order) as (pic & Hasm & Hshape & Hpx);
    try done.
  { apply (cut_tiles_shape n n th tw nh nw); (done || lia). }
  { apply length_cut_tiles. }
  rewrite Hnh, Hnw in Hshape, Hpx.
  assert (∀ y x, (y < nh)%nat → (x < nw)%nat →
     px pic y x =
     k ← order !! (y / th * n + x / tw)%nat;
     px im (k / n * th + y mod th) (k mod n * tw + x mod tw)) as Hpixels.
  { intros y x Hy Hx. rewrite Hpx by done. unfold tile_px.
    destruct (cell_of_pixel n n th tw y x) as (Hc & _ & _ & _ & _ & Hym & Hxm);
      [lia..|].
    destruct (lookup_lt_is_Some_2 order (y / th * n + x / tw)) as [k Hk]; [lia|].
    rewrite Hk. simpl.
    assert (k < n * n)%nat as Hkn by (by eapply (Forall_lookup_1 _ _ _ _ Hobound)).
    unfold ts. rewrite lookup_cut_tiles by done. simpl.
    rewrite (px_cell_block n n th tw nh nw) by (done || lia).
    by rewrite decide_True. }
  exists pic. split; [|split; [done|split; [done|]]].
  - rewrite assemble_eq, Hts, Hto, Hg, Hasm. done.
  - intros Hid. apply (image_ext nh nw); [done..|].
    intros y x Hy Hx. rewrite Hpixels by done.
    destruct (cell_of_pixel n n th tw y x) as (Hc & Hcd & Hcm & HY & HX & _ & _);
      [lia..|].
    rewrite Hid, Holen, lookup_seq_lt by done. simpl.
    by rewrite Hcd, Hcm, HY, HX.
Qed.

(** X12. In a session without a change of difficulty the picture that
    [_assemble] builds is always the working image with its tiles
    permuted: it returns, the picture has the size of the working image,
    cell [p] shows the tile [tile_order[p]] of the working image, and
    with the identity permutation (after a reset, or once solved) the
    picture is the working image itself. *)
Theorem assemble_shows_permuted_working_image panel_size (es : list event) order :
  Forall keeps_difficulty es →
  let st := run (init panel_size) es in
  tile_order st = Some order →
  ∃ (n nh nw : nat) im pic,
    grid_size st = (Z.of_nat n, Z.of_nat n) ∧ (0 < n)%nat
    ∧ img st = Some im ∧ has_shape nh nw im
    ∧ _assemble st = (st, Ok (Some pic)) ∧ has_shape nh nw pic
    ∧ (∀ y x, (y < nh)%nat → (x < nw)%nat →
         px pic y x =
         k ← order !! (y / (nh / n) * n + x / (nw / n))%nat;
         px im (k / n * (nh / n) + y mod (nh / n))
               (k mod n * (nw / n) + x mod (nw / n)))
    ∧ (order = seq 0 (length order) → pic = im).
Proof.
  intros Hkeep st Hto.
  destruct (init_inv panel_size) as [Hp0 Hg0].
  pose proof (run_puzzle_inv _ es Hp0) as Hpuz.
  pose proof (run_grid_inv _ es Hkeep Hg0) as Hgrid.
  assert (work_inv (init panel_size)) as Hw0 by (intros ? [=]).
  pose proof (run_work_inv _ es Hkeep Hg0 Hw0) as Hwork.
  fold st in Hpuz, Hgrid, Hwork.
  destruct (Hpuz order Hto) as (ts & Hts & Hperm).
  destruct (Hwork ts Hts)
    as (n & nh & nw & im & Hg & Hn & Him & Hs & _ & _ & Hmh & Hmw & -> & _).
  rewrite length_cut_tiles in Hperm.
  destruct (assemble_work st n nh nw im order) as (pic & ? & ? & ? & ?); try done.
  by exists n, nh, nw, im, pic.
Qed.

Lemma show_cv_dims im1 im2 force_fit st :
  height im1 = height im2 → width im1 = width im2 →
  _show_cv (Some im1) force_fit st = _show_cv (Some im2) force_fit st.
Proof.
  intros Hh Hw. unfold _show_cv, cv2_cvtColor. by rewrite Hh, Hw.
Qed.

Lemma foldl_shape {A} (f : image → A → image) h w (l : list A) im :
  (∀ o k, has_shape h w o → has_shape h w (f o k)) →
  has_shape h w im → has_shape h w (foldl f im l).
Proof.
  intros Hf. revert im. induction l as [|k l IH]; intros im Hs; [done|].
  simpl. by apply IH, Hf.
Qed.

Lemma draw_grid_shape im st (n h w : nat) :
  grid_size st = (Z.of_nat n, Z.of_nat n) → (0 < n)%nat → has_shape h w im →
  ∃ out, _draw_grid im st = (st, Ok out) ∧ has_shape h w out.
Proof.
  intros Hg Hn Hs. unfold _draw_grid. run_M. rewrite Hg. cbn.
  unfold floordiv. rewrite !decide_False by lia. cbn.
  eexists. split; [done|].
  apply foldl_shape; [intros; by apply cv2_line_shape|].
  apply foldl_shape; [intros; by apply cv2_line_shape|done].
Qed.

Lemma show_hint_frame st : ∃ d, (show_hint st).1 = set_displayed d st.
Proof.
  unfold show_hint. run_M.
  destruct (orig_img st) as [orig|], (tiles st) as [ts|] eqn:Hts;
    try (exists (displayed st); by rewrite set_displayed_id).
  rewrite assemble_eq, Hts.
  destruct (match tile_order st with Some _ => _ | None => _ end) as [[p|]|];
    try (exists (displayed st); by rewrite set_displayed_id).
  destruct (match img st with Some _ => _ | None => _ end) as [sol|e];
    [|exists (displayed st); by rewrite set_displayed_id].
  pose proof (draw_grid_state sol st) as Hd.
  destruct (_draw_grid sol st) as [st' [display|e]]; simpl in Hd; subst st'.
  - apply show_cv_frame.
  - exists (displayed st); by rewrite set_displayed_id.
Qed.

(** X13. The hint only touches the screen. Pressed in a session without a
    change of difficulty while a puzzle is up, [show_hint] either raises
    in [cv2.resize] and leaves the object as it is, or ends exactly as
    [_assemble_and_show] does: the solution is drawn in the rectangle the
    puzzle occupies, so clicks made while the hint is up land on the same
    cells, and the puzzle itself is untouched. *)
Theorem show_hint_same_frame panel_size (es : list event) order :
  Forall keeps_difficulty es →
  let st := run (init panel_size) es in
  tile_order st = Some order →
  (∃ e, show_hint st = (st, Raise e)) ∨ show_hint st = _assemble_and_show st.
Proof.
  intros Hkeep st Hto.
  destruct (init_inv panel_size) as [Hp0 Hg0].
  pose proof (run_puzzle_inv _ es Hp0) as Hpuz.
  pose proof (run_grid_inv _ es Hkeep Hg0) as Hgrid.
  assert (work_inv (init panel_size)) as Hw0 by (intros ? [=]).
  pose proof (run_work_inv _ es Hkeep Hg0 Hw0) as Hwork.
  fold st in Hpuz, Hgrid, Hwork.
  destruct (Hpuz order Hto) as (ts & Hts & Hperm).
  destruct (Hwork ts Hts)
    as (n & nh & nw & im & Hg & Hn & Him & Hs & Hnh & Hnw & Hmh & Hmw & Hcut & [orig Ho]).
  subst ts. rewrite length_cut_tiles in Hperm.
  destruct (assemble_work st n nh nw im order) as (pic & Hasm & Hpic & _); try done.
  destruct (has_shape_dims _ _ _ Hpic) as [Hph [Hpw|[? _]]]; [|lia].
  unfold show_hint, _assemble_and_show. run_M. rewrite Ho, Hts, Hasm, Him. cbn.
  rewrite Hph, Hpw.
  destruct (cv2_resize im (Z.of_nat nw) (Z.of_nat nh)) as [sol|e] eqn:Hres;
    [|left; by exists e].
  right.
  apply cv2_resize_shape in Hres as (_ & _ & Hsol). rewrite !Nat2Z.id in Hsol.
  destruct (draw_grid_shape sol st n nh nw Hg Hn Hsol) as (sol' & -> & Hsol').
  destruct (draw_grid_shape pic st n nh nw Hg Hn Hpic) as (pic' & -> & Hpic').
  apply show_cv_dims.
  - destruct (has_shape_dims _ _ _ Hsol') as [-> _].
    by destruct (has_shape_dims _ _ _ Hpic') as [-> _].
  - destruct (has_shape_dims _ _ _ Hsol') as [_ [->|[? _]]]; [|lia].
    destruct (has_shape_dims _ _ _ Hpic') as [_ [->|[? _]]]; [done|lia].
Qed.

Lemma insert_swap_back {A} (l : list A) a b va vb :
  l !! a = Some va → l !! b = Some vb → a ≠ b →
  <[b := vb]> (<[a := va]> (<[b := va]> (<[a := vb]> l))) = l.
Proof.
  intros Ha Hb Hne.
  rewrite (list_insert_insert_ne _ a b va va) by done.
  rewrite !list_insert_insert_eq.
  rewrite (list_insert_id l a) by done.
  by apply list_insert_id.
Qed.

(** X14. Swapping the same two tiles again undoes the swap: after a swap
    of the positions [a] and [idx], selecting [a] and clicking [idx] once
    more brings back the permutation there was before. *)
Theorem swap_back_restores_order x y xa ya st ts order row col a ra ca :
  tiles st = Some ts → tile_order st = Some order → selected st = [a] →
  click_cell st x y = Ok (Some (row, col)) →
  let idx := Z.to_nat (row * (grid_size st).2 + col) in
  a ≠ idx → (a < length order)%nat → (idx < length order)%nat →
  let st1 := (on_click x y st).1 in
  click_cell st1 xa ya = Ok (Some (ra, ca)) →
  Z.to_nat (ra * (grid_size st).2 + ca) = a →
  click_cell st1 x y = Ok (Some (row, col)) →
  let st2 := (on_click xa ya st1).1 in
  let st3 := (on_click x y st2).1 in
  (∃ va vi, order !! a = Some va ∧ order !! idx = Some vi
            ∧ tile_order st1 = Some (<[idx := va]> (<[a := vi]> order)))
  ∧ selected st1 = []
  ∧ selected st2 = [a] ∧ tile_order st2 = tile_order st1
  ∧ tile_order st3 = Some order ∧ selected st3 = [].
Proof.
  intros Hts Hto Hsel Hcell idx Hne Ha Hi st1 Hcella Hidxa Hcell1 st2 st3.
  destruct (lookup_lt_is_Some_2 _ _ Ha) as [va Hva].
  destruct (lookup_lt_is_Some_2 _ _ Hi) as [vi Hvi].
  assert (pop (selected st) = Some (a, [])) as Hpop by (by rewrite Hsel).
  destruct (swap_order_after_click x y st ts order row col a [] va vi)
    as (Hto1 & Hsel1 & Hts1 & Hg1 & _); try done.
  fold st1 in Hto1, Hsel1, Hts1, Hg1. fold idx in Hto1.
  set (order' := <[idx := va]> (<[a := vi]> order)) in *.
  assert (st2 = set_status (SelectedTile a) (set_selected [a] st1)) as Hst2.
  { unfold st2. rewrite (on_click_eq _ _ _ _ _ Hts1 Hto1), Hcella. cbv zeta.
    rewrite Hsel1, pop_nil, Hg1, Hidxa. done. }
  assert (click_cell st2 x y = Ok (Some (row, col))) as Hcell2.
  { rewrite <- Hcell1. apply click_cell_ext; by rewrite Hst2. }
  assert (order' !! a = Some vi) as Hva'.
  { unfold order'. rewrite list_lookup_insert_ne by done.
    apply list_lookup_insert_eq. done. }
  assert (order' !! idx = Some va) as Hvi'.
  { unfold order'. apply list_lookup_insert_eq. by rewrite length_insert. }
  assert (grid_size st2 = grid_size st) as Hg2 by (by rewrite Hst2).
  assert (tiles st2 = Some ts) as Hts2 by (by rewrite Hst2).
  assert (tile_order st2 = Some order') as Hto2 by (by rewrite Hst2).
  assert (pop (selected st2) = Some (a, [])) as Hpop2 by (by rewrite Hst2).
  assert (a ≠ Z.to_nat (row * (grid_size st2).2 + col)) as Hne2 by (by rewrite Hg2).
  assert (order' !! Z.to_nat (row * (grid_size st2).2 + col) = Some va) as Hvi2
    by (by rewrite Hg2).
  destruct (swap_order_after_click x y st2 ts order' row col a [] vi va
              Hts2 Hto2 Hcell2 Hpop2 Hne2 Hva' Hvi2) as (Hto3 & Hsel3 & _).
  fold st3 in Hto3, Hsel3.
  split; [by exists va, vi|]. split; [done|].
  split; [by rewrite Hst2|]. split; [by rewrite Hst2|]. split; [|done].
  rewrite Hto3. f_equal.
  replace (grid_size st2) with (grid_size st) by (by rewrite Hst2).
  fold idx. unfold order'. by apply insert_swap_back.
Qed.

Lemma shuffle_save_btn g silent st :
  let st' := (shuffle g silent st).1 in
  (save_btn st' = save_btn st ∧ tile_order st' = tile_order st)
  ∨ is_Some (tile_order st').
Proof.
  destruct (orig_img st) as [orig|] eqn:Ho.
  - destruct (shuffle_outcome g silent st orig Ho)
      as [(e & _ & ->)|(im & th & tw & ts & order & g' & d & r & _ & _ & _ & _ & _ & ->)].
    + by left.
    + right. destruct r as [[]|e], silent; by eexists.
  - rewrite shuffle_eq, Ho. left. by destruct silent.
Qed.

Lemma callback_save_btn e st :
  let st' := step st e in
  (save_btn st' = save_btn st ∧ tile_order st' = tile_order st)
  ∨ save_btn st' = false
  ∨ is_Some (tile_order st').
Proof.
  unfold step. destruct e as [chosen copied|d|g|g| |x y|p]; simpl.
  - unfold open_image. destruct chosen as [[im|]|]; run_M; [|by left..].
    set (st4 := set_save_btn _ _).
    destruct (show_cv_frame (Some im) false st4) as [d Hd].
    right; left.
    by destruct (_show_cv (Some im) false st4) as [st5 [[]|e]]; simpl in Hd; subst st5.
  - unfold set_difficulty. run_M. by left.
  - run_M. set (st1 := set_fill_box _ st).
    enough (∀ s, let s' := (_refresh_display g s).1 in
                 (save_btn s' = save_btn s ∧ tile_order s' = tile_order s)
                 ∨ is_Some (tile_order s')) as Hs.
    { destruct (Hs st1) as [?|?]; [by left|by right; right]. }
    clear st st1. intros s.
    assert (_refresh_display g s = shuffle g true s
            ∨ _refresh_display g s = (s, Ok ())
            ∨ ∃ im, _refresh_display g s = _show_cv (Some im) false s)
      as [Hr|[Hr|[im Hr]]].
    { unfold _refresh_display. run_M.
      destruct (tiles s) as [ts|], (tile_order s) as [order|]; auto;
        destruct (orig_img s) as [im|]; eauto. }
    + rewrite Hr. apply shuffle_save_btn.
    + rewrite Hr. by left.
    + rewrite Hr. destruct (show_cv_frame (Some im) false s) as [d ->]. by left.
  - destruct (shuffle_save_btn g false st) as [?|?]; [by left|by right; right].
  - rewrite reset_eq. destruct (tiles st) as [ts|] eqn:Hts; [|by left].
    destruct (assemble_and_show_frame (set_tile_order (Some (seq 0 (length ts))) st))
      as [d Hd].
    right; right.
    destruct (_assemble_and_show _) as [st2 [[]|e]]; simpl in Hd; subst st2; by eexists.
  - destruct (tiles st) as [ts|] eqn:Hts;
      [|rewrite on_click_unloaded by (by left); by left].
    destruct (tile_order st) as [order|] eqn:Hto;
      [|rewrite on_click_unloaded by (by right); by left].
    rewrite (on_click_eq _ _ _ _ _ Hts Hto).
    destruct (click_cell st x y) as [[[row col]|]|e]; try by left.
    cbv zeta. set (idx := Z.to_nat _).
    destruct (pop (selected st)) as [[a rest]|]; [|by left].
    destruct (decide (a ≠ idx)); [|by left].
    destruct (swap_items order a idx) as [order'|e]; [|by left].
    destruct (assemble_and_show_frame (set_tile_order (Some order') (set_selected rest st)))
      as [d Hd].
    right; right.
    destruct (_assemble_and_show _) as [st3 [[]|e]]; simpl in Hd; subst st3;
      [destruct (decide (order' = seq 0 (length order')))|]; by eexists.
  - run_M. set (st1 := set_panel p st).
    enough (∀ s, let s' := (_resize_update s).1 in
                 save_btn s' = save_btn s ∧ tile_order s' = tile_order s) as Hs.
    { left. by destruct (Hs st1). }
    clear st st1. intros s.
    assert (_resize_update s = _assemble_and_show s
            ∨ _resize_update s = (s, Ok ())
            ∨ ∃ im, _resize_update s = _show_cv (Some im) false s)
      as [Hr|[Hr|[im Hr]]].
    { unfold _resize_update. run_M.
      destruct (tiles s) as [ts|], (tile_order s) as [order|]; auto;
        destruct (img s) as [im|]; eauto. }
    + rewrite Hr. by destruct (assemble_and_show_frame s) as [d ->].
    + by rewrite Hr.
    + rewrite Hr. by destruct (show_cv_frame (Some im) false s) as [d ->].
Qed.

(** X15. The Save button is enabled only while there is something to save:
    whenever it is enabled after any sequence of actions, the object holds
    tiles and a permutation of their indices, so that [save_output] does
    not stop at "Nothing to save". *)
Theorem save_button_needs_puzzle panel_size (es : list event) :
  let st := run (init panel_size) es in
  save_btn st = true →
  ∃ ts order,
    tiles st = Some ts ∧ tile_order st = Some order
    ∧ order ≡ₚ seq 0 (length ts).
Proof.
  intros st Hbtn.
  assert (∀ s, (save_btn s = true → is_Some (tile_order s)) →
               save_btn (run s es) = true → is_Some (tile_order (run s es))) as Hrun.
  { clear st Hbtn. induction es as [|e es IH]; intros s Hs; [done|].
    simpl. apply IH. intros Hbtn.
    destruct (callback_save_btn e s) as [[Hsame Hto]|[Hoff|Hsome]].
    - rewrite Hto. apply Hs. congruence.
    - congruence.
    - done. }
  destruct (Hrun (init panel_size)) as [order Hto]; [done|done|].
  fold st in Hto.
  destruct (init_inv panel_size) as [Hp0 _].
  destruct (run_puzzle_inv _ es Hp0 order Hto) as (ts & Hts & Hperm).
  by exists ts, order.
Qed.

End gui_more.

(** * Further properties of the screen coordinates *)

Section coordinates_more.
Context `{Toolkit}.
Existing Instance Q_PyFloat.

Lemma Q_trunc_inject k : Q_trunc (inject_Z k) = k.
Proof.
  unfold Q_trunc. destruct (Qle_bool 0 (inject_Z k)).
  - apply Qfloor_Z.
  - apply Qceiling_Z.
Qed.

Lemma Q_trunc_nonneg q : (0 <= q)%Q → Q_trunc q = Qfloor q.
Proof.
  intros Hq. unfold Q_trunc.
  by rewrite (proj2 (Qle_bool_iff 0 q) Hq).
Qed.

(** [x // (W / g)] in exact arithmetic is the integer quotient
    [x * g // W]. *)
Lemma Q_cell_index x W g :
  0 < W → 0 < g →
  (cell ← truediv W g; c ← float_floordiv x cell; Ok (ftrunc c))
  = Ok ((x * g) `div` W).
Proof.
  intros HW Hg. unfold truediv. rewrite decide_False by lia. simpl.
  destruct W as [|w|w]; [lia| |lia]. destruct g as [|g|g]; [lia| |lia].
  unfold float_floordiv. simpl.
  by rewrite Q_trunc_inject, !Pos.mul_1_l, Pos.mul_1_r.
Qed.

(** X16. With the floats read as exact rationals, every click on the
    displayed picture hits a cell, and it is the cell under the pointer:
    row [y * rows // H] and column [x * cols // W] for a pointer at
    [(x, y)] from the corner of a picture displayed [W] by [H]. *)
Theorem click_cell_exact st ex ey gh gw :
  grid_size st = (gh, gw) → 0 < gh → 0 < gw →
  let d := displayed st in
  let x := ex - displayed_offset_x d in
  let y := ey - displayed_offset_y d in
  0 ≤ x < displayed_img_w d → 0 ≤ y < displayed_img_h d →
  click_cell st ex ey
  = Ok (Some ((y * gh) `div` displayed_img_h d, (x * gw) `div` displayed_img_w d))
  ∧ 0 ≤ (y * gh) `div` displayed_img_h d < gh
  ∧ 0 ≤ (x * gw) `div` displayed_img_w d < gw.
Proof.
  intros Hg Hgh Hgw d x y Hx Hy.
  assert (0 ≤ (x * gw) `div` displayed_img_w d < gw) as Hcol.
  { split; [apply Z.div_pos; nia|]. apply Z.div_lt_upper_bound; nia. }
  assert (0 ≤ (y * gh) `div` displayed_img_h d < gh) as Hrow.
  { split; [apply Z.div_pos; nia|]. apply Z.div_lt_upper_bound; nia. }
  split; [|done].
  unfold click_cell. fold d x y. rewrite decide_False by lia. rewrite Hg.
  pose proof (Q_cell_index x (displayed_img_w d) gw ltac:(lia) Hgw) as Hc.
  pose proof (Q_cell_index y (displayed_img_h d) gh ltac:(lia) Hgh) as Hr.
  destruct (truediv (displayed_img_w d) gw) as [cw|e]; [|done]. simpl in Hc |- *.
  destruct (float_floordiv x cw) as [c|e]; [|done]. simpl in Hc |- *.
  injection Hc as Hc.
  destruct (truediv (displayed_img_h d) gh) as [ch|e]; [|done]. simpl in Hr |- *.
  destruct (float_floordiv y ch) as [r|e]; [|done]. simpl in Hr |- *.
  injection Hr as Hr.
  rewrite Hc, Hr. by rewrite decide_True.
Qed.

Lemma Q_scaled_le (n a : Z) (s : Q) :
  0 < n → 0 ≤ a → (0 <= s)%Q → (s <= inject_Z a / inject_Z n)%Q →
  0 ≤ Q_trunc (inject_Z n * s) ≤ a.
Proof.
  intros Hn Ha Hs Hle.
  assert (0 <= inject_Z n)%Q as Hn0
    by (change 0%Q with (inject_Z 0); rewrite <- Zle_Qle; lia).
  assert (0 <= inject_Z n * s)%Q as Hpos by (by apply Qmult_le_0_compat).
  rewrite Q_trunc_nonneg by done. split.
  - rewrite <- (Qfloor_Z 0). by apply Qfloor_resp_le.
  - rewrite <- (Qfloor_Z a). apply Qfloor_resp_le.
    assert (inject_Z n * (inject_Z a / inject_Z n) == inject_Z a)%Q as <-.
    { apply Qmult_div_r. intros Heq. apply (inject_Z_injective n 0) in Heq. lia. }
    rewrite !(Qmult_comm (inject_Z n)). by apply Qmult_le_compat_r.
Qed.

Lemma Q_ratio_nonneg (a n : Z) : 0 ≤ a → 0 < n → (0 <= inject_Z a / inject_Z n)%Q.
Proof.
  intros Ha Hn. apply Qle_shift_div_l.
  - change 0%Q with (inject_Z 0). rewrite <- Zlt_Qlt. lia.
  - rewrite Qmult_0_l. change 0%Q with (inject_Z 0). rewrite <- Zle_Qle. lia.
Qed.

End coordinates_more.

(** * Further properties of [shuffle] *)

Section small_images.
Context `{OpenCV, Toolkit, NpRandom}.
Existing Instance Q_PyFloat.

Lemma Q_fmin_spec (a b : @float Q_PyFloat) :
  (fmin a b <= a)%Q ∧ (fmin a b <= b)%Q ∧ (fmin a b = a ∨ fmin a b = b).
Proof.
  simpl. destruct (Qle_bool a b) eqn:Hb.
  - apply Qle_bool_iff in Hb. split; [apply Qle_refl|]. split; [done|by left].
  - assert (¬ (a <= b)%Q) as Hn by (rewrite <- Qle_bool_iff; congruence).
    apply Qnot_le_lt, Qlt_le_weak in Hn.
    split; [done|]. split; [apply Qle_refl|by right].
Qed.

(** Without the fill mode an image is never enlarged. *)
Lemma Q_contain_scaled (n : Z) (sa sb : @float Q_PyFloat) :
  0 < n → (0 <= sa)%Q → (0 <= sb)%Q →
  0 ≤ ftrunc (fmul n (fmin (fmin sa sb) fone)) ≤ n.
Proof.
  intros Hn Hsa Hsb.
  destruct (Q_fmin_spec sa sb) as (_ & _ & Hm).
  assert (0 <= fmin sa sb)%Q as Hm0 by (destruct Hm as [-> | ->]; done).
  destruct (Q_fmin_spec (fmin sa sb) fone) as (_ & Hle1 & Hs).
  assert (0 <= fmin (fmin sa sb) fone)%Q as Hs0 by (destruct Hs as [-> | ->]; done).
  apply Q_scaled_le; [done|lia|done|].
  assert (inject_Z n / inject_Z n == 1)%Q as ->; [|done].
  unfold Qdiv. apply Qmult_inv_r. intros Heq.
  apply (inject_Z_injective n 0) in Heq. lia.
Qed.

(** X18. An image narrower or lower than the grid cannot be played: without
    the fill mode the working size rounds down to zero, [cv2.resize]
    raises out of [shuffle], and the object keeps the pictures, tiles,
    permutation and selection it had; only the grid size and the status
    follow the chosen difficulty. *)
Theorem shuffle_rejects_small_image g silent st orig (h w : nat) :
  orig_img st = Some orig → fill_box st = false →
  has_shape h w orig → (0 < h)%nat → (0 < w)%nat →
  Z.of_nat w < (DIFFICULTY_GRID (difficulty_var st)).2
  ∨ Z.of_nat h < (DIFFICULTY_GRID (difficulty_var st)).1 →
  ∃ e, shuffle g silent st = (with_difficulty st, Raise e).
Proof.
  intros Ho Hfill Hs Hh Hw Hsmall.
  destruct (shuffle_outcome g silent st orig Ho)
    as [(e & _ & ->)|(im & _ & _ & _ & _ & _ & _ & _ & Hwork & _)]; [by exists e|].
  exfalso. revert Hwork. unfold working_image.
  destruct (difficulty_grid_nat (difficulty_var st)) as (n & Hn & Hgrid).
  assert (grid_size (with_difficulty st) = (Z.of_nat n, Z.of_nat n)) as -> by done.
  assert (fill_box (with_difficulty st) = false) as -> by done.
  rewrite Hgrid in Hsmall. simpl in Hsmall.
  destruct (has_shape_dims _ _ _ Hs) as [-> [-> |[? _]]]; [|lia].
  unfold truediv, floordiv. rewrite !decide_False by lia. simpl.
  set (sx := (inject_Z 700 / inject_Z (Z.of_nat w))%Q).
  set (sy := (inject_Z 650 / inject_Z (Z.of_nat h))%Q).
  assert (0 <= sx)%Q as Hsx by (apply Q_ratio_nonneg; lia).
  assert (0 <= sy)%Q as Hsy by (apply Q_ratio_nonneg; lia).
  pose proof (Q_contain_scaled (Z.of_nat w) sx sy ltac:(lia) Hsx Hsy) as Hbw.
  pose proof (Q_contain_scaled (Z.of_nat h) sx sy ltac:(lia) Hsx Hsy) as Hbh.
  simpl in Hbw, Hbh.
  set (W := Q_trunc _) in *.
  rewrite decide_False by lia. simpl.
  set (H' := Q_trunc _) in *.
  rewrite decide_False by lia. simpl.
  intros Hres. apply cv2_resize_shape in Hres as (Hpw & Hph & _).
  destruct Hsmall as [Hlt|Hlt].
  - rewrite Z.div_small in Hpw by lia. lia.
  - rewrite Z.div_small in Hph by lia. lia.
Qed.

End small_images.

(** * Further properties of the file names *)

Lemma string_app_cons x (a b : string) : String x a +:+ b = String x (a +:+ b).
Proof. done. Qed.

Lemma string_app_assoc (a b c : string) : (a +:+ b) +:+ c = a +:+ (b +:+ c).
Proof. induction a as [|x a IH]; [done|]. by rewrite !string_app_cons, IH. Qed.

Lemma string_app_nil_r (a : string) : a +:+ "" = a.
Proof. induction a as [|x a IH]; [done|]. by rewrite string_app_cons, IH. Qed.

Lemma list_ascii_app (a b : string) :
  String.list_ascii_of_string (a +:+ b)
  = String.list_ascii_of_string a ++ String.list_ascii_of_string b.
Proof.
  induction a as [|x a IH]; [done|]. rewrite string_app_cons. simpl. by rewrite IH.
Qed.

Lemma string_app_inv_tail (a b e : string) : a +:+ e = b +:+ e → a = b.
Proof.
  intros Heq. apply (f_equal String.list_ascii_of_string) in Heq.
  rewrite !list_ascii_app in Heq. apply app_inv_tail in Heq.
  rewrite <- (String.string_of_list_ascii_of_string a),
          <- (String.string_of_list_ascii_of_string b).
  by rewrite Heq.
Qed.

Lemma splitext_root_fst fname : splitext_root fname = (splitext fname).1.
Proof.
  unfold splitext_root, splitext.
  destruct (list_find _ _) as [[j c]|]; [|done].
  by destruct (forallb _ _).
Qed.

Lemma splitext_stem_ext stem ext :
  named stem = true → dotless ext = true →
  splitext (stem +:+ "." +:+ ext) = (stem, "." +:+ ext).
Proof.
  intros Hstem Hext. unfold splitext.
  set (dot := Ascii.ascii_of_nat 46).
  set (ls := String.list_ascii_of_string stem).
  set (le := String.list_ascii_of_string ext).
  assert (String.list_ascii_of_string (stem +:+ "." +:+ ext) = ls ++ dot :: le) as ->
    by (by rewrite list_ascii_app).
  assert (list_find (λ c, c = dot) (reverse (ls ++ dot :: le))
          = Some (length le, dot)) as ->.
  { rewrite reverse_app, reverse_cons, <- app_assoc. simpl.
    apply list_find_Some. split; [|split; [done|]].
    - apply list_lookup_middle. by rewrite length_reverse.
    - intros j y Hj Hlt. rewrite lookup_app_l in Hj by (by rewrite length_reverse).
      apply list_elem_of_lookup_2 in Hj. rewrite elem_of_reverse in Hj.
      unfold dotless in Hext. rewrite forallb_forall in Hext.
      apply list_elem_of_In, Hext in Hj. fold dot in Hj.
      by apply negb_true_iff, bool_decide_eq_false in Hj. }
  replace (length (ls ++ dot :: le) - 1 - length le)%nat with (length ls)
    by (rewrite length_app; simpl; lia).
  rewrite take_app_length, drop_app_length.
  unfold named in Hstem. fold dot ls in Hstem.
  apply negb_true_iff in Hstem. rewrite Hstem.
  unfold ls, le. simpl.
  by rewrite !String.string_of_list_ascii_of_string.
Qed.

Section batch_names.
Context `{PyHash, PyRandom}.

(** X19. The solution record is named after the stem alone: for a file
    [stem.ext] it is [solution_map_stem.json]. Two images of a directory
    that differ only in their extension therefore get two puzzle images
    and one solution file name, the second record replacing the first. *)
Theorem solution_map_name_clash secret level stem ext1 ext2 img1 img2 h1 w1 h2 w2 :
  named stem = true → dotless ext1 = true → dotless ext2 = true → ext1 ≠ ext2 →
  let f1 := stem +:+ "." +:+ ext1 in
  let f2 := stem +:+ "." +:+ ext2 in
  supported_image f1 = true → supported_image f2 = true →
  has_shape h1 w1 img1 → has_shape h2 w2 img2 →
  ∃ r1 r2,
    process_all_images secret [(f1, Some img1); (f2, Some img2)] level = Ok [r1; r2]
    ∧ solution_file r1 = "solution_map_" +:+ stem +:+ ".json"
    ∧ solution_file r2 = solution_file r1
    ∧ image_file r1 ≠ image_file r2.
Proof.
  intros Hstem He1 He2 Hne f1 f2 Hs1 Hs2 Hi1 Hi2.
  destruct (file_records_processed secret level f1 img1 h1 w1 Hs1 Hi1)
    as (sh1 & o1 & _ & _ & _ & Hr1).
  destruct (file_records_processed secret level f2 img2 h2 w2 Hs2 Hi2)
    as (sh2 & o2 & _ & _ & _ & Hr2).
  rewrite !process_all_images_cons, Hr1, Hr2. simpl.
  eexists _, _. split; [done|]. simpl.
  unfold f1, f2. rewrite !splitext_root_fst, !splitext_stem_ext by done. simpl.
  split; [done|]. split; [done|].
  intros Heq. apply Hne.
  apply String.app_inj in Heq. apply String.app_inj in Heq.
  by apply (String.app_inj ".") in Heq.
Qed.

End batch_names.

Lemma path_join_prefix a b : path_join a b = join_prefix a b +:+ b.
Proof.
  unfold path_join, join_prefix. destruct (isabs b); [done|].
  destruct (bool_decide (a = "") || endswith a "/"); [done|].
  by rewrite string_app_assoc.
Qed.

Lemma isabs_head (n r r' : string) c :
  isabs (n +:+ String c r) = isabs (n +:+ String c r').
Proof. by destruct n. Qed.

Lemma numbered_inj n e : Inj (=) (=) (λ i, numbered n i e).
Proof.
  intros i j Heq. unfold numbered in Heq.
  apply String.app_inj in Heq. apply (String.app_inj "_") in Heq.
  apply string_app_inv_tail in Heq. by apply pretty_nat_inj in Heq.
Qed.

Lemma join_prefix_isabs d b b' :
  isabs b = isabs b' → join_prefix d b = join_prefix d b'.
Proof. unfold join_prefix. by intros ->. Qed.

Lemma candidate_prefix d n e :
  ∃ pre, ∀ i, path_join d (numbered n i e) = pre +:+ numbered n i e.
Proof.
  exists (join_prefix d (numbered n 0 e)). intros i.
  rewrite path_join_prefix. f_equal. apply join_prefix_isabs.
  apply (isabs_head n (pretty i +:+ e) (pretty 0%nat +:+ e)).
Qed.

Lemma candidate_inj d n e : Inj (=) (=) (λ i, path_join d (numbered n i e)).
Proof.
  destruct (candidate_prefix d n e) as [pre Hpre].
  intros i j. rewrite !Hpre. intros Heq.
  apply String.app_inj in Heq. by apply numbered_inj in Heq.
Qed.

Lemma unique_loop_Some files d n e fuel i c :
  unique_loop files d n e fuel i = Some c →
  (c ∉ files)
  ∧ ∃ k, (k < fuel)%nat ∧ c = path_join d (numbered n (i + k) e)
         ∧ ∀ k', (k' < k)%nat → path_join d (numbered n (i + k') e) ∈ files.
Proof.
  revert i. induction fuel as [|fuel IH]; intros i; [done|]. simpl.
  case_decide as Hin.
  - intros Hc. destruct (IH _ Hc) as (Hnew & k & Hk & -> & Hbelow).
    split; [done|]. exists (S k). split; [lia|].
    split; [by rewrite Nat.add_succ_r|].
    intros [|k'] Hk'; [by rewrite Nat.add_0_r|].
    rewrite Nat.add_succ_r. apply Hbelow. lia.
  - intros [= <-]. split; [done|]. exists 0%nat. rewrite Nat.add_0_r.
    split; [lia|]. split; [done|]. intros; lia.
Qed.

Lemma unique_loop_None files d n e fuel i :
  unique_loop files d n e fuel i = None →
  ∀ k, (k < fuel)%nat → path_join d (numbered n (i + k) e) ∈ files.
Proof.
  revert i. induction fuel as [|fuel IH]; intros i; [intros; lia|]. simpl.
  case_decide as Hin; [|done]. intros Hnone [|k] Hk; [by rewrite Nat.add_0_r|].
  rewrite Nat.add_succ_r. apply (IH (S i) Hnone). lia.
Qed.

Lemma unique_loop_more files d n e fuel extra i c :
  unique_loop files d n e fuel i = Some c →
  unique_loop files d n e (fuel + extra) i = Some c.
Proof.
  revert i. induction fuel as [|fuel IH]; intros i; [done|]. simpl.
  case_decide; [apply IH|done].
Qed.

(** The loop ends: the candidates are pairwise different, so at most
    [size files] of them exist. *)
Lemma unique_loop_enough files d n e i :
  ∃ c, unique_loop files d n e (S (size files)) i = Some c.
Proof.
  destruct (unique_loop files d n e (S (size files)) i) as [c|] eqn:Hloop;
    [by exists c|].
  exfalso.
  pose proof (unique_loop_None _ _ _ _ _ _ Hloop) as Hall.
  set (cands := (λ k, path_join d (numbered n k e)) <$> seq i (S (size files))).
  assert (NoDup cands) as Hnd.
  { apply NoDup_fmap_2; [apply candidate_inj|apply NoDup_seq]. }
  assert (list_to_set (C := gset string) cands ⊆ files) as Hsub.
  { intros c Hc. apply elem_of_list_to_set, list_elem_of_fmap in Hc as (k & -> & Hk).
    apply elem_of_seq in Hk. replace k with (i + (k - i))%nat by lia.
    apply Hall. lia. }
  apply subseteq_size in Hsub. rewrite size_list_to_set in Hsub by done.
  unfold cands in Hsub. rewrite length_fmap, length_seq in Hsub. lia.
Qed.

(** X20. [_unique] always returns, and never the path of an existing
    file: it returns [d/b] when that is free, and otherwise the first
    free name among [n_1e], [n_2e], ... *)
Theorem unique_never_existing files d b :
  ∃ p,
    (∀ extra, _unique files d b (S (size files) + extra) = Some p)
    ∧ (p ∉ files)
    ∧ (path_join d b ∉ files → p = path_join d b)
    ∧ (path_join d b ∈ files →
         ∃ k, p = path_join d (numbered (splitext b).1 (S k) (splitext b).2)
              ∧ ∀ k', (k' < k)%nat →
                  path_join d (numbered (splitext b).1 (S k') (splitext b).2) ∈ files).
Proof.
  unfold _unique. destruct (splitext b) as [n e]. simpl.
  destruct (decide (path_join d b ∈ files)) as [Hin|Hnew].
  - destruct (unique_loop_enough files d n e 1) as [c Hc].
    exists c.
    split; [intros extra; exact (unique_loop_more files d n e _ extra 1 c Hc)|].
    destruct (unique_loop_Some _ _ _ _ _ _ _ Hc) as (Hnew & k & _ & -> & Hbelow).
    split; [done|]. split; [done|]. intros _. by exists k.
  - exists (path_join d b). split; [done|]. split; [done|]. split; done.
Qed.

(** The shape of the paths [_unique] proposes for [name_tag.png]. *)
Lemma unique_form files d name tag fuel p :
  _unique files d (name +:+ String (Ascii.ascii_of_nat 95) (tag +:+ ".png")) fuel = Some p →
  ∃ rest, p = join_prefix d (name +:+ "_") +:+ name +:+ String (Ascii.ascii_of_nat 95) (tag +:+ rest).
Proof.
  set (stem := name +:+ String (Ascii.ascii_of_nat 95) tag).
  assert (name +:+ String (Ascii.ascii_of_nat 95) (tag +:+ ".png") = stem +:+ "." +:+ "png") as Hb.
  { unfold stem. rewrite string_app_assoc. done. }
  assert (named stem = true) as Hstem.
  { unfold named, stem. rewrite list_ascii_app, forallb_app. simpl.
    by rewrite andb_false_r. }
  assert (∀ rest, isabs (name +:+ String (Ascii.ascii_of_nat 95) (tag +:+ rest)) = isabs (name +:+ "_"))
    as Habs by (intros; apply isabs_head).
  unfold _unique. case_decide as Hin.
  - rewrite Hb, splitext_stem_ext by done.
    intros Hloop. apply unique_loop_Some in Hloop as (_ & k & _ & -> & _).
    exists ("_" +:+ pretty (1 + k)%nat +:+ ".png").
    rewrite path_join_prefix.
    assert (numbered stem (1 + k) ("." +:+ "png")
            = name +:+ String (Ascii.ascii_of_nat 95) (tag +:+ "_" +:+ pretty (1 + k)%nat +:+ ".png")) as ->.
    { unfold numbered, stem. rewrite string_app_assoc. done. }
    f_equal. apply join_prefix_isabs, Habs.
  - intros [= <-]. exists ".png". rewrite path_join_prefix.
    f_equal. apply join_prefix_isabs, Habs.
Qed.

(** X21. The two files of one save never share a path, whatever is in
    the output directory: [save_output] cannot write its solution over
    its own puzzle. *)
Theorem save_paths_differ files d name fuel1 fuel2 puz_path sol_path :
  _unique files d (name +:+ "_puzzle.png") fuel1 = Some puz_path →
  _unique files d (name +:+ "_solution.png") fuel2 = Some sol_path →
  puz_path ≠ sol_path.
Proof.
  intros Hp Hs.
  apply (unique_form files d name "puzzle") in Hp as [rp ->].
  apply (unique_form files d name "solution") in Hs as [rs ->].
  intros Heq. apply String.app_inj in Heq. apply String.app_inj in Heq.
  discriminate.
Qed.

Lemma dest_loop_unique files d n e fuel i :
  dest_loop files d n e fuel (path_join d (numbered n i e)) (S i)
  = unique_loop files d n e fuel i.
Proof.
  revert i. induction fuel as [|fuel IH]; intros i; [done|]. simpl.
  case_decide; [apply IH|done].
Qed.

(** X22. The copy that [open_image] makes in the input directory gets its
    name by the same search as [_unique]: the loop always ends, the
    destination is never an existing file, and so a picture opened from
    the input directory itself is copied beside the original. *)
Theorem copy_destination_new files input_dir base :
  ∃ dest,
    (∀ extra, copy_destination files input_dir base (S (S (size files)) + extra)
              = Some dest)
    ∧ (dest ∉ files)
    ∧ (∀ fuel, copy_destination files input_dir base (S fuel)
               = _unique files input_dir base fuel)
    ∧ (path_join input_dir base ∈ files → dest ≠ path_join input_dir base).
Proof.
  assert (∀ fuel, copy_destination files input_dir base (S fuel)
                  = _unique files input_dir base fuel) as Hsame.
  { intros fuel. unfold copy_destination, _unique.
    destruct (splitext base) as [n e]. simpl.
    case_decide; [apply dest_loop_unique|done]. }
  destruct (unique_loop_enough files input_dir (splitext base).1 (splitext base).2 1)
    as [c Hc].
  assert (∃ dest, (∀ extra, _unique files input_dir base (S (size files) + extra)
                            = Some dest) ∧ (dest ∉ files)) as (dest & Hdest & Hnew).
  { unfold _unique. destruct (splitext base) as [n e].
    change (unique_loop files input_dir n e (S (size files)) 1 = Some c) in Hc.
    case_decide.
    - exists c.
      split; [intros extra; exact (unique_loop_more files input_dir n e _ extra 1 c Hc)|].
      by destruct (unique_loop_Some _ _ _ _ _ _ _ Hc).
    - by eexists. }
  exists dest. split; [|split; [done|split; [done|]]].
  - intros extra. change (S (S (size files)) + extra)%nat
      with (S (S (size files) + extra)). by rewrite Hsame.
  - intros Hin ->. done.
Qed.

(** * The further properties at concrete inputs *)

Section demo_more.
Existing Instance Q_PyFloat.
Existing Instance nn_OpenCV.
Existing Instance strict_Toolkit.
Existing Instance lcg_NpRandom.
Existing Instance lcg_PyRandom.
Existing Instance CPython_hash.

Lemma shuffle_image_puzzle_pixels_witness :
  has_shape 9 10 (gradient 9 10)
  ∧ ∃ shuffled order,
      shuffle_image_puzzle (gradient 9 10) (4, 4) 42 = Ok (shuffled, order)
      ∧ has_shape 9 10 shuffled
      ∧ px shuffled 8 9 = Some black.
Proof.
  split; [apply gradient_shape|].
  destruct (shuffle_image_puzzle_pixels 4 4 9 10 (gradient 9 10) 42
              (gradient_shape 9 10) ltac:(lia) ltac:(lia))
    as (shuffled & order & Hsh & Hshape & Hpx).
  exists shuffled, order. split; [exact Hsh|]. split; [exact Hshape|].
  rewrite Hpx by lia. by vm_compute.
Defined.

Lemma shuffle_image_puzzle_tiles_witness :
  has_shape 9 10 (gradient 9 10)
  ∧ ∃ shuffled order th tw tiles stiles,
      shuffle_image_puzzle (gradient 9 10) (4, 4) 42 = Ok (shuffled, order)
      ∧ tile_image (gradient 9 10) (4, 4) = Ok (th, tw, tiles)
      ∧ tile_image shuffled (4, 4) = Ok (th, tw, stiles)
      ∧ stiles ≡ₚ tiles.
Proof.
  split; [apply gradient_shape|].
  destruct (shuffle_image_puzzle_tiles 4 4 9 10 (gradient 9 10) 42
              (gradient_shape 9 10) ltac:(lia) ltac:(lia))
    as (shuffled & order & th & tw & tiles & stiles & Hsh & Ht & Hst & _ & Hperm).
  exists shuffled, order, th, tw, tiles, stiles.
  split; [exact Hsh|]. split; [exact Ht|]. split; [exact Hst|exact Hperm].
Defined.

Lemma shuffle_image_puzzle_outcomes_witness :
  has_shape 9 10 (gradient 9 10)
  ∧ shuffle_image_puzzle (gradient 9 10) (0, 3) 42 = Raise ZeroDivisionError
  ∧ shuffle_image_puzzle (gradient 9 10) (-3, 3) 42
    = Ok (zeros_like (gradient 9 10), []).
Proof.
  split; [apply gradient_shape|].
  destruct (shuffle_image_puzzle_outcomes 9 10 (gradient 9 10) 0 3 42
              (gradient_shape 9 10)) as (Hzero & _ & _).
  destruct (shuffle_image_puzzle_outcomes 9 10 (gradient 9 10) (-3) 3 42
              (gradient_shape 9 10)) as (_ & Hneg & _).
  split; [apply Hzero; by left|]. apply Hneg; [lia|lia|left; lia].
Defined.

Lemma process_all_images_records_witness :
  Forall (λ entry : string * option image,
            ∀ img, entry.2 = Some img → ∃ h w, has_shape h w img)
    [("cat.png", Some (gradient 9 10)); ("notes.txt", Some (gradient 2 2));
     ("dog.jpg", None)]
  ∧ ∃ records,
      @process_all_images CPython_hash lcg_PyRandom (PYTHONHASHSEED 0)
        [("cat.png", Some (gradient 9 10)); ("notes.txt", Some (gradient 2 2));
         ("dog.jpg", None)] medium
      = Ok records
      ∧ image_file <$> records = ["shuffled_cat.png"].
Proof.
  assert (Forall (λ entry : string * option image,
                    ∀ img, entry.2 = Some img → ∃ h w, has_shape h w img)
            [("cat.png", Some (gradient 9 10)); ("notes.txt", Some (gradient 2 2));
             ("dog.jpg", None)]) as Hall.
  { repeat constructor; simpl; intros img [= <-]; eexists _, _; apply gradient_shape. }
  split; [exact Hall|].
  destruct (@process_all_images_records CPython_hash lcg_PyRandom
              (PYTHONHASHSEED 0) _ medium Hall)
    as (records & Hrec & Hnames & _).
  exists records. split; [exact Hrec|]. rewrite Hnames. by vm_compute.
Defined.

Lemma pending_selection_in_range_witness :
  Forall keeps_difficulty (take 3 demo_events)
  ∧ tile_order demo_pending
    = Some [0; 4; 1; 15; 2; 5; 8; 9; 12; 10; 3; 7; 6; 13; 14; 11]%nat
  ∧ Forall (λ a, a < 16)%nat (selected demo_pending)
  ∧ tile_order (on_click 300 200 demo_pending).1
    = Some [0; 4; 1; 15; 7; 5; 8; 9; 12; 10; 3; 2; 6; 13; 14; 11]%nat.
Proof.
  assert (Forall keeps_difficulty (take 3 demo_events)) as Hkeep.
  { unfold demo_events. repeat constructor; intros d; discriminate. }
  split; [exact Hkeep|]. split; [by vm_compute|].
  destruct (pending_selection_in_range (400, 300) (take 3 demo_events)
              [0; 4; 1; 15; 2; 5; 8; 9; 12; 10; 3; 7; 6; 13; 14; 11]%nat Hkeep)
    as (_ & Hrange & Hswap); [by vm_compute|].
  split; [exact Hrange|].
  destruct (Hswap 300 200 2 3 4%nat []) as (va & vi & Hva & Hvi & Hto);
    [by_evaluation..|].
  etrans; [exact Hto|].
  vm_compute in Hva, Hvi. injection Hva as <-. injection Hvi as <-.
  by vm_compute.
Defined.

Lemma stale_selection_raises_witness :
  selected demo_stale = [24%nat]
  ∧ tile_order demo_stale = Some [2; 7; 4; 1; 8; 3; 6; 5; 0]%nat
  ∧ on_click 100 100 demo_stale = (set_selected [] demo_stale, Raise IndexError).
Proof.
  split; [by vm_compute|]. split; [by vm_compute|].
  eapply (stale_selection_raises 100 100 demo_stale _
            [2; 7; 4; 1; 8; 3; 6; 5; 0]%nat 1 0 24 []); by_evaluation.
Defined.

Lemma click_outside_picture_ignored_witness :
  10 < displayed_offset_x (displayed demo_shuffled)
  ∧ on_click 10 100 demo_shuffled = (demo_shuffled, Ok ()).
Proof.
  split; [by vm_compute|].
  apply click_outside_picture_ignored. left. by vm_compute.
Defined.

Lemma no_puzzle_before_load_witness :
  Forall keeps_image demo_idle_events
  ∧ tiles (demo_run (init (400, 300)) demo_idle_events) = None
  ∧ tile_order (demo_run (init (400, 300)) demo_idle_events) = None.
Proof.
  assert (Forall keeps_image demo_idle_events) as Hkeep.
  { unfold demo_idle_events. repeat constructor; intros im copied; discriminate. }
  split; [exact Hkeep|].
  destruct (no_puzzle_before_load (400, 300) demo_idle_events Hkeep)
    as (_ & _ & Ht & Hto & _).
  split; [exact Ht|exact Hto].
Defined.

Lemma assemble_shows_permuted_working_image_witness :
  Forall keeps_difficulty demo_events
  ∧ tile_order (demo_run (init (400, 300)) demo_events) = Some (seq 0 16)
  ∧ ∃ im,
      img (demo_run (init (400, 300)) demo_events) = Some im
      ∧ (_assemble (demo_run (init (400, 300)) demo_events)).2 = Ok (Some im).
Proof.
  assert (Forall keeps_difficulty demo_events) as Hkeep.
  { unfold demo_events. repeat constructor; intros d; discriminate. }
  split; [exact Hkeep|]. split; [by vm_compute|].
  destruct (assemble_shows_permuted_working_image (400, 300) demo_events (seq 0 16) Hkeep)
    as (n & nh & nw & im & pic & _ & _ & Him & _ & Hasm & _ & _ & Hid);
    [by vm_compute|].
  exists im. split; [exact Him|].
  etrans; [exact (f_equal snd Hasm)|]. simpl. by rewrite Hid.
Defined.

Lemma show_hint_same_frame_witness :
  Forall keeps_difficulty (take 2 demo_events)
  ∧ tile_order demo_shuffled
    = Some [0; 4; 1; 15; 2; 5; 8; 9; 12; 10; 3; 7; 6; 13; 14; 11]%nat
  ∧ show_hint demo_shuffled = _assemble_and_show demo_shuffled.
Proof.
  assert (Forall keeps_difficulty (take 2 demo_events)) as Hkeep.
  { unfold demo_events. repeat constructor; intros d; discriminate. }
  split; [exact Hkeep|]. split; [by vm_compute|].
  destruct (show_hint_same_frame (400, 300) (take 2 demo_events)
              [0; 4; 1; 15; 2; 5; 8; 9; 12; 10; 3; 7; 6; 13; 14; 11]%nat Hkeep)
    as [[e He]|Hsame]; [by vm_compute| |exact Hsame].
  exfalso. apply (f_equal snd) in He. by vm_compute in He.
Defined.

Lemma swap_back_restores_order_witness :
  selected demo_pending = [4%nat]
  ∧ click_cell demo_pending 300 200 = Ok (Some (2, 3))
  ∧ tile_order
      (on_click 300 200 (on_click 100 100 (on_click 300 200 demo_pending).1).1).1
    = tile_order demo_pending.
Proof.
  split; [by vm_compute|]. split; [by vm_compute|].
  destruct (tiles demo_pending) as [ts|] eqn:Hts; [|by vm_compute in Hts].
  destruct (swap_back_restores_order 300 200 100 100 demo_pending ts
              [0; 4; 1; 15; 2; 5; 8; 9; 12; 10; 3; 7; 6; 13; 14; 11]%nat
              2 3 4 1 0 Hts)
    as (_ & _ & _ & _ & Hto & _); [by_evaluation..|].
  etrans; [exact Hto|]. by vm_compute.
Defined.

Lemma click_cell_exact_witness :
  grid_size demo_shuffled = (4, 4)
  ∧ click_cell demo_shuffled 237 112 = Ok (Some (1, 2)).
Proof.
  split; [by vm_compute|].
  destruct (click_cell_exact demo_shuffled 237 112 4 4) as [Hcell _];
    [by_evaluation..|].
  etrans; [exact Hcell|]. by vm_compute.
Defined.

Lemma solution_map_name_clash_witness :
  supported_image "cat.png" = true ∧ supported_image "cat.jpg" = true
  ∧ ∃ r1 r2,
      @process_all_images CPython_hash lcg_PyRandom (PYTHONHASHSEED 0)
        [("cat.png", Some (gradient 9 10)); ("cat.jpg", Some (gradient 7 8))] medium
      = Ok [r1; r2]
      ∧ solution_file r1 = "solution_map_cat.json"
      ∧ solution_file r2 = "solution_map_cat.json"
      ∧ image_file r1 ≠ image_file r2.
Proof.
  split; [by vm_compute|]. split; [by vm_compute|].
  destruct (@solution_map_name_clash CPython_hash lcg_PyRandom
              (PYTHONHASHSEED 0) medium "cat" "png" "jpg"
              (gradient 9 10) (gradient 7 8) 9 10 7 8)
    as (r1 & r2 & Hrec & Hs1 & Hs2 & Hne);
    [by vm_compute|by vm_compute|by vm_compute|discriminate
    |by vm_compute|by vm_compute|apply gradient_shape|apply gradient_shape|].
  exists r1, r2. split; [exact Hrec|]. split; [exact Hs1|].
  split; [by rewrite Hs2, Hs1|exact Hne].
Defined.

Lemma save_paths_differ_witness :
  _unique {["out/cat_puzzle.png"]} "out" "cat_puzzle.png" 2
  = Some "out/cat_puzzle_1.png"
  ∧ _unique {["out/cat_puzzle.png"]} "out" "cat_solution.png" 2
    = Some "out/cat_solution.png"
  ∧ "out/cat_puzzle_1.png" ≠ "out/cat_solution.png".
Proof.
  assert (_unique {["out/cat_puzzle.png"]} "out" "cat_puzzle.png" 2
          = Some "out/cat_puzzle_1.png") as Hp by (by vm_compute).
  assert (_unique {["out/cat_puzzle.png"]} "out" "cat_solution.png" 2
          = Some "out/cat_solution.png") as Hs by (by vm_compute).
  split; [exact Hp|]. split; [exact Hs|].
  exact (save_paths_differ {["out/cat_puzzle.png"]} "out" "cat" 2 2 _ _ Hp Hs).
Defined.

Lemma shuffle_rejects_small_image_witness :
  orig_img (demo_run (init (400, 300)) [OpenImage (Some (Some (gradient 2 2))) true])
  = Some (gradient 2 2)
  ∧ ∃ e,
      demo_shuffle 42 false
        (demo_run (init (400, 300)) [OpenImage (Some (Some (gradient 2 2))) true])
      = (with_difficulty
           (demo_run (init (400, 300)) [OpenImage (Some (Some (gradient 2 2))) true]),
         Raise e).
Proof.
  split; [by vm_compute|].
  apply (@shuffle_rejects_small_image nn_OpenCV strict_Toolkit lcg_NpRandom
           42 false _ (gradient 2 2) 2 2);
    [by vm_compute|by vm_compute|apply gradient_shape|lia|lia|left; by vm_compute].
Defined.

Lemma save_button_needs_puzzle_witness :
  save_btn demo_shuffled = true
  ∧ ∃ ts order,
      tiles demo_shuffled = Some ts ∧ tile_order demo_shuffled = Some order
      ∧ order ≡ₚ seq 0 (length ts).
Proof.
  split; [by vm_compute|].
  apply (save_button_needs_puzzle (400, 300) (take 2 demo_events)).
  by vm_compute.
Defined.

End demo_more.
